(** * The cppfront parser core ([parse.h]): a shallow embedding

    The recursive-descent parser of [parse.h] is embedded as a family of
    functions in a small state-and-fault monad over the fields of
    [class parser]; the syntax-tree structs become inductive types whose
    owning pointers ([std::unique_ptr]) are options, and the [visit] hooks
    become functions producing the sequence of visitor callbacks.

    Conventions.
    - [int] positions and depths are unbounded [Z]; a token vector has far
      fewer than 2^31 entries, so no arithmetic of the parser wraps.
    - A failed [assert], an out-of-range [operator[]] and a null
      dereference stop the run: they are the [Fault] outcome.
    - Loops and the recursion through [expression_list], [statement] and
      [declaration] are bounded by a [fuel] argument; running out of it is
      the third outcome, [OutOfFuel]. *)

From Stdlib Require Import ZArith List String Bool Lia.
Import ListNotations.
Local Open Scope Z_scope.

Set Implicit Arguments.

(* ===================================================================== *)
(** ** Tokens ([lex.h]) *)
(* ===================================================================== *)

(** Modelled from the spec: [lex.h], which declares [lexeme], [token],
    [source_position] and [error], is not among the sources.  The
    enumeration lists every lexeme kind [parse.h] names (also in its
    commented-out cases) and the remaining punctuation of the lexer. *)
Inductive lexeme : Type :=
| SlashEq | Slash | LeftShiftEq | LeftShift | Spaceship | LessEq | Less
| RightShiftEq | RightShift | GreaterEq | Greater | PlusPlus | PlusEq | Plus
| MinusMinus | MinusEq | Arrow | Minus | LogicalOrEq | LogicalOr | PipeEq
| Pipe | LogicalAndEq | LogicalAnd | MultiplyEq | Multiply | ModuloEq
| Modulo | AmpersandEq | Ampersand | CaretEq | Caret | TildeEq | Tilde
| EqualComparison | Assignment | NotEqualComparison | Not | LeftBrace
| RightBrace | LeftParen | RightParen | LeftBracket | RightBracket | Scope
| Colon | Semicolon | Comma | Dot | Ellipsis | QuestionMark | Dollar
| FloatLiteral | BinaryLiteral | DecimalLiteral | HexadecimalLiteral
| StringLiteral | CharacterLiteral | Keyword | Identifier.

Definition lexeme_eq_dec (a b : lexeme) : {a = b} + {a <> b}.
Proof. decide equality. Defined.

Definition lexeme_eqb (a b : lexeme) : bool :=
  if lexeme_eq_dec a b then true else false.

Lemma lexeme_eqb_eq a b : lexeme_eqb a b = true <-> a = b.
Proof. unfold lexeme_eqb. destruct (lexeme_eq_dec a b); split; congruence. Qed.

Lemma lexeme_eqb_refl a : lexeme_eqb a a = true.
Proof. now apply lexeme_eqb_eq. Qed.

(** Modelled from the spec: a source position is a (line, column) pair. *)
Record source_position : Type := mk_source_position {
  lineno : Z;
  colno : Z
}.

(** Modelled from the spec: a token exposes its lexeme kind, its position,
    its text ([to_string], and the [string_view] conversion used by the
    comparisons against string literals). *)
Record token : Type := mk_token {
  type : lexeme;
  to_string : string;
  position : source_position
}.

(** [curr() == "out"] and its like: comparison of the token's text. *)
Definition token_is (t : token) (s : string) : bool := String.eqb (to_string t) s.

(** Modelled from the spec: an entry of the error sink is a
    (position, message) record. *)
Record error : Type := mk_error {
  where_ : source_position;
  msg : string
}.

(* ===================================================================== *)
(** ** Operator categorization *)
(* ===================================================================== *)

Definition is_prefix_operator (l : lexeme) : bool :=
  match l with
  | Not => true
  | _ => false
  end.

Definition is_postfix_operator (l : lexeme) : bool :=
  match l with
  | PlusPlus | MinusMinus | Caret | Ampersand | Tilde | Dollar => true
  | _ => false
  end.

Definition is_assignment_operator (l : lexeme) : bool :=
  match l with
  | Assignment | MultiplyEq | SlashEq | ModuloEq | PlusEq | MinusEq
  | RightShiftEq | LeftShiftEq => true
  | _ => false
  end.

(* ===================================================================== *)
(** ** Parse tree node types *)
(* ===================================================================== *)

(** A [std::unique_ptr<T>] is an optional [T]; [None] is the null pointer.
    A [token const*] is always taken as [&curr()] and is the token. *)
Abbreviation unique_ptr := option (only parsing).

Inductive passing_style : Type := in_ | inout | out | move | forward.

(** [binary_expression_node<Name, Term>::term] *)
Record binary_term (Term : Type) : Type := mk_binary_term {
  term_op : token;
  term_expr : unique_ptr Term
}.

(** [template<String Name, typename Term> struct binary_expression_node] *)
Record binary_expression_node (Name : string) (Term : Type) : Type :=
  mk_binary_expression_node {
    binary_expr : unique_ptr Term;
    binary_terms : list (binary_term Term)
  }.
Arguments mk_binary_expression_node {Name Term} _ _.
Arguments binary_expr {Name Term} _.
Arguments binary_terms {Name Term} _.

(** [postfix_expression_node::term]; [expr_list] is used if the operator
    is [[] or [(] and can be null. *)
Record postfix_term (L : Type) : Type := mk_postfix_term {
  postfix_op : token;
  expr_list : unique_ptr L
}.

(** [expression_list_node::term] *)
Record expression_list_term (E : Type) : Type := mk_expression_list_term {
  pass : passing_style;
  list_expr : unique_ptr E
}.

(** The ten instances of the binary template over the prefix level, from
    is-as (innermost) to assignment.  The bitwise levels are commented
    out in the source: logical-and sits directly on equality. *)
Definition is_as_level (P : Type) := binary_expression_node "is-as" P.
Definition multiplicative_level (P : Type) :=
  binary_expression_node "multiplicative" (is_as_level P).
Definition additive_level (P : Type) :=
  binary_expression_node "additive" (multiplicative_level P).
Definition shift_level (P : Type) :=
  binary_expression_node "shift" (additive_level P).
Definition compare_level (P : Type) :=
  binary_expression_node "compare" (shift_level P).
Definition relational_level (P : Type) :=
  binary_expression_node "relational" (compare_level P).
Definition equality_level (P : Type) :=
  binary_expression_node "equality" (relational_level P).
Definition logical_and_level (P : Type) :=
  binary_expression_node "logical-and" (equality_level P).
Definition logical_or_level (P : Type) :=
  binary_expression_node "logical-or" (logical_and_level P).
Definition assignment_level (P : Type) :=
  binary_expression_node "assignment" (logical_or_level P).

(** The expression nodes.  [primary_expression_node] is its variant
    [expr]: [std::monostate], [token const*] or an owned
    expression list. *)
Inductive primary_expression_node : Type :=
| primary_empty
| primary_identifier (s : token)
| primary_expression_list (s : unique_ptr expression_list_node)
with postfix_expression_node : Type :=
| mk_postfix_expression_node
  (postfix_expr : unique_ptr primary_expression_node)
  (postfix_ops : list (postfix_term expression_list_node))
with prefix_expression_node : Type :=
| mk_prefix_expression_node
  (prefix_ops : list token)
  (prefix_expr : unique_ptr postfix_expression_node)
with expression_node : Type :=
| mk_expression_node
  (expression_expr : unique_ptr (assignment_level prefix_expression_node))
with expression_list_node : Type :=
| mk_expression_list_node
  (expressions : list (expression_list_term expression_node)).

Definition is_as_expression_node := is_as_level prefix_expression_node.
Definition multiplicative_expression_node := multiplicative_level prefix_expression_node.
Definition additive_expression_node := additive_level prefix_expression_node.
Definition shift_expression_node := shift_level prefix_expression_node.
Definition compare_expression_node := compare_level prefix_expression_node.
Definition relational_expression_node := relational_level prefix_expression_node.
Definition equality_expression_node := equality_level prefix_expression_node.
Definition logical_and_expression_node := logical_and_level prefix_expression_node.
Definition logical_or_expression_node := logical_or_level prefix_expression_node.
Definition assignment_expression_node := assignment_level prefix_expression_node.

Definition postfix_expr (n : postfix_expression_node) :=
  let (e, _) := n in e.
Definition postfix_ops (n : postfix_expression_node) :=
  let (_, o) := n in o.
Definition prefix_ops (n : prefix_expression_node) :=
  let (o, _) := n in o.
Definition prefix_expr (n : prefix_expression_node) :=
  let (_, e) := n in e.
Definition expression_expr (n : expression_node) :=
  let (e) := n in e.
Definition expressions (n : expression_list_node) :=
  let (l) := n in l.

Record expression_statement_node : Type := mk_expression_statement_node {
  statement_expr : unique_ptr expression_node
}.

Record unqualified_id_node : Type := mk_unqualified_id_node {
  identifier : token
}.

Record qualified_id_node : Type := mk_qualified_id_node {
  ids : list (unique_ptr unqualified_id_node)
}.

(** [id_expression_node] is its variant [id]. *)
Inductive id_expression_node : Type :=
| id_empty
| id_qualified (s : unique_ptr qualified_id_node)
| id_unqualified (s : unique_ptr unqualified_id_node).

Inductive modifier : Type := none | implicit | virtual_ | override_ | final_.

(** The statement and declaration nodes.  [statement_node] is its
    variant [statement]; [declaration_type] is the variant
    [declaration_node::type]. *)
Inductive compound_statement_node : Type :=
| mk_compound_statement_node
  (compound_pos : source_position)
  (statements : list (unique_ptr statement_node))
with selection_statement_node : Type :=
| mk_selection_statement_node
  (is_constexpr : bool)
  (selection_identifier : token)
  (selection_expression : unique_ptr expression_node)
  (true_branch : unique_ptr compound_statement_node)
  (false_branch : unique_ptr compound_statement_node)
with statement_node : Type :=
| statement_expression (s : unique_ptr expression_statement_node)
| statement_compound (s : unique_ptr compound_statement_node)
| statement_selection (s : unique_ptr selection_statement_node)
| statement_declaration (s : unique_ptr declaration_node)
with declaration_node : Type :=
| mk_declaration_node
  (declaration_identifier : unique_ptr unqualified_id_node)
  (declaration_type_ : declaration_type)
  (initializer : unique_ptr statement_node)
with declaration_type : Type :=
| type_function (s : unique_ptr parameter_declaration_list_node)
| type_object (s : unique_ptr id_expression_node)
with parameter_declaration_node : Type :=
| mk_parameter_declaration_node
  (parameter_pos : source_position)
  (parameter_pass : passing_style)
  (parameter_mod : modifier)
  (parameter_declaration_ : unique_ptr declaration_node)
with parameter_declaration_list_node : Type :=
| mk_parameter_declaration_list_node
  (pos_open_paren : source_position)
  (pos_close_paren : source_position)
  (parameters : list (unique_ptr parameter_declaration_node)).

Definition compound_pos (n : compound_statement_node) :=
  let (p, _) := n in p.
Definition statements (n : compound_statement_node) :=
  let (_, s) := n in s.
Definition is_constexpr (n : selection_statement_node) :=
  let (c, _, _, _, _) := n in c.
Definition selection_identifier (n : selection_statement_node) :=
  let (_, i, _, _, _) := n in i.
Definition selection_expression (n : selection_statement_node) :=
  let (_, _, e, _, _) := n in e.
Definition true_branch (n : selection_statement_node) :=
  let (_, _, _, t, _) := n in t.
Definition false_branch (n : selection_statement_node) :=
  let (_, _, _, _, f) := n in f.
Definition declaration_identifier (n : declaration_node) :=
  let (i, _, _) := n in i.
Definition declaration_type_ (n : declaration_node) :=
  let (_, t, _) := n in t.
Definition initializer (n : declaration_node) :=
  let (_, _, i) := n in i.

Record translation_unit_node : Type := mk_translation_unit_node {
  declarations : list (unique_ptr declaration_node)
}.

(* ===================================================================== *)
(** ** The parser object and its monad *)
(* ===================================================================== *)

(** The fields of [class parser].  [errors] is the caller's error list,
    which the parser only appends to; [tokens_] is null between calls. *)
Record parser : Type := mk_parser {
  errors : list error;
  parse_tree : unique_ptr translation_unit_node;
  tokens_ : option (list token);
  pos : Z
}.

Definition set_pos (p : Z) (st : parser) : parser :=
  mk_parser (errors st) (parse_tree st) (tokens_ st) p.
Definition set_tokens (ts : list token) (st : parser) : parser :=
  mk_parser (errors st) (parse_tree st) (Some ts) (pos st).
Definition set_parse_tree (t : unique_ptr translation_unit_node) (st : parser) : parser :=
  mk_parser (errors st) t (tokens_ st) (pos st).
Definition emplace_back_error (e : error) (st : parser) : parser :=
  mk_parser (errors st ++ [e]) (parse_tree st) (tokens_ st) (pos st).

(** [parser(errors)]: a fresh parser owns an empty translation unit. *)
Definition new_parser (errs : list error) : parser :=
  mk_parser errs (Some (mk_translation_unit_node [])) None 0.

Inductive fault : Type :=
| assertion_failed (what : string)
| out_of_range
| null_dereference.

Inductive outcome (A : Type) : Type :=
| Ok (a : A) (st : parser)
| Fault (f : fault)
| OutOfFuel.
Arguments Fault {A} f.
Arguments OutOfFuel {A}.

Definition M (A : Type) : Type := parser -> outcome A.

Definition ret {A} (a : A) : M A := fun st => Ok a st.
Definition bind {A B} (m : M A) (k : A -> M B) : M B :=
  fun st =>
    match m st with
    | Ok a st' => k a st'
    | Fault f => Fault f
    | OutOfFuel => OutOfFuel
    end.
Definition raise {A} (f : fault) : M A := fun _ => Fault f.
Definition out_of_fuel {A} : M A := fun _ => OutOfFuel.
Definition get_pos : M Z := fun st => Ok (pos st) st.
Definition put_pos (p : Z) : M unit := fun st => Ok tt (set_pos p st).

Declare Scope parser_scope.
Delimit Scope parser_scope with parser.
Notation "x <- m ;; k" := (bind m (fun x => k))
  (at level 61, m at next level, right associativity) : parser_scope.
Notation "m ;; k" := (bind m (fun _ => k))
  (at level 61, right associativity) : parser_scope.
Local Open Scope parser_scope.

(** [*p] for an owning pointer. *)
Definition deref {A} (p : unique_ptr A) : M A :=
  match p with
  | Some a => ret a
  | None => raise null_dereference
  end.

(* ===================================================================== *)
(** ** Token navigation *)
(* ===================================================================== *)

Definition ssize {A} (l : list A) : Z := Z.of_nat (List.length l).

(** [v[i]] on a vector: outside [0, size) the access is a fault. *)
Definition subscript {A} (l : list A) (i : Z) : option A :=
  if i <? 0 then None else nth_error l (Z.to_nat i).

Definition done : M bool := fun st =>
  match tokens_ st with
  | None => Fault (assertion_failed "tokens_")
  | Some ts =>
      if pos st <=? ssize ts
      then Ok (pos st =? ssize ts) st
      else Fault (assertion_failed "pos <= std::ssize(*tokens_)")
  end.

Definition curr : M token := fun st =>
  match done st with
  | Ok true _ => Fault (assertion_failed "!done()")
  | Ok false _ =>
      match tokens_ st with
      | Some ts =>
          match subscript ts (pos st) with
          | Some t => Ok t st
          | None => Fault out_of_range
          end
      | None => Fault (assertion_failed "tokens_")
      end
  | Fault f => Fault f
  | OutOfFuel => OutOfFuel
  end.

Definition peek (num : Z) : M (option token) := fun st =>
  match tokens_ st with
  | None => Fault (assertion_failed "tokens_")
  | Some ts =>
      if pos st + num <? ssize ts
      then match subscript ts (pos st + num) with
           | Some t => Ok (Some t) st
           | None => Fault out_of_range
           end
      else Ok None st
  end.

Definition next (num : Z) : M unit := fun st =>
  match tokens_ st with
  | None => Fault (assertion_failed "tokens_")
  | Some ts => Ok tt (set_pos (Z.min (pos st + num) (ssize ts)) st)
  end.

(** [error(msg)]: asserts [!done()], then appends
    [(curr().position(), msg + " at " + curr().to_string())]. *)
Definition error_ (m : string) : M unit :=
  d <- done ;;
  if d then raise (assertion_failed "!done()")
  else
    c <- curr ;;
    fun st =>
      Ok tt (emplace_back_error
               (mk_error (position c) (m ++ " at " ++ to_string c)%string) st).

(* ===================================================================== *)
(** ** The productions *)
(* ===================================================================== *)

(** The three productions through which the grammar recurses.  Every
    other production is defined from the ones before it. *)
Record recursion : Type := mk_recursion {
  rec_expression_list : M (unique_ptr expression_list_node);
  rec_statement : bool -> M (unique_ptr statement_node);
  rec_declaration : bool -> M (unique_ptr declaration_node)
}.

Definition eq_type (t : token) (l : lexeme) : bool := lexeme_eqb (type t) l.

Module Grammar.
Section productions.

(** [fuel] bounds the iterations of each loop of this level; [self]
    holds the recursive entry points, one level of fuel further down. *)
Variable fuel : nat.
Variable self : recursion.

(** *** Unary expressions *)

(** primary-expression: literal | ( expression-list ) *)
Definition primary_expression : M (unique_ptr primary_expression_node) :=
  c <- curr ;;
  match type c with
  | Identifier | DecimalLiteral | FloatLiteral | StringLiteral
  | CharacterLiteral | BinaryLiteral | HexadecimalLiteral | Keyword =>
      next 1 ;;
      ret (Some (primary_identifier c))
  | LeftParen =>
      next 1 ;;
      expr_list <- rec_expression_list self ;;
      match expr_list with
      | None =>
          error_ "unexpected text - ( is not followed by an expression-list" ;;
          next 1 ;;
          ret None
      | Some _ =>
          c' <- curr ;;
          if negb (eq_type c' RightParen) then
            error_ "unexpected text - expression-list is not terminated by )" ;;
            next 1 ;;
            ret None
          else
            next 1 ;;
            ret (Some (primary_expression_list expr_list))
      end
  | _ => ret None
  end.

(** The [while] of postfix-expression; [n] is the node built so far. *)
Fixpoint postfix_expression_loop (iter : nat) (n : postfix_expression_node)
  : M (unique_ptr postfix_expression_node) :=
  match iter with
  | O => out_of_fuel
  | S iter' =>
      c <- curr ;;
      if is_postfix_operator (type c) || eq_type c LeftBracket
         || eq_type c LeftParen || eq_type c Dot
      then
        next 1 ;;
        term <- match type c with
                | LeftBracket =>
                    el <- rec_expression_list self ;;
                    match el with
                    | None => error_ "subscript expression [ ] must not be empty"
                    | Some _ => ret tt
                    end ;;
                    c' <- curr ;;
                    (if negb (eq_type c' RightBracket)
                     then error_ "unexpected text - [ is not properly matched by ]"
                     else ret tt) ;;
                    next 1 ;;
                    ret (mk_postfix_term c el)
                | LeftParen =>
                    el <- rec_expression_list self ;;
                    c' <- curr ;;
                    (if negb (eq_type c' RightParen)
                     then error_ "unexpected text - ( is not properly matched by )"
                     else ret tt) ;;
                    next 1 ;;
                    ret (mk_postfix_term c el)
                | _ => ret (mk_postfix_term c None)   (* TODO: lexeme::Dot *)
                end ;;
        postfix_expression_loop iter'
          (mk_postfix_expression_node (postfix_expr n) (postfix_ops n ++ [term]))
      else ret (Some n)
  end.

Definition postfix_expression : M (unique_ptr postfix_expression_node) :=
  e <- primary_expression ;;
  match e with
  | None => ret None
  | Some _ => postfix_expression_loop fuel (mk_postfix_expression_node e [])
  end.

(** The [for] of prefix-expression collecting the prefix operators. *)
Fixpoint prefix_expression_loop (iter : nat) (ops : list token) : M (list token) :=
  match iter with
  | O => out_of_fuel
  | S iter' =>
      c <- curr ;;
      if is_prefix_operator (type c) then
        let ops' := ops ++ [c] in
        next 1 ;;
        prefix_expression_loop iter' ops'
      else ret ops
  end.

Definition prefix_expression : M (unique_ptr prefix_expression_node) :=
  ops <- prefix_expression_loop fuel [] ;;
  e <- postfix_expression ;;
  match e with
  | Some _ => ret (Some (mk_prefix_expression_node ops e))
  | None => ret None
  end.

(** *** Binary expressions *)

Section binary.
Context {Name : string} {Term : Type}.
Variable is_valid_op : token -> bool.
Variable term : M (unique_ptr Term).

Fixpoint binary_expression_loop (iter : nat) (n : binary_expression_node Name Term)
  : M (unique_ptr (binary_expression_node Name Term)) :=
  match iter with
  | O => out_of_fuel
  | S iter' =>
      c <- curr ;;
      if is_valid_op c then
        next 1 ;;
        e <- term ;;
        match e with
        | None =>
            p <- peek (-1) ;;
            t <- deref p ;;
            error_ ("invalid expression after " ++ to_string t) ;;
            ret (Some n)
        | Some _ =>
            binary_expression_loop iter'
              (mk_binary_expression_node (binary_expr n)
                 (binary_terms n ++ [mk_binary_term c e]))
        end
      else ret (Some n)
  end.

Definition binary_expression : M (unique_ptr (binary_expression_node Name Term)) :=
  e <- term ;;
  match e with
  | Some _ => binary_expression_loop fuel (mk_binary_expression_node e [])
  | None => ret None
  end.
End binary.

Definition is_as_expression : M (unique_ptr is_as_expression_node) :=
  binary_expression
    (fun t => eq_type t Keyword && (token_is t "is" || token_is t "as"))
    prefix_expression.

Definition multiplicative_expression : M (unique_ptr multiplicative_expression_node) :=
  binary_expression
    (fun t => eq_type t Multiply || eq_type t Slash || eq_type t Modulo)
    is_as_expression.

Definition additive_expression : M (unique_ptr additive_expression_node) :=
  binary_expression
    (fun t => eq_type t Plus || eq_type t Minus)
    multiplicative_expression.

Definition shift_expression : M (unique_ptr shift_expression_node) :=
  binary_expression
    (fun t => eq_type t LeftShift || eq_type t RightShift)
    additive_expression.

Definition compare_expression : M (unique_ptr compare_expression_node) :=
  binary_expression
    (fun t => eq_type t Spaceship)
    shift_expression.

Definition relational_expression : M (unique_ptr relational_expression_node) :=
  binary_expression
    (fun t => eq_type t Less || eq_type t LessEq || eq_type t Greater
              || eq_type t GreaterEq)
    compare_expression.

Definition equality_expression : M (unique_ptr equality_expression_node) :=
  binary_expression
    (fun t => eq_type t EqualComparison || eq_type t NotEqualComparison)
    relational_expression.

Definition logical_and_expression : M (unique_ptr logical_and_expression_node) :=
  binary_expression
    (fun t => eq_type t LogicalAnd)
    equality_expression.

Definition logical_or_expression : M (unique_ptr logical_or_expression_node) :=
  binary_expression
    (fun t => eq_type t LogicalOr)
    logical_and_expression.

Definition assignment_expression : M (unique_ptr assignment_expression_node) :=
  binary_expression
    (fun t => is_assignment_operator (type t))
    logical_or_expression.

Definition expression : M (unique_ptr expression_node) :=
  e <- assignment_expression ;;
  match e with
  | None => ret None
  | Some _ => ret (Some (mk_expression_node e))
  end.

(** [if (curr().type() == lexeme::Identifier && curr() == "out")]:
    the optional [out] marker of an expression-list entry. *)
Definition out_marker : M passing_style :=
  c <- curr ;;
  if eq_type c Identifier && token_is c "out" then
    next 1 ;;
    ret out
  else ret in_.

(** The [while] of expression-list over the comma-separated entries. *)
Fixpoint expression_list_loop (iter : nat) (n : expression_list_node)
  : M (unique_ptr expression_list_node) :=
  match iter with
  | O => out_of_fuel
  | S iter' =>
      c <- curr ;;
      if eq_type c Comma then
        next 1 ;;
        pass <- out_marker ;;
        x <- expression ;;
        expression_list_loop iter'
          (mk_expression_list_node
             (expressions n ++ [mk_expression_list_term pass x]))
      else ret (Some n)
  end.

Definition expression_list : M (unique_ptr expression_list_node) :=
  start_pos <- get_pos ;;
  pass <- out_marker ;;
  x <- expression ;;
  match x with
  | None =>
      put_pos start_pos ;;     (* backtrack *)
      ret None
  | Some _ =>
      expression_list_loop fuel
        (mk_expression_list_node [mk_expression_list_term pass x])
  end.

(** *** Names *)

Definition unqualified_id : M (unique_ptr unqualified_id_node) :=
  c <- curr ;;
  if negb (eq_type c Identifier) && negb (eq_type c Keyword) then ret None
  else
    next 1 ;;
    ret (Some (mk_unqualified_id_node c)).

(** The [while] of qualified-id over the [::]-joined names. *)
Fixpoint qualified_id_loop (iter : nat) (n : qualified_id_node)
  : M (unique_ptr qualified_id_node) :=
  match iter with
  | O => out_of_fuel
  | S iter' =>
      c <- curr ;;
      if eq_type c Scope then
        next 1 ;;
        id <- unqualified_id ;;
        match id with
        | None =>
            error_ "invalid text, :: should be followed by a nested name" ;;
            ret None
        | Some _ => qualified_id_loop iter' (mk_qualified_id_node (ids n ++ [id]))
        end
      else ret (Some n)
  end.

Definition qualified_id : M (unique_ptr qualified_id_node) :=
  start_pos <- get_pos ;;
  id <- unqualified_id ;;
  match id with
  | None =>
      put_pos start_pos ;;     (* backtrack *)
      ret None
  | Some _ =>
      c <- curr ;;
      if negb (eq_type c Scope) then
        put_pos start_pos ;;   (* backtrack *)
        ret None
      else
        qualified_id_loop fuel (mk_qualified_id_node [id])
  end.

Definition id_expression : M (unique_ptr id_expression_node) :=
  id <- qualified_id ;;
  match id with
  | Some _ => ret (Some (id_qualified id))
  | None =>
      id' <- unqualified_id ;;
      match id' with
      | Some _ => ret (Some (id_unqualified id'))
      | None => ret None
      end
  end.

(** *** Statements *)

Definition expression_statement (semicolon_required : bool)
  : M (unique_ptr expression_statement_node) :=
  e <- expression ;;
  match e with
  | None => ret None
  | Some _ =>
      c <- curr ;;
      if semicolon_required && negb (eq_type c Semicolon) then
        error_ "expression-statement does not end with semicolon" ;;
        ret None
      else
        (if eq_type c Semicolon then next 1 else ret tt) ;;
        ret (Some (mk_expression_statement_node e))
  end.

(** The [while] of compound-statement up to the closing brace. *)
Fixpoint compound_statement_loop (iter : nat) (n : compound_statement_node)
  : M (unique_ptr compound_statement_node) :=
  match iter with
  | O => out_of_fuel
  | S iter' =>
      c <- curr ;;
      if negb (eq_type c RightBrace) then
        s <- rec_statement self true ;;
        match s with
        | None =>
            error_ "invalid statement in compound-statement" ;;
            ret None
        | Some _ =>
            compound_statement_loop iter'
              (mk_compound_statement_node (compound_pos n) (statements n ++ [s]))
        end
      else
        next 1 ;;
        ret (Some n)
  end.

Definition compound_statement : M (unique_ptr compound_statement_node) :=
  c <- curr ;;
  if negb (eq_type c LeftBrace) then ret None
  else
    let n := mk_compound_statement_node (position c) [] in
    next 1 ;;
    compound_statement_loop fuel n.

Definition selection_statement : M (unique_ptr selection_statement_node) :=
  c <- curr ;;
  if negb (eq_type c Keyword) || negb (token_is c "if") then ret None
  else
    next 1 ;;
    c' <- curr ;;
    constexpr_ <- (if eq_type c' Keyword && token_is c' "constexpr"
                   then next 1 ;; ret true
                   else ret false) ;;
    e <- expression ;;
    match e with
    | None =>
        error_ "invalid if condition" ;;
        ret None
    | Some _ =>
        s <- compound_statement ;;
        match s with
        | None =>
            error_ "invalid if branch body" ;;
            ret None
        | Some _ =>
            c'' <- curr ;;
            if negb (eq_type c'' Keyword) || negb (token_is c'' "else") then
              (*  Add empty else branch to simplify processing elsewhere.
                  Position (0,0) signifies it's implicit (no source location) *)
              ret (Some (mk_selection_statement_node constexpr_ c e s
                           (Some (mk_compound_statement_node
                                    (mk_source_position 0 0) []))))
            else
              next 1 ;;
              s' <- compound_statement ;;
              match s' with
              | Some _ =>
                  ret (Some (mk_selection_statement_node constexpr_ c e s s'))
              | None =>
                  error_ "invalid else branch body" ;;
                  ret None
              end
        end
    end.

(** *** Declarations *)

Definition parameter_declaration : M (unique_ptr parameter_declaration_node) :=
  c <- curr ;;
  let pos_ := position c in
  pass <- (if eq_type c Identifier then
             if token_is c "in" then next 1 ;; ret in_
             else if token_is c "inout" then next 1 ;; ret inout
             else if token_is c "out" then next 1 ;; ret out
             else if token_is c "move" then next 1 ;; ret move
             else if token_is c "forward" then next 1 ;; ret forward
             else ret in_
           else ret in_) ;;
  c' <- curr ;;
  mod_ <- (if eq_type c' Identifier then
             if token_is c' "implicit" then next 1 ;; ret implicit
             else if token_is c' "virtual" then next 1 ;; ret virtual_
             else if token_is c' "override" then next 1 ;; ret override_
             else if token_is c' "final" then next 1 ;; ret final_
             else ret none
           else ret none) ;;
  d <- rec_declaration self false ;;
  match d with
  | None => ret None
  | Some _ => ret (Some (mk_parameter_declaration_node pos_ pass mod_ d))
  end.

(** The [while] of parameter-declaration-list.  The result is [None]
    when the loop body returned from the production ([return {}]), and
    the parameters collected so far when the loop was left. *)
Fixpoint parameter_declaration_list_loop
  (iter : nat) (params : list (unique_ptr parameter_declaration_node))
  : M (option (list (unique_ptr parameter_declaration_node))) :=
  match iter with
  | O => out_of_fuel
  | S iter' =>
      param <- parameter_declaration ;;
      match param with
      | None => ret (Some params)
      | Some _ =>
          let params' := params ++ [param] in
          c <- curr ;;
          if eq_type c RightParen then ret (Some params')      (* break *)
          else if negb (eq_type c Comma) then
            error_ "expected , in parameter list" ;;
            ret None
          else
            next 1 ;;
            parameter_declaration_list_loop iter' params'
      end
  end.

Definition parameter_declaration_list : M (unique_ptr parameter_declaration_list_node) :=
  c <- curr ;;
  if negb (eq_type c LeftParen) then ret None
  else
    let pos_open_paren := position c in
    next 1 ;;
    r <- parameter_declaration_list_loop fuel [] ;;
    match r with
    | None => ret None
    | Some params =>
        c' <- curr ;;
        if negb (eq_type c' RightParen) then
          error_ "invalid parameter list" ;;
          next 1 ;;
          ret None
        else
          let pos_close_paren := position c' in
          next 1 ;;
          ret (Some (mk_parameter_declaration_list_node
                       pos_open_paren pos_close_paren params))
    end.

Definition declaration (semicolon_required : bool) : M (unique_ptr declaration_node) :=
  d <- done ;;
  if d then ret None
  else
    start_pos <- get_pos ;;
    id <- unqualified_id ;;
    match id with
    | None => ret None
    | Some _ =>
        (*  The next token must be : *)
        c <- curr ;;
        if negb (eq_type c Colon) then
          put_pos start_pos ;;     (* backtrack *)
          ret None
        else
          next 1 ;;
          (*  Next is an an optional type *)
          t <- parameter_declaration_list ;;
          type_ <- match t with
                   | Some _ => ret (type_function t)
                   | None =>
                       t' <- id_expression ;;
                       match t' with
                       | Some _ => ret (type_object t')
                       | None => ret (type_object (Some id_empty))
                       end
                   end ;;
          c' <- curr ;;
          (*  If there is no = *)
          if negb (eq_type c' Assignment) then
            if eq_type c' Semicolon then
              next 1 ;;
              ret (Some (mk_declaration_node id type_ None))
            else if semicolon_required then
              error_ "missing semicolon at end of declaration" ;;
              ret None
            else ret (Some (mk_declaration_node id type_ None))
          else
            (*  There was an =, so eat it and continue *)
            next 1 ;;
            s <- rec_statement self semicolon_required ;;
            match s with
            | None =>
                error_ "ill-formed initializer" ;;
                next 1 ;;
                ret None
            | Some _ => ret (Some (mk_declaration_node id type_ s))
            end
    end.

(** [statement] tries selection, compound, declaration (with the default
    [semicolon_required = true]) and expression-statement, in that order. *)
Definition statement (semicolon_required : bool) : M (unique_ptr statement_node) :=
  s <- selection_statement ;;
  match s with
  | Some _ => ret (Some (statement_selection s))
  | None =>
      s <- compound_statement ;;
      match s with
      | Some _ => ret (Some (statement_compound s))
      | None =>
          s <- declaration true ;;
          match s with
          | Some _ => ret (Some (statement_declaration s))
          | None =>
              s <- expression_statement semicolon_required ;;
              match s with
              | Some _ => ret (Some (statement_expression s))
              | None => ret None
              end
          end
      end
  end.

(** The [for] of translation-unit over the declaration sequence. *)
Fixpoint translation_unit_loop (iter : nat) (n : translation_unit_node)
  : M (unique_ptr translation_unit_node) :=
  match iter with
  | O => out_of_fuel
  | S iter' =>
      d <- declaration true ;;
      match d with
      | Some _ =>
          translation_unit_loop iter'
            (mk_translation_unit_node (declarations n ++ [d]))
      | None => ret (Some n)
      end
  end.

Definition translation_unit : M (unique_ptr translation_unit_node) :=
  translation_unit_loop fuel (mk_translation_unit_node []).

End productions.
End Grammar.

(** Tying the recursion: with no fuel a recursive call gives up, with
    [S f] it runs the production whose loops and recursive calls have [f]. *)
Fixpoint knot (fuel : nat) : recursion :=
  match fuel with
  | O => mk_recursion out_of_fuel (fun _ => out_of_fuel) (fun _ => out_of_fuel)
  | S f =>
      mk_recursion
        (Grammar.expression_list f (knot f))
        (Grammar.statement f (knot f))
        (Grammar.declaration f (knot f))
  end.

Definition primary_expression (fuel : nat) := Grammar.primary_expression (knot fuel).
Definition postfix_expression (fuel : nat) := Grammar.postfix_expression fuel (knot fuel).
Definition prefix_expression (fuel : nat) := Grammar.prefix_expression fuel (knot fuel).
Definition is_as_expression (fuel : nat) := Grammar.is_as_expression fuel (knot fuel).
Definition multiplicative_expression (fuel : nat) :=
  Grammar.multiplicative_expression fuel (knot fuel).
Definition additive_expression (fuel : nat) := Grammar.additive_expression fuel (knot fuel).
Definition assignment_expression (fuel : nat) :=
  Grammar.assignment_expression fuel (knot fuel).
Definition expression (fuel : nat) := Grammar.expression fuel (knot fuel).
Definition expression_list (fuel : nat) := Grammar.expression_list fuel (knot fuel).
Definition unqualified_id := Grammar.unqualified_id.
Definition qualified_id (fuel : nat) := Grammar.qualified_id fuel.
Definition id_expression (fuel : nat) := Grammar.id_expression fuel.
Definition expression_statement (fuel : nat) :=
  Grammar.expression_statement fuel (knot fuel).
Definition compound_statement (fuel : nat) := Grammar.compound_statement fuel (knot fuel).
Definition selection_statement (fuel : nat) := Grammar.selection_statement fuel (knot fuel).
Definition parameter_declaration (fuel : nat) := Grammar.parameter_declaration (knot fuel).
Definition parameter_declaration_list (fuel : nat) :=
  Grammar.parameter_declaration_list fuel (knot fuel).
Definition declaration (fuel : nat) := Grammar.declaration fuel (knot fuel).
Definition statement (fuel : nat) := Grammar.statement fuel (knot fuel).
Definition translation_unit (fuel : nat) := Grammar.translation_unit fuel (knot fuel).

(** [parser::parse]: parse this section's tokens as if a standalone
    translation unit, then add the declarations to the stored tree. *)
Definition parse (fuel : nat) (tokens : list token) : M bool :=
  (fun st => Ok tt (set_pos 0 (set_tokens tokens st))) ;;
  tu <- translation_unit fuel ;;
  tu' <- deref tu ;;
  (fun st =>
     match parse_tree st with
     | Some t =>
         Ok tt (set_parse_tree
                  (Some (mk_translation_unit_node (declarations t ++ declarations tu')))
                  st)
     | None => Fault null_dereference
     end) ;;
  d <- done ;;
  if negb d then
    error_ "unexpected text at end of Cpp2 code section" ;;
    ret false
  else ret true.

(* ===================================================================== *)
(** ** The [visit] hooks *)
(* ===================================================================== *)

(** A visitor's [start] and [end] return nothing and cannot steer the
    traversal, so a traversal is the sequence of callbacks it makes; any
    visitor's behaviour is a fold over that sequence.  A callback names the
    overload chosen (the node kind, or the token) and the depth passed.
    A traversal that trips an [assert] is [None]. *)
Inductive node_kind : Type :=
| primary_expression_kind
| postfix_expression_kind
| prefix_expression_kind
| binary_expression_kind (Name : string)
| expression_kind
| expression_list_kind
| expression_statement_kind
| unqualified_id_kind
| qualified_id_kind
| id_expression_kind
| compound_statement_kind
| selection_statement_kind
| statement_kind
| declaration_kind
| parameter_declaration_kind
| parameter_declaration_list_kind
| translation_unit_kind.

Inductive callback : Type :=
| start_token (t : token) (depth : Z)
| start_ (k : node_kind) (depth : Z)
| end_ (k : node_kind) (depth : Z).

Definition traversal : Type := option (list callback).

Definition then_ (a b : traversal) : traversal :=
  match a with
  | Some x => match b with Some y => Some (x ++ y) | None => None end
  | None => None
  end.
Infix ">>" := then_ (at level 62, left associativity).

Definition call (c : callback) : traversal := Some [c].

Section visit_helpers.
Context {A : Type}.
Variable visit_ : A -> Z -> traversal.

(** [assert (p); p->visit(v, depth)] *)
Definition visit_ptr (p : unique_ptr A) (depth : Z) : traversal :=
  match p with
  | Some x => visit_ x depth
  | None => None
  end.

(** [template <int I> visit(v, depth)] of the variant-holding nodes,
    for the active alternative: [assert (s); s->visit(v, depth+1)] *)
Definition visit_alternative (s : unique_ptr A) (depth : Z) : traversal :=
  visit_ptr s (depth + 1).

(** [for (auto const& x : xs) { assert (x); x->visit(v, depth); }] *)
Fixpoint visit_each (xs : list (unique_ptr A)) (depth : Z) : traversal :=
  match xs with
  | [] => Some []
  | x :: xs' => visit_ptr x depth >> visit_each xs' depth
  end.
End visit_helpers.

(** Modelled from the spec: [token::visit] is declared in [lex.h]; for a
    token met as a child the visitor's [start] is invoked and no [end]. *)
Definition visit_token (t : token) (depth : Z) : traversal :=
  call (start_token t depth).

Section visit_binary.
Context {Name : string} {Term : Type}.
Variable visit_term : Term -> Z -> traversal.

(** [binary_expression_node::visit] *)
Definition visit_binary_expression
  (n : binary_expression_node Name Term) (depth : Z) : traversal :=
  match n with
  | mk_binary_expression_node expr terms =>
      call (start_ (binary_expression_kind Name) depth)
      >> match expr with
         | Some e => visit_term e (depth + 1)
         | None => None
         end
      >> (fix go (ts : list (binary_term Term)) : traversal :=
            match ts with
            | [] => Some []
            | x :: ts' =>
                call (start_token (term_op x) (depth + 1))
                >> match term_expr x with
                   | Some e => visit_term e (depth + 1)
                   | None => None
                   end
                >> go ts'
            end) terms
      >> call (end_ (binary_expression_kind Name) depth)
  end.
End visit_binary.

Fixpoint visit_primary_expression (n : primary_expression_node) (depth : Z)
  {struct n} : traversal :=
  call (start_ primary_expression_kind depth)
  >> match n with
     | primary_empty => Some []
     | primary_identifier s => visit_token s (depth + 1)
     | primary_expression_list s => visit_alternative visit_expression_list s depth
     end
  >> call (end_ primary_expression_kind depth)

with visit_postfix_expression (n : postfix_expression_node) (depth : Z)
  {struct n} : traversal :=
  match n with
  | mk_postfix_expression_node expr ops =>
      call (start_ postfix_expression_kind depth)
      >> visit_ptr visit_primary_expression expr (depth + 1)
      >> (fix go (ops : list (postfix_term expression_list_node)) : traversal :=
            match ops with
            | [] => Some []
            | x :: ops' =>
                call (start_token (postfix_op x) (depth + 1))
                >> match expr_list x with
                   | Some l => visit_expression_list l (depth + 1)
                   | None => Some []
                   end
                >> go ops'
            end) ops
      >> call (end_ postfix_expression_kind depth)
  end

with visit_prefix_expression (n : prefix_expression_node) (depth : Z)
  {struct n} : traversal :=
  match n with
  | mk_prefix_expression_node ops expr =>
      call (start_ prefix_expression_kind depth)
      >> Some (map (fun x => start_token x (depth + 1)) ops)
      >> visit_ptr visit_postfix_expression expr (depth + 1)
      >> call (end_ prefix_expression_kind depth)
  end

with visit_expression (n : expression_node) (depth : Z) {struct n} : traversal :=
  match n with
  | mk_expression_node expr =>
      call (start_ expression_kind depth)
      >> visit_ptr
           (visit_binary_expression (visit_binary_expression
             (visit_binary_expression (visit_binary_expression
               (visit_binary_expression (visit_binary_expression
                 (visit_binary_expression (visit_binary_expression
                   (visit_binary_expression (visit_binary_expression
                     visit_prefix_expression))))))))))
           expr (depth + 1)
      >> call (end_ expression_kind depth)
  end

with visit_expression_list (n : expression_list_node) (depth : Z)
  {struct n} : traversal :=
  match n with
  | mk_expression_list_node expressions =>
      call (start_ expression_list_kind depth)
      >> (fix go (xs : list (expression_list_term expression_node)) : traversal :=
            match xs with
            | [] => Some []
            | x :: xs' =>
                visit_ptr visit_expression (list_expr x) (depth + 1) >> go xs'
            end) expressions
      >> call (end_ expression_list_kind depth)
  end.

Definition visit_assignment_expression
  : assignment_expression_node -> Z -> traversal :=
  visit_binary_expression (visit_binary_expression
    (visit_binary_expression (visit_binary_expression
      (visit_binary_expression (visit_binary_expression
        (visit_binary_expression (visit_binary_expression
          (visit_binary_expression (visit_binary_expression
            visit_prefix_expression))))))))).

Definition visit_expression_statement (n : expression_statement_node) (depth : Z)
  : traversal :=
  call (start_ expression_statement_kind depth)
  >> visit_ptr visit_expression (statement_expr n) (depth + 1)
  >> call (end_ expression_statement_kind depth).

Definition visit_unqualified_id (n : unqualified_id_node) (depth : Z) : traversal :=
  call (start_ unqualified_id_kind depth)
  >> call (start_token (identifier n) (depth + 1))
  >> call (end_ unqualified_id_kind depth).

Definition visit_qualified_id (n : qualified_id_node) (depth : Z) : traversal :=
  call (start_ qualified_id_kind depth)
  >> visit_each visit_unqualified_id (ids n) (depth + 1)
  >> call (end_ qualified_id_kind depth).

Definition visit_id_expression (n : id_expression_node) (depth : Z) : traversal :=
  call (start_ id_expression_kind depth)
  >> match n with
     | id_empty => Some []
     | id_qualified s => visit_alternative visit_qualified_id s depth
     | id_unqualified s => visit_alternative visit_unqualified_id s depth
     end
  >> call (end_ id_expression_kind depth).

Fixpoint visit_compound_statement (n : compound_statement_node) (depth : Z)
  {struct n} : traversal :=
  match n with
  | mk_compound_statement_node _ statements =>
      call (start_ compound_statement_kind depth)
      >> visit_each visit_statement statements (depth + 1)
      >> call (end_ compound_statement_kind depth)
  end

with visit_selection_statement (n : selection_statement_node) (depth : Z)
  {struct n} : traversal :=
  match n with
  | mk_selection_statement_node _ identifier expression true_branch false_branch =>
      call (start_ selection_statement_kind depth)
      >> call (start_token identifier (depth + 1))
      >> visit_ptr visit_expression expression (depth + 1)
      >> visit_ptr visit_compound_statement true_branch (depth + 1)
      >> match false_branch with
         | Some f => visit_compound_statement f (depth + 1)
         | None => Some []
         end
      >> call (end_ selection_statement_kind depth)
  end

with visit_statement (n : statement_node) (depth : Z) {struct n} : traversal :=
  call (start_ statement_kind depth)
  >> match n with
     | statement_expression s => visit_alternative visit_expression_statement s depth
     | statement_compound s => visit_alternative visit_compound_statement s depth
     | statement_selection s => visit_alternative visit_selection_statement s depth
     | statement_declaration s => visit_alternative visit_declaration s depth
     end
  >> call (end_ statement_kind depth)

with visit_declaration (n : declaration_node) (depth : Z) {struct n} : traversal :=
  match n with
  | mk_declaration_node identifier type_ initializer =>
      call (start_ declaration_kind depth)
      >> visit_ptr visit_unqualified_id identifier (depth + 1)
      >> match type_ with
         | type_function s =>
             visit_alternative visit_parameter_declaration_list s (depth + 1)
         | type_object s =>
             visit_alternative visit_id_expression s (depth + 1)
         end
      >> match initializer with
         | Some i => visit_statement i (depth + 1)
         | None => Some []
         end
      >> call (end_ declaration_kind depth)
  end

with visit_parameter_declaration (n : parameter_declaration_node) (depth : Z)
  {struct n} : traversal :=
  match n with
  | mk_parameter_declaration_node _ _ _ declaration =>
      call (start_ parameter_declaration_kind depth)
      >> visit_ptr visit_declaration declaration (depth + 1)
      >> call (end_ parameter_declaration_kind depth)
  end

with visit_parameter_declaration_list (n : parameter_declaration_list_node) (depth : Z)
  {struct n} : traversal :=
  match n with
  | mk_parameter_declaration_list_node _ _ parameters =>
      call (start_ parameter_declaration_list_kind depth)
      >> visit_each visit_parameter_declaration parameters (depth + 1)
      >> call (end_ parameter_declaration_list_kind depth)
  end.

Definition visit_translation_unit (n : translation_unit_node) (depth : Z) : traversal :=
  call (start_ translation_unit_kind depth)
  >> visit_each visit_declaration (declarations n) (depth + 1)
  >> call (end_ translation_unit_kind depth).

(** [parser::visit]: the traversal of the stored tree from depth 0. *)
Definition visit (st : parser) : traversal :=
  match parse_tree st with
  | Some t => visit_translation_unit t 0
  | None => None
  end.

(* ===================================================================== *)
(** ** The vocabulary of the specifications *)
(* ===================================================================== *)

(** [wp oof m st Q]: the run of [m] from [st] either faults or ends in a
    result and state satisfying [Q]; running out of fuel counts as [oof].
    With [oof := True] this is partial correctness for any fuel; with
    [oof := False] it also says that the fuel suffices. *)
Definition wp (oof : Prop) {A} (m : M A) (st : parser) (Q : A -> parser -> Prop) : Prop :=
  match m st with
  | Ok a st' => Q a st'
  | Fault _ => True
  | OutOfFuel => oof
  end.

(** The parser is inside a [parse] call on [toks]. *)
Definition valid (toks : list token) (st : parser) : Prop :=
  tokens_ st = Some toks /\ 0 <= pos st <= ssize toks.

(** [steady toks st st']: still inside the same [parse] call, the cursor
    has not moved back and no diagnostic was removed. *)
Definition steady (toks : list token) (st st' : parser) : Prop :=
  valid toks st' /\ pos st <= pos st'
  /\ (List.length (errors st) <= List.length (errors st'))%nat.

(** A production that returns a node has consumed a token. *)
Definition consumed {A} (r : option A) (st st' : parser) : Prop :=
  match r with
  | Some _ => pos st < pos st'
  | None => True
  end.

(** What every production guarantees. *)
Definition post (toks : list token) {A} (st : parser) (r : option A) (st' : parser) : Prop :=
  steady toks st st' /\ consumed r st st'.

(** [budget oof toks n st]: [n] exceeds the number of tokens left, unless
    fuel is no concern. *)
Definition budget (oof : Prop) (toks : list token) (n : nat) (st : parser) : Prop :=
  oof \/ ssize toks - pos st < Z.of_nat n.

(** The budget of a recursive call: it is only made after a token was
    consumed, so it needs one unit of fuel less than the tokens left. *)
Definition deeper (oof : Prop) (toks : list token) (fuel : nat) (st : parser) : Prop :=
  oof \/ ssize toks - pos st + 1 < Z.of_nat fuel.

(** [refines m m']: wherever [m] does not run out of fuel, [m'] does the
    same as [m]. *)
Definition refines {A} (m m' : M A) : Prop :=
  forall st, m st = OutOfFuel \/ m st = m' st.

(* ===================================================================== *)
(** ** Reading a tree *)
(* ===================================================================== *)

(** The test that [selection_statement] makes for its [else]. *)
Definition is_else (t : token) : bool := eq_type t Keyword && token_is t "else".

(** The outline of an expression over plain operands: a binary node
    without operator terms is transparent, one with terms is a group
    named by its level; anything else is [opaque]. *)
#[warnings="-register-all"]
Inductive outline : Type :=
| leaf (t : token)
| group (Name : string) (head : outline) (terms : list (token * outline))
| opaque.

Definition outline_prefix (n : prefix_expression_node) : outline :=
  match n with
  | mk_prefix_expression_node
      [] (Some (mk_postfix_expression_node (Some (primary_identifier t)) [])) => leaf t
  | _ => opaque
  end.

Definition outline_binary {Name Term} (outline_term : Term -> outline)
  (n : binary_expression_node Name Term) : outline :=
  match binary_expr n with
  | Some e =>
      match binary_terms n with
      | [] => outline_term e
      | ts =>
          group Name (outline_term e)
            (map (fun x => (term_op x,
                            match term_expr x with
                            | Some y => outline_term y
                            | None => opaque
                            end)) ts)
      end
  | None => opaque
  end.

Definition outline_assignment : assignment_expression_node -> outline :=
  outline_binary (outline_binary (outline_binary (outline_binary
    (outline_binary (outline_binary (outline_binary (outline_binary
      (outline_binary (outline_binary outline_prefix))))))))).

(** The expression of the initializer of the only declaration of a
    translation unit. *)
Definition initializer_expression (tu : translation_unit_node)
  : option assignment_expression_node :=
  match declarations tu with
  | [Some d] =>
      match initializer d with
      | Some (statement_expression (Some s)) =>
          match statement_expr s with
          | Some e => expression_expr e
          | None => None
          end
      | _ => None
      end
  | _ => None
  end.

(** The outline of that initializer after a [parse] that returned [true]
    and reported nothing. *)
Definition initializer_outline (o : outcome bool) : option outline :=
  match o with
  | Ok true st =>
      match errors st, parse_tree st with
      | [], Some tu => option_map outline_assignment (initializer_expression tu)
      | _, _ => None
      end
  | _ => None
  end.

(** The precedence ladder as the specification tabulates it, for the
    binary operators that are lexemes of their own: from assignment (0)
    up to multiplicative (8).  The parser does not use this table; the
    precedence theorem compares its trees with it. *)
Definition level_of (l : lexeme) : option nat :=
  match l with
  | Assignment | MultiplyEq | SlashEq | ModuloEq | PlusEq | MinusEq
  | RightShiftEq | LeftShiftEq => Some 0%nat
  | LogicalOr => Some 1%nat
  | LogicalAnd => Some 2%nat
  | EqualComparison | NotEqualComparison => Some 3%nat
  | Less | LessEq | Greater | GreaterEq => Some 4%nat
  | Spaceship => Some 5%nat
  | LeftShift | RightShift => Some 6%nat
  | Plus | Minus => Some 7%nat
  | Multiply | Slash | Modulo => Some 8%nat
  | _ => None
  end.

(** The [Name] of the binary node of each level. *)
Definition level_name (i : nat) : string :=
  nth i (["assignment"; "logical-or"; "logical-and"; "equality"; "relational";
          "compare"; "shift"; "additive"; "multiplicative"])%string EmptyString.

(** A binary node of one term. *)
Definition solo {Name Term} (e : Term) : binary_expression_node Name Term :=
  mk_binary_expression_node (Some e) [].

(** The prefix expression of a plain operand. *)
Definition operand (t : token) : prefix_expression_node :=
  mk_prefix_expression_node
    [] (Some (mk_postfix_expression_node (Some (primary_identifier t)) [])).

(* ===================================================================== *)
(** ** Sample inputs *)
(* ===================================================================== *)

(** A token on line 1 at the given column. *)
Definition tok (l : lexeme) (s : string) (col : Z) : token :=
  mk_token l s (mk_source_position 1 col).

(** A parser inside a [parse] call on [toks], cursor at [p]. *)
Definition parsing (toks : list token) (p : Z) : parser :=
  mk_parser [] (Some (mk_translation_unit_node [])) (Some toks) p.

(** The state a run ends in. *)
Definition final_state {A} (o : outcome A) : parser :=
  match o with
  | Ok _ st => st
  | _ => new_parser []
  end.

(** The node a run returns. *)
Definition selected {A} (dflt : A) (o : outcome (option A)) : A :=
  match o with
  | Ok (Some n) _ => n
  | _ => dflt
  end.

(** [x : int = <body> ;] *)
Definition declared (body : list token) : list token :=
  [tok Identifier "x" 1; tok Colon ":" 3; tok Keyword "int" 5;
   tok Assignment "=" 9] ++ body ++ [tok Semicolon ";" 99].

(** [x : int = a + ;] *)
Definition dangling_operator : list token :=
  [tok Identifier "x" 1; tok Colon ":" 3; tok Keyword "int" 5;
   tok Assignment "=" 9; tok Identifier "a" 11; tok Plus "+" 13;
   tok Semicolon ";" 15].

(** [) ; ;] *)
Definition stray_paren : list token :=
  [tok RightParen ")" 1; tok Semicolon ";" 3; tok Semicolon ";" 5].

(** [x : int = ( a , ) ;] *)
Definition trailing_comma : list token :=
  [tok Identifier "x" 1; tok Colon ":" 3; tok Keyword "int" 5;
   tok Assignment "=" 9; tok LeftParen "(" 11; tok Identifier "a" 12;
   tok Comma "," 14; tok RightParen ")" 16; tok Semicolon ";" 18].

(** [x : int ;] *)
Definition object_declaration : list token :=
  [tok Identifier "x" 1; tok Colon ":" 3; tok Keyword "int" 5;
   tok Semicolon ";" 9].

(** [std :: 42] *)
Definition scope_then_literal : list token :=
  [tok Identifier "std" 1; tok Scope "::" 5; tok DecimalLiteral "42" 8].

(** [x : int )] *)
Definition missing_semicolon : list token :=
  [tok Identifier "x" 1; tok Colon ":" 3; tok Keyword "int" 5;
   tok RightParen ")" 9].

(** [( ) ;] *)
Definition empty_parens : list token :=
  [tok LeftParen "(" 1; tok RightParen ")" 2; tok Semicolon ";" 4].

(** [a + b] *)
Definition sum_of_two : list token :=
  [tok Identifier "a" 1; tok Plus "+" 3; tok Identifier "b" 5].

(** [a + b * c] *)
Definition a_plus_b_times_c : list token :=
  [tok Identifier "a" 11; tok Plus "+" 13; tok Identifier "b" 15;
   tok Multiply "*" 17; tok Identifier "c" 19].

(** [a . b ;] *)
Definition member_access : list token :=
  [tok Identifier "a" 1; tok Dot "." 2; tok Identifier "b" 3;
   tok Semicolon ";" 4].

(** [if a { } else { } ;] *)
Definition if_else : list token :=
  [tok Keyword "if" 1; tok Identifier "a" 4; tok LeftBrace "{" 6;
   tok RightBrace "}" 8; tok Keyword "else" 10; tok LeftBrace "{" 15;
   tok RightBrace "}" 17; tok Semicolon ";" 18].

(** [if a { } ;] *)
Definition if_alone : list token :=
  [tok Keyword "if" 1; tok Identifier "a" 4; tok LeftBrace "{" 6;
   tok RightBrace "}" 8; tok Semicolon ";" 9].

(** The state after [parse] on [) ; ;]. *)
Definition stray_paren_final : parser :=
  Eval vm_compute in final_state (parse 4 stray_paren (new_parser [])).

(** The state after [expression_list] on [( ) ;]. *)
Definition empty_parens_failed : parser :=
  Eval vm_compute in final_state (expression_list 3 (parsing empty_parens 0)).

(** The nodes that [selection_statement] returns on the two [if] samples. *)
Definition if_else_node : selection_statement_node :=
  Eval vm_compute in
    selected (mk_selection_statement_node false (tok Keyword "if" 1) None None None)
             (selection_statement 5 (parsing if_else 0)).

Definition if_alone_node : selection_statement_node :=
  Eval vm_compute in
    selected (mk_selection_statement_node false (tok Keyword "if" 1) None None None)
             (selection_statement 5 (parsing if_alone 0)).

(* ===================================================================== *)
(** ** What a run reads and what it writes *)
(* ===================================================================== *)

(** Two parsers over the same tokens with the cursor at the same place;
    their error lists and stored trees may differ. *)
Definition same_input (st1 st2 : parser) : Prop :=
  tokens_ st1 = tokens_ st2 /\ pos st1 = pos st2.

(** From [st] to [st'] the diagnostics [l] were appended, and neither the
    token sequence nor the stored tree was touched. *)
Definition appended (st st' : parser) (l : list error) : Prop :=
  tokens_ st' = tokens_ st /\ parse_tree st' = parse_tree st
  /\ errors st' = errors st ++ l.

(** [oblivious m]: [m] reads nothing but the tokens and the cursor.  From
    two parsers with the same input it ends the same way: the same
    fault, or the same result at the same cursor after appending the same
    diagnostics to either error list. *)
Definition oblivious {A} (m : M A) : Prop :=
  forall st1 st2, same_input st1 st2 ->
    match m st1, m st2 with
    | Ok a1 s1, Ok a2 s2 =>
        a1 = a2 /\ pos s1 = pos s2
        /\ exists l, appended st1 s1 l /\ appended st2 s2 l
    | Fault f1, Fault f2 => f1 = f2
    | OutOfFuel, OutOfFuel => True
    | _, _ => False
    end.

(* ===================================================================== *)
(** ** Faults and diagnostics *)
(* ===================================================================== *)

(** [clean m st Q]: the run of [m] from [st] ends in a result and state
    satisfying [Q], or runs out of fuel, or stops at the failed
    [assert (!done())] of [curr] and [error]; it stops in no other way. *)
Definition clean {A} (m : M A) (st : parser) (Q : A -> parser -> Prop) : Prop :=
  match m st with
  | Ok a st' => Q a st'
  | Fault f => f = assertion_failed "!done()"
  | OutOfFuel => True
  end.

(** A diagnostic located at a token of [toks] and naming it. *)
Definition at_token (toks : list token) (e : error) : Prop :=
  exists t, In t toks /\ where_ e = position t
            /\ exists m, msg e = (m ++ " at " ++ to_string t)%string.

(** The error list [es'] extends [es] by diagnostics at tokens of [toks]. *)
Definition reported (toks : list token) (es es' : list error) : Prop :=
  exists l, es' = es ++ l /\ Forall (at_token toks) l.

(** [kept toks st st']: still inside the same [parse] call, the cursor
    has not moved back, the stored tree is the same and the error list
    was only extended. *)
Definition kept (toks : list token) (st st' : parser) : Prop :=
  valid toks st' /\ pos st <= pos st' /\ parse_tree st' = parse_tree st
  /\ reported toks (errors st) (errors st').

(** The test that [unqualified_id] makes of its token. *)
Definition is_name (t : token) : bool := eq_type t Identifier || eq_type t Keyword.

(** A token sequence that cannot begin a declaration: its first token is
    no name, or its second token is no colon. *)
Definition no_declaration_ahead (toks : list token) : bool :=
  match toks with
  | [] => false
  | t :: rest =>
      negb (is_name t)
      || match rest with
         | [] => false
         | t' :: _ => negb (eq_type t' Colon)
         end
  end.

(* ===================================================================== *)
(** ** What a production returns *)
(* ===================================================================== *)

(** [yields m P]: whatever [m] returns, from any state, satisfies [P]. *)
Definition yields {A} (m : M A) (P : A -> Prop) : Prop :=
  forall st a st', m st = Ok a st' -> P a.

(** [grown xs ys P]: [ys] is [xs] followed by entries that satisfy [P]. *)
Definition grown {A} (xs ys : list A) (P : A -> Prop) : Prop :=
  exists l, ys = xs ++ l /\ Forall P l.

(** A pointer that is not null. *)
Definition present {A} (p : unique_ptr A) : Prop := p <> None.

(** An operator term of a binary node whose operator [valid] accepts and
    whose operand is there. *)
Definition sound_term {Term} (valid : token -> bool) (x : binary_term Term) : Prop :=
  valid (term_op x) = true /\ present (term_expr x).

(** The members of the parameter nodes. *)
Definition parameter_pass (n : parameter_declaration_node) :=
  let (_, p, _, _) := n in p.
Definition parameter_mod (n : parameter_declaration_node) :=
  let (_, _, m, _) := n in m.
Definition pos_open_paren (n : parameter_declaration_list_node) :=
  let (o, _, _) := n in o.
Definition pos_close_paren (n : parameter_declaration_list_node) :=
  let (_, c, _) := n in c.
Definition parameters (n : parameter_declaration_list_node) :=
  let (_, _, p) := n in p.

(* ===================================================================== *)
(** ** The [position] members *)
(* ===================================================================== *)

(** Every node type has a member [position()]; the binary template calls
    the one of its [Term].  A [position()] that trips an [assert] is
    [None]. *)
Class Positioned (A : Type) : Type := position_of : A -> option source_position.
#[global] Hint Mode Positioned ! : typeclass_instances.

(** [assert (p); return p->position();] *)
Definition position_ptr {A} (position_ : A -> option source_position)
  (p : unique_ptr A) : option source_position :=
  match p with
  | Some x => position_ x
  | None => None
  end.

(** [binary_expression_node::position] *)
Definition position_binary_expression {Name Term}
  (position_term : Term -> option source_position)
  (n : binary_expression_node Name Term) : option source_position :=
  match n with
  | mk_binary_expression_node expr _ =>
      match expr with
      | Some e => position_term e
      | None => None
      end
  end.

Fixpoint position_primary_expression (n : primary_expression_node)
  : option source_position :=
  match n with
  | primary_empty => Some (mk_source_position 0 0)
  | primary_identifier s => Some (position s)
  | primary_expression_list s =>
      match s with
      | Some l => position_expression_list l
      | None => None
      end
  end

with position_postfix_expression (n : postfix_expression_node)
  : option source_position :=
  match n with
  | mk_postfix_expression_node expr _ =>
      match expr with
      | Some e => position_primary_expression e
      | None => None
      end
  end

with position_prefix_expression (n : prefix_expression_node)
  : option source_position :=
  match n with
  | mk_prefix_expression_node ops expr =>
      match ops with
      | op :: _ => Some (position op)
      | [] =>
          match expr with
          | Some e => position_postfix_expression e
          | None => None
          end
      end
  end

with position_expression (n : expression_node) : option source_position :=
  match n with
  | mk_expression_node expr =>
      match expr with
      | Some e =>
          position_binary_expression (position_binary_expression
            (position_binary_expression (position_binary_expression
              (position_binary_expression (position_binary_expression
                (position_binary_expression (position_binary_expression
                  (position_binary_expression (position_binary_expression
                    position_prefix_expression))))))))) e
      | None => None
      end
  end

with position_expression_list (n : expression_list_node) : option source_position :=
  match n with
  | mk_expression_list_node expressions =>
      match expressions with
      | x :: _ =>
          match list_expr x with
          | Some e => position_expression e
          | None => None
          end
      | [] => None
      end
  end.

Definition position_expression_statement (n : expression_statement_node)
  : option source_position :=
  position_ptr position_expression (statement_expr n).

Definition position_unqualified_id (n : unqualified_id_node) : option source_position :=
  Some (position (identifier n)).

Definition position_qualified_id (n : qualified_id_node) : option source_position :=
  match ids n with
  | Some id :: _ => position_unqualified_id id
  | _ => None
  end.

Definition position_id_expression (n : id_expression_node) : option source_position :=
  match n with
  | id_empty => Some (mk_source_position 0 0)
  | id_qualified s => position_ptr position_qualified_id s
  | id_unqualified s => position_ptr position_unqualified_id s
  end.

Definition position_compound_statement (n : compound_statement_node)
  : option source_position :=
  Some (compound_pos n).

Definition position_selection_statement (n : selection_statement_node)
  : option source_position :=
  Some (position (selection_identifier n)).

Definition position_declaration (n : declaration_node) : option source_position :=
  position_ptr position_unqualified_id (declaration_identifier n).

Definition position_statement (n : statement_node) : option source_position :=
  match n with
  | statement_expression s => position_ptr position_expression_statement s
  | statement_compound s => position_ptr position_compound_statement s
  | statement_selection s => position_ptr position_selection_statement s
  | statement_declaration s => position_ptr position_declaration s
  end.

Definition position_parameter_declaration (n : parameter_declaration_node)
  : option source_position :=
  match n with
  | mk_parameter_declaration_node pos _ _ declaration =>
      match declaration with
      | Some _ => Some pos
      | None => None
      end
  end.

Definition position_parameter_declaration_list (n : parameter_declaration_list_node)
  : option source_position :=
  match n with
  | mk_parameter_declaration_list_node pos_open_paren _ parameters =>
      match parameters with
      | Some _ :: _ => Some pos_open_paren
      | _ => None
      end
  end.

#[export] Instance binary_expression_positioned {Name Term} `{Positioned Term}
  : Positioned (binary_expression_node Name Term) :=
  position_binary_expression position_of.
#[export] Instance primary_expression_positioned : Positioned primary_expression_node :=
  position_primary_expression.
#[export] Instance postfix_expression_positioned : Positioned postfix_expression_node :=
  position_postfix_expression.
#[export] Instance prefix_expression_positioned : Positioned prefix_expression_node :=
  position_prefix_expression.
#[export] Instance expression_positioned : Positioned expression_node :=
  position_expression.
#[export] Instance expression_list_positioned : Positioned expression_list_node :=
  position_expression_list.
#[export] Instance expression_statement_positioned
  : Positioned expression_statement_node := position_expression_statement.
#[export] Instance unqualified_id_positioned : Positioned unqualified_id_node :=
  position_unqualified_id.
#[export] Instance qualified_id_positioned : Positioned qualified_id_node :=
  position_qualified_id.
#[export] Instance id_expression_positioned : Positioned id_expression_node :=
  position_id_expression.
#[export] Instance compound_statement_positioned : Positioned compound_statement_node :=
  position_compound_statement.
#[export] Instance selection_statement_positioned : Positioned selection_statement_node :=
  position_selection_statement.
#[export] Instance declaration_positioned : Positioned declaration_node :=
  position_declaration.
#[export] Instance statement_positioned : Positioned statement_node :=
  position_statement.
#[export] Instance parameter_declaration_positioned
  : Positioned parameter_declaration_node := position_parameter_declaration.
#[export] Instance parameter_declaration_list_positioned
  : Positioned parameter_declaration_list_node := position_parameter_declaration_list.

(** The lead tokens after which the position of an expression is not the
    position of its first token: an opening parenthesis, and in an
    expression list also the [out] marker. *)
Definition opens (t : token) : bool := eq_type t LeftParen.
Definition opens_or_marks (t : token) : bool :=
  eq_type t LeftParen || (eq_type t Identifier && token_is t "out").

(** [located exc toks st r st']: the [position()] of the node returned
    trips no [assert] and is the position of one of the tokens consumed
    between [st] and [st']: of the first of them, unless that one is
    among [exc]. *)
Definition located {A} `{Positioned A} (exc : token -> bool) (toks : list token)
  (st : parser) (r : option A) (st' : parser) : Prop :=
  forall n, r = Some n ->
    exists i t,
      pos st <= i < pos st' /\ subscript toks i = Some t
      /\ position_of n = Some (position t)
      /\ (forall t0, subscript toks (pos st) = Some t0 -> exc t0 = false -> i = pos st).

Definition sited {A} `{Positioned A} (exc : token -> bool) (toks : list token)
  (st : parser) (r : option A) (st' : parser) : Prop :=
  post toks st r st' /\ located exc toks st r st'.

(** [std :: vector ;] *)
Definition scoped_name : list token :=
  [tok Identifier "std" 1; tok Scope "::" 4; tok Identifier "vector" 6;
   tok Semicolon ";" 12].

(** [a + b - c ;] *)
Definition sum_and_difference : list token :=
  [tok Identifier "a" 1; tok Plus "+" 3; tok Identifier "b" 5;
   tok Minus "-" 7; tok Identifier "c" 9; tok Semicolon ";" 10].

(* ===================================================================== *)
(** ** The nesting of a traversal *)
(* ===================================================================== *)

Definition node_kind_eq_dec (a b : node_kind) : {a = b} + {a <> b}.
Proof. decide equality. apply string_dec. Defined.

Definition node_kind_eqb (a b : node_kind) : bool :=
  if node_kind_eq_dec a b then true else false.

Definition depth_of (c : callback) : Z :=
  match c with
  | start_token _ d | start_ _ d | end_ _ d => d
  end.

(** [below open d]: depth [d] lies deeper than the innermost open node. *)
Definition below (open : list (node_kind * Z)) (d : Z) : bool :=
  match open with
  | [] => true
  | (_, d') :: _ => d' <? d
  end.

(** A visitor that checks the bracketing of the callbacks it receives.
    It keeps the nodes started and not yet ended, innermost first: a
    [start] must lie deeper than the innermost open node, and an [end]
    must name the kind and the depth of the innermost open node, which
    it closes.  [None] is a violation. *)
Fixpoint nesting (tr : list callback) (open : list (node_kind * Z))
  : option (list (node_kind * Z)) :=
  match tr with
  | [] => Some open
  | start_token _ d :: tr' => if below open d then nesting tr' open else None
  | start_ k d :: tr' => if below open d then nesting tr' ((k, d) :: open) else None
  | end_ k d :: tr' =>
      match open with
      | (k', d') :: open' =>
          if node_kind_eqb k k' && (d =? d') then nesting tr' open' else None
      | [] => None
      end
  end.

(** [nested d tr]: anywhere deeper than the innermost open node, [tr]
    is a sequence of complete, properly nested nodes and tokens. *)
Definition nested (d : Z) (tr : list callback) : Prop :=
  forall open, below open d = true -> nesting tr open = Some open.

(** [closes k d tr]: [tr] is the rest of a node of kind [k] started at
    depth [d]: nested children, then its [end]. *)
Definition closes (k : node_kind) (d : Z) (tr : list callback) : Prop :=
  forall open, below open d = true -> nesting tr ((k, d) :: open) = Some open.

(** The traversals of at most [k] callbacks that [visit_] makes are
    nested. *)
Definition nested_upto {A} (k : nat) (visit_ : A -> Z -> traversal) : Prop :=
  forall n d tr, visit_ n d = Some tr -> (List.length tr <= k)%nat -> nested d tr.

(* ===================================================================== *)
(** ** Chains of operators *)
(* ===================================================================== *)

(** The term of a binary node for operator [op] and operand [e]. *)
Definition term_of {Term} (p : token * Term) : binary_term Term :=
  mk_binary_term (fst p) (Some (snd p)).

(** [reads is_valid_op term st l st']: from [st] the tokens are, for each
    pair of [l] in turn, an operator that [is_valid_op] accepts followed
    by what [term] reads as the operand of the pair, up to [st']. *)
Inductive reads {Term} (is_valid_op : token -> bool) (term : M (option Term))
  : parser -> list (token * Term) -> parser -> Prop :=
| reads_nil st : reads is_valid_op term st [] st
| reads_cons st c st1 e st2 l st' :
    curr st = Ok c st -> is_valid_op c = true ->
    next 1 st = Ok tt st1 -> term st1 = Ok (Some e) st2 ->
    reads is_valid_op term st2 l st' ->
    reads is_valid_op term st ((c, e) :: l) st'.

(** The test of the loop of [postfix_expression]. *)
Definition continues_postfix (t : token) : bool :=
  is_postfix_operator (type t) || eq_type t LeftBracket
  || eq_type t LeftParen || eq_type t Dot.

(** [adv k st]: the parser [k] tokens further. *)
Definition adv (k : Z) (st : parser) : parser := set_pos (pos st + k) st.

(** [layout toks p l stop]: from index [p] the tokens are the operators
    and operands of [l], pair after pair, and then [stop]. *)
Fixpoint layout (toks : list token) (p : Z) (l : list (token * token)) (stop : token)
  : Prop :=
  match l with
  | [] => subscript toks p = Some stop
  | (op, b) :: l' =>
      subscript toks p = Some op /\ subscript toks (p + 1) = Some b
      /\ layout toks (p + 2) l' stop
  end.

(** [reader term wrap inert]: at an identifier that is followed by a
    token that [inert] accepts, [term] consumes the identifier alone and
    returns it wrapped by [wrap]. *)
Definition reader {Term} (term : M (option Term)) (wrap : token -> Term)
  (inert : token -> bool) : Prop :=
  forall toks st b nx,
    tokens_ st = Some toks ->
    subscript toks (pos st) = Some b -> type b = Identifier ->
    subscript toks (pos st + 1) = Some nx -> inert nx = true ->
    term st = Ok (Some (wrap b)) (adv 1 st).

(** A token that continues no expression: no postfix operator or
    bracket, no [is] or [as], and no binary operator of the ladder. *)
Definition ends_expression (t : token) : bool :=
  negb (continues_postfix t)
  && negb (eq_type t Keyword && (token_is t "is" || token_is t "as"))
  && match level_of (type t) with
     | None => true
     | Some _ => false
     end.

(* ===================================================================== *)
(** ** Trees whose expression lists have no null entry *)
(* ===================================================================== *)

(** [filled] of a tree: every entry of every expression list in it has
    its expression.  Other null pointers do not count. *)
Definition filled_binary_expression {Name Term} (filled_term : Term -> bool)
  (n : binary_expression_node Name Term) : bool :=
  match n with
  | mk_binary_expression_node expr terms =>
      match expr with
      | Some e => filled_term e
      | None => true
      end
      && (fix go (ts : list (binary_term Term)) : bool :=
            match ts with
            | [] => true
            | x :: ts' =>
                match term_expr x with
                | Some e => filled_term e
                | None => true
                end
                && go ts'
            end) terms
  end.

Fixpoint filled_primary_expression (n : primary_expression_node) : bool :=
  match n with
  | primary_expression_list (Some l) => filled_expression_list l
  | _ => true
  end

with filled_postfix_expression (n : postfix_expression_node) : bool :=
  match n with
  | mk_postfix_expression_node expr ops =>
      match expr with
      | Some e => filled_primary_expression e
      | None => true
      end
      && (fix go (ops : list (postfix_term expression_list_node)) : bool :=
            match ops with
            | [] => true
            | x :: ops' =>
                match expr_list x with
                | Some l => filled_expression_list l
                | None => true
                end
                && go ops'
            end) ops
  end

with filled_prefix_expression (n : prefix_expression_node) : bool :=
  match n with
  | mk_prefix_expression_node _ expr =>
      match expr with
      | Some e => filled_postfix_expression e
      | None => true
      end
  end

with filled_expression (n : expression_node) : bool :=
  match n with
  | mk_expression_node expr =>
      match expr with
      | Some e =>
          filled_binary_expression (filled_binary_expression
            (filled_binary_expression (filled_binary_expression
              (filled_binary_expression (filled_binary_expression
                (filled_binary_expression (filled_binary_expression
                  (filled_binary_expression (filled_binary_expression
                    filled_prefix_expression))))))))) e
      | None => true
      end
  end

with filled_expression_list (n : expression_list_node) : bool :=
  match n with
  | mk_expression_list_node expressions =>
      (fix go (xs : list (expression_list_term expression_node)) : bool :=
         match xs with
         | [] => true
         | x :: xs' =>
             match list_expr x with
             | Some e => filled_expression e
             | None => false
             end
             && go xs'
         end) expressions
  end.

Definition filled_ptr {A} (filled_ : A -> bool) (p : unique_ptr A) : bool :=
  match p with
  | Some x => filled_ x
  | None => true
  end.

Definition filled_expression_statement (n : expression_statement_node) : bool :=
  filled_ptr filled_expression (statement_expr n).

Fixpoint filled_compound_statement (n : compound_statement_node) : bool :=
  match n with
  | mk_compound_statement_node _ statements =>
      (fix go (xs : list (unique_ptr statement_node)) : bool :=
         match xs with
         | [] => true
         | x :: xs' =>
             match x with
             | Some s => filled_statement s
             | None => true
             end
             && go xs'
         end) statements
  end

with filled_selection_statement (n : selection_statement_node) : bool :=
  match n with
  | mk_selection_statement_node _ _ expression true_branch false_branch =>
      filled_ptr filled_expression expression
      && match true_branch with
         | Some b => filled_compound_statement b
         | None => true
         end
      && match false_branch with
         | Some b => filled_compound_statement b
         | None => true
         end
  end

with filled_statement (n : statement_node) : bool :=
  match n with
  | statement_expression s => filled_ptr filled_expression_statement s
  | statement_compound (Some s) => filled_compound_statement s
  | statement_selection (Some s) => filled_selection_statement s
  | statement_declaration (Some s) => filled_declaration s
  | _ => true
  end

with filled_declaration (n : declaration_node) : bool :=
  match n with
  | mk_declaration_node _ type_ initializer =>
      match type_ with
      | type_function (Some l) => filled_parameter_declaration_list l
      | _ => true
      end
      && match initializer with
         | Some i => filled_statement i
         | None => true
         end
  end

with filled_parameter_declaration (n : parameter_declaration_node) : bool :=
  match n with
  | mk_parameter_declaration_node _ _ _ declaration =>
      match declaration with
      | Some d => filled_declaration d
      | None => true
      end
  end

with filled_parameter_declaration_list (n : parameter_declaration_list_node) : bool :=
  match n with
  | mk_parameter_declaration_list_node _ _ parameters =>
      (fix go (xs : list (unique_ptr parameter_declaration_node)) : bool :=
         match xs with
         | [] => true
         | x :: xs' =>
             match x with
             | Some p => filled_parameter_declaration p
             | None => true
             end
             && go xs'
         end) parameters
  end.

Definition filled_translation_unit (n : translation_unit_node) : bool :=
  forallb (filled_ptr filled_declaration) (declarations n).

(** A node type with its [visit] and its [filled]. *)
Class Visited (A : Type) : Type := {
  visit_of : A -> Z -> traversal;
  filled_of : A -> bool
}.
#[global] Hint Mode Visited ! : typeclass_instances.

#[export] Instance binary_expression_visited {Name Term} `{Visited Term}
  : Visited (binary_expression_node Name Term) :=
  {| visit_of := visit_binary_expression visit_of;
     filled_of := filled_binary_expression filled_of |}.
#[export] Instance primary_expression_visited : Visited primary_expression_node :=
  {| visit_of := visit_primary_expression; filled_of := filled_primary_expression |}.
#[export] Instance postfix_expression_visited : Visited postfix_expression_node :=
  {| visit_of := visit_postfix_expression; filled_of := filled_postfix_expression |}.
#[export] Instance prefix_expression_visited : Visited prefix_expression_node :=
  {| visit_of := visit_prefix_expression; filled_of := filled_prefix_expression |}.
#[export] Instance expression_visited : Visited expression_node :=
  {| visit_of := visit_expression; filled_of := filled_expression |}.
#[export] Instance expression_list_visited : Visited expression_list_node :=
  {| visit_of := visit_expression_list; filled_of := filled_expression_list |}.
#[export] Instance expression_statement_visited : Visited expression_statement_node :=
  {| visit_of := visit_expression_statement;
     filled_of := filled_expression_statement |}.
#[export] Instance unqualified_id_visited : Visited unqualified_id_node :=
  {| visit_of := visit_unqualified_id; filled_of := fun _ => true |}.
#[export] Instance qualified_id_visited : Visited qualified_id_node :=
  {| visit_of := visit_qualified_id; filled_of := fun _ => true |}.
#[export] Instance id_expression_visited : Visited id_expression_node :=
  {| visit_of := visit_id_expression; filled_of := fun _ => true |}.
#[export] Instance compound_statement_visited : Visited compound_statement_node :=
  {| visit_of := visit_compound_statement; filled_of := filled_compound_statement |}.
#[export] Instance selection_statement_visited : Visited selection_statement_node :=
  {| visit_of := visit_selection_statement;
     filled_of := filled_selection_statement |}.
#[export] Instance statement_visited : Visited statement_node :=
  {| visit_of := visit_statement; filled_of := filled_statement |}.
#[export] Instance declaration_visited : Visited declaration_node :=
  {| visit_of := visit_declaration; filled_of := filled_declaration |}.
#[export] Instance parameter_declaration_visited : Visited parameter_declaration_node :=
  {| visit_of := visit_parameter_declaration;
     filled_of := filled_parameter_declaration |}.
#[export] Instance parameter_declaration_list_visited
  : Visited parameter_declaration_list_node :=
  {| visit_of := visit_parameter_declaration_list;
     filled_of := filled_parameter_declaration_list |}.
#[export] Instance translation_unit_visited : Visited translation_unit_node :=
  {| visit_of := visit_translation_unit; filled_of := filled_translation_unit |}.

(** Whether a traversal ran to its end, tripping no [assert]. *)
Definition passes (tr : traversal) : bool :=
  match tr with
  | Some _ => true
  | None => false
  end.

(** [traversable n]: from any depth, the traversal of [n] trips an
    [assert] exactly when an expression list in [n] has a null entry. *)
Definition traversable {A} `{Visited A} (n : A) : Prop :=
  forall d, passes (visit_of n d) = filled_of n.

(** What the productions return is traversable. *)
Definition returns_traversable {A} `{Visited A} (r : option A) : Prop :=
  forall n, r = Some n -> traversable n.

(** An entry of a list of owned nodes that is there and traversable. *)
Definition entry_ok {A} `{Visited A} (x : unique_ptr A) : Prop :=
  exists y, x = Some y /\ traversable y.

(** The stored tree is there and each of its declarations is traversable. *)
Definition traversable_tree (st : parser) : Prop :=
  exists t, parse_tree st = Some t /\ Forall entry_ok (declarations t).

Section binary_parts.
Context {Name : string} {Term : Type} `{Visited Term}.

(** A term of a binary node with its operand, which is traversable. *)
Definition term_ok (x : binary_term Term) : Prop :=
  exists e, term_expr x = Some e /\ traversable e.

(** A binary node with its first operand, all of whose operands are
    traversable. *)
Definition binary_ok (n : binary_expression_node Name Term) : Prop :=
  (exists e, binary_expr n = Some e /\ traversable e)
  /\ Forall term_ok (binary_terms n).
End binary_parts.

(** A postfix node with its primary expression, whose parts are
    traversable. *)
Definition postfix_ok (n : postfix_expression_node) : Prop :=
  (exists p, postfix_expr n = Some p /\ traversable p)
  /\ Forall (fun x => returns_traversable (expr_list x)) (postfix_ops n).

(** The state after [parse] on [x : int ;]. *)
Definition object_declaration_final : parser :=
  Eval vm_compute in final_state (parse 8 object_declaration (new_parser [])).

(* ===================================================================== *)
(** ** The tokens a visitor is shown *)
(* ===================================================================== *)

(** The tokens passed to [start], in the order of the callbacks. *)
Fixpoint tokens_seen (tr : list callback) : list token :=
  match tr with
  | [] => []
  | start_token t _ :: tr' => t :: tokens_seen tr'
  | _ :: tr' => tokens_seen tr'
  end.

(** [ascending a b ix]: the indices [ix] increase strictly and lie in
    [a, b). *)
Fixpoint ascending (a b : Z) (ix : list Z) : Prop :=
  match ix with
  | [] => a <= b
  | i :: ix' => a <= i /\ ascending (i + 1) b ix'
  end.

(** [drawn toks a b l]: the tokens [l] are the tokens of [toks] at indices
    that increase strictly within [a, b). *)
Definition drawn (toks : list token) (a b : Z) (l : list token) : Prop :=
  exists ix, ascending a b ix /\ map (subscript toks) ix = map Some l.

(** A traversal that, if it trips no [assert], shows tokens drawn from
    [a, b). *)
Definition shows (toks : list token) (a b : Z) (tr : traversal) : Prop :=
  forall l, tr = Some l -> drawn toks a b (tokens_seen l).

(** The traversal of [n], from any depth, shows tokens drawn from [a, b). *)
Definition in_source_order {A} `{Visited A} (toks : list token) (a b : Z) (n : A)
  : Prop :=
  forall d, shows toks a b (visit_of n d).

(** What a production guarantees of the node it returns: its traversal
    shows tokens that the production consumed, in the order of the source. *)
Definition ordered {A} `{Visited A} (toks : list token)
  (st : parser) (r : option A) (st' : parser) : Prop :=
  post toks st r st'
  /\ forall n, r = Some n -> in_source_order toks (pos st) (pos st') n.

(** The traversals of the entries of a list, one after the other. *)
Fixpoint chain {A} (g : A -> traversal) (xs : list A) : traversal :=
  match xs with
  | [] => Some []
  | x :: xs' => g x >> chain g xs'
  end.

(** [x : int = ;] *)
Definition empty_initializer : list token :=
  [tok Identifier "x" 1; tok Colon ":" 3; tok Keyword "int" 5;
   tok Assignment "=" 9; tok Semicolon ";" 11].

(** [a ++ . b ;] *)
Definition increment_then_dot : list token :=
  [tok Identifier "a" 1; tok PlusPlus "++" 2; tok Dot "." 4;
   tok Identifier "b" 5; tok Semicolon ";" 6].

(** [chain_parsed fuel iter st n st1]: [postfix_expression], entered at
    [st], has parsed its primary expression and the postfix operators of
    the node [n] built so far, and is at the test of its loop in [st1]
    with [iter] iterations to go. *)
Definition chain_parsed (fuel iter : nat) (st : parser)
  (n : postfix_expression_node) (st1 : parser) : Prop :=
  exists prim s0,
    primary_expression fuel st = Ok (Some prim) s0
    /\ Grammar.postfix_expression_loop (knot fuel) fuel
         (mk_postfix_expression_node (Some prim) []) s0
       = Grammar.postfix_expression_loop (knot fuel) iter n st1.

(* ===================================================================== *)
(** ** Grouping by precedence *)
(* ===================================================================== *)

(** The precedence level of a binary operator token as the specification
    tabulates it: the ladder of [level_of] and, above multiplicative, the
    keywords [is] and [as] (9).  The parser does not use this table. *)
Definition rank (t : token) : option nat :=
  if eq_type t Keyword && (token_is t "is" || token_is t "as") then Some 9%nat
  else level_of (type t).

(** A binary operator of the ladder. *)
Definition ranked (t : token) : bool :=
  match rank t with
  | Some _ => true
  | None => false
  end.

(** An operator of level [i]. *)
Definition rank_is (i : nat) (t : token) : bool :=
  match rank t with
  | Some r => Nat.eqb r i
  | None => false
  end.

(** An operator of level [j] or of a level that binds tighter. *)
Definition above (j : nat) (t : token) : Prop :=
  match rank t with
  | Some r => (j <= r)%nat
  | None => False
  end.

(** A token that ends a chain of operators of the levels from [j] on: no
    operator, or one of a level that binds looser. *)
Definition stops (j : nat) (t : token) : Prop :=
  match rank t with
  | Some r => (r < j)%nat
  | None => True
  end.

Section grouping.
Variable P : Type.

(** [cut i l]: the operator sequence [l] cut at its operators of level
    [i]: the pairs before the first of them, and for each of them the
    operand after it with the pairs up to the next. *)
Fixpoint cut (i : nat) (l : list (token * P))
  : list (token * P) * list (token * (P * list (token * P))) :=
  match l with
  | [] => ([], [])
  | (op, b) :: l' =>
      let (pre, rest) := cut i l' in
      if rank_is i op then ([], (op, (b, pre)) :: rest)
      else ((op, b) :: pre, rest)
  end.

(** The operator sequence that was cut. *)
Definition uncut (rest : list (token * (P * list (token * P)))) : list (token * P) :=
  flat_map (fun x => (fst x, fst (snd x)) :: snd (snd x)) rest.

(** The node of level [i] for the operand [a] followed by the sequence
    [l]: its operators are the operators of level [i] of [l], and what
    lies between them is grouped by [below], one level further in. *)
Definition level_node {Name : string} {Term : Type} (i : nat)
  (below : P -> list (token * P) -> Term) (a : P) (l : list (token * P))
  : binary_expression_node Name Term :=
  mk_binary_expression_node
    (Some (below a (fst (cut i l))))
    (map (fun x => mk_binary_term (fst x) (Some (below (fst (snd x)) (snd (snd x)))))
       (snd (cut i l))).
End grouping.

(** The tree that groups an operator sequence by precedence: the
    operators of the lowest level at the top, and between them, level by
    level, the operators that bind tighter.  It is the specification of
    the grouping; the parser does not use it. *)
Definition grouped (a : prefix_expression_node)
  (l : list (token * prefix_expression_node)) : assignment_expression_node :=
  level_node 0 (level_node 1 (level_node 2 (level_node 3 (level_node 4
    (level_node 5 (level_node 6 (level_node 7 (level_node 8
      (level_node 9 (fun a _ => a)))))))))) a l.

(** [chain_from operand j st a l st' stop]: from [st] the tokens are what
    [operand] reads as [a], then for each pair of [l] an operator of level
    [j] or tighter and what [operand] reads as its operand, up to [st'],
    where the token [stop] ends the chain. *)
Definition chain_from {P} (operand : M (option P)) (j : nat)
  (st : parser) (a : P) (l : list (token * P)) (st' : parser) (stop : token) : Prop :=
  exists st1,
    operand st = Ok (Some a) st1
    /\ reads ranked operand st1 l st'
    /\ Forall (fun p => above j (fst p)) l
    /\ curr st' = Ok stop st' /\ stops j stop.

(** [a is b * c ;] *)
Definition is_then_times : list token :=
  [tok Identifier "a" 1; tok Keyword "is" 3; tok Identifier "b" 6;
   tok Multiply "*" 8; tok Identifier "c" 10; tok Semicolon ";" 11].

(* ===================================================================== *)
(** * Reasoning about runs *)
(* ===================================================================== *)

(** ** A weakest-precondition calculus for the monad *)
Section wp.
Variable oof : Prop.

Lemma wp_ret {A} (a : A) st (Q : A -> parser -> Prop) :
  Q a st -> wp oof (ret a) st Q.
Proof. exact (fun H => H). Qed.

Lemma wp_bind {A B} (m : M A) (k : A -> M B) st (Q : B -> parser -> Prop) :
  wp oof m st (fun a st' => wp oof (k a) st' Q) -> wp oof (bind m k) st Q.
Proof. unfold wp, bind. destruct (m st); auto. Qed.

Lemma wp_mono {A} (m : M A) st (Q Q' : A -> parser -> Prop) :
  wp oof m st Q -> (forall a st', Q a st' -> Q' a st') -> wp oof m st Q'.
Proof. unfold wp. destruct (m st); auto. Qed.

Lemma wp_raise {A} f st (Q : A -> parser -> Prop) : wp oof (raise f) st Q.
Proof. exact I. Qed.

Lemma wp_out_of_fuel {A} st (Q : A -> parser -> Prop) :
  oof -> wp oof out_of_fuel st Q.
Proof. exact (fun H => H). Qed.

Lemma wp_get_pos st (Q : Z -> parser -> Prop) :
  Q (pos st) st -> wp oof get_pos st Q.
Proof. exact (fun H => H). Qed.

Lemma wp_put_pos p st (Q : unit -> parser -> Prop) :
  Q tt (set_pos p st) -> wp oof (put_pos p) st Q.
Proof. exact (fun H => H). Qed.

Lemma wp_deref {A} (p : unique_ptr A) st (Q : A -> parser -> Prop) :
  (forall a, p = Some a -> Q a st) -> wp oof (deref p) st Q.
Proof. destruct p; cbn; auto. Qed.

(** *** The cursor, over a fixed token sequence *)

Variable toks : list token.

Lemma subscript_Some (i : Z) :
  0 <= i < ssize toks -> exists t, subscript toks i = Some t.
Proof.
  intros H. unfold subscript, ssize in *.
  destruct (Z.ltb_spec i 0); [lia|].
  destruct (nth_error toks (Z.to_nat i)) eqn:E; eauto.
  apply nth_error_None in E. lia.
Qed.

Lemma wp_done st (Q : bool -> parser -> Prop) :
  valid toks st -> Q (pos st =? ssize toks) st -> wp oof done st Q.
Proof.
  intros [Ht Hp] HQ. unfold wp, done. rewrite Ht.
  destruct (Z.leb_spec (pos st) (ssize toks)); [exact HQ | lia].
Qed.

Lemma wp_curr st (Q : token -> parser -> Prop) :
  valid toks st ->
  (forall t, pos st < ssize toks -> subscript toks (pos st) = Some t -> Q t st) ->
  wp oof curr st Q.
Proof.
  intros [Ht Hp] HQ. unfold wp, curr, done. rewrite Ht.
  destruct (Z.leb_spec (pos st) (ssize toks)); [|lia].
  destruct (Z.eqb_spec (pos st) (ssize toks)); [exact I|].
  destruct (subscript toks (pos st)) eqn:E; [|exact I].
  apply HQ; [lia | reflexivity].
Qed.

Lemma wp_next st (Q : unit -> parser -> Prop) :
  valid toks st -> Q tt (set_pos (Z.min (pos st + 1) (ssize toks)) st) ->
  wp oof (next 1) st Q.
Proof. intros [Ht Hp] HQ. unfold wp, next. rewrite Ht. exact HQ. Qed.

Lemma wp_peek num st (Q : option token -> parser -> Prop) :
  valid toks st -> (forall r, Q r st) -> wp oof (peek num) st Q.
Proof.
  intros [Ht Hp] HQ. unfold wp, peek. rewrite Ht.
  destruct (pos st + num <? ssize toks); [|apply HQ].
  destruct (subscript toks (pos st + num)); [apply HQ | exact I].
Qed.

Lemma wp_error m st (Q : unit -> parser -> Prop) :
  valid toks st ->
  (forall e, pos st < ssize toks -> Q tt (emplace_back_error e st)) ->
  wp oof (error_ m) st Q.
Proof.
  intros Hv HQ. unfold error_.
  apply wp_bind, wp_done; [exact Hv|].
  destruct (Z.eqb_spec (pos st) (ssize toks)); [exact I|].
  apply wp_bind, wp_curr; [exact Hv|]. intros t Hlt _.
  unfold wp. apply HQ, Hlt.
Qed.

End wp.

Ltac break :=
  repeat match goal with
    | H : post _ _ _ _ |- _ => destruct H as [? ?]
    | H : steady _ _ _ |- _ => destruct H as (? & ? & ?)
    | H : valid _ _ |- _ => destruct H as [? ?]
    | H : consumed (Some _) _ _ |- _ => cbn [consumed] in H
    | H : consumed None _ _ |- _ => clear H
    | H : budget _ _ _ _ |- _ => unfold budget in H; destruct H
    | H : _ /\ _ |- _ => destruct H
    | H : _ \/ _ |- _ => destruct H
    end.

(** Closes the arithmetic and frame side conditions. *)
Ltac fin :=
  break;
  cbv beta in *;
  unfold post, steady, valid, budget;
  cbn [consumed];
  try match goal with
    | |- context [consumed ?r _ _] => is_var r; destruct r; cbn [consumed]
    end;
  cbn [pos errors tokens_ parse_tree set_pos emplace_back_error set_tokens] in *;
  rewrite ?length_app in *; cbn [List.length] in *;
  repeat split;
  first [ eassumption | lia | congruence | (left; assumption) | (left; exact I)
        | (right; lia) | exact I ].

(** One step of the calculus on the head of the computation, inside a
    [parse] call on [toks].  [call] handles the productions already
    specified. *)
Ltac wp_prim toks call :=
  lazymatch goal with
  | |- wp _ (bind _ _) _ _ => apply wp_bind
  | |- wp _ (ret _) _ _ => apply wp_ret
  | |- wp _ (raise _) _ _ => apply wp_raise
  | |- wp _ get_pos _ _ => apply wp_get_pos
  | |- wp _ (put_pos _) _ _ => apply wp_put_pos
  | |- wp _ (deref _) _ _ => apply wp_deref; intros
  | |- wp _ done _ _ => apply (@wp_done _ toks); [solve [fin] |]
  | |- wp _ curr _ _ => apply (@wp_curr _ toks); [solve [fin] | intros]
  | |- wp _ (next 1) _ _ => apply (@wp_next _ toks); [solve [fin] |]
  | |- wp _ (peek _) _ _ => apply (@wp_peek _ toks); [solve [fin] | intros]
  | |- wp _ (error_ _) _ _ => apply (@wp_error _ toks); [solve [fin] | intros]
  | |- wp _ (if ?b then _ else _) _ _ => destruct b eqn:?
  | |- wp _ (match ?x with _ => _ end) _ _ => destruct x eqn:?
  | |- wp _ (let _ := _ in _) _ _ => cbv zeta
  | |- _ => call
  end.

Ltac side := unfold deeper in *; fin.

(** Step over a call with its specification [lem]. *)
Ltac use lem := eapply wp_mono; [eapply lem; side | cbv beta; intros].

Ltac step toks call := cbv beta; wp_prim toks call.

(** Run the calculus through a production body. *)
Ltac run toks call := repeat step toks call; try solve [side].

(** ** Every production keeps the cursor in range and terminates

    One level of the grammar, given that the recursive entry points do. *)
Section safety.
Variable oof : Prop.
Variable toks : list token.
Variable fuel : nat.
Variable self : recursion.

Hypothesis self_expression_list : forall st,
  valid toks st -> deeper oof toks fuel st ->
  wp oof (rec_expression_list self) st (post toks st).
Hypothesis self_statement : forall b st,
  valid toks st -> deeper oof toks fuel st ->
  wp oof (rec_statement self b) st (post toks st).
Hypothesis self_declaration : forall b st,
  valid toks st -> deeper oof toks fuel st ->
  wp oof (rec_declaration self b) st (post toks st).

Ltac call0 :=
  idtac;
  first [ use self_expression_list | use self_statement | use self_declaration ].

Lemma primary_expression_ok st :
  valid toks st -> budget oof toks fuel st ->
  wp oof (Grammar.primary_expression self) st (post toks st).
Proof. intros Hv Hb. unfold Grammar.primary_expression. run toks call0. Qed.

(** With no iteration left, the budget of a loop can only hold because
    fuel is no concern. *)
Lemma budget_0 st : valid toks st -> budget oof toks 0 st -> oof.
Proof. intros [_ Hp] [H|H]; [exact H | cbn in H; lia]. Qed.

Ltac loop_start IH :=
  let iter := fresh "iter" in
  intros iter; induction iter as [|iter IH]; intros;
  [ apply wp_out_of_fuel; eapply budget_0; eassumption | ].

Lemma postfix_expression_loop_ok : forall iter n st,
  valid toks st -> budget oof toks fuel st -> budget oof toks iter st ->
  wp oof (Grammar.postfix_expression_loop self iter n) st
     (fun _ st' => steady toks st st').
Proof.
  loop_start IH. cbn [Grammar.postfix_expression_loop].
  run toks ltac:(idtac; first [use IH | call0]).
Qed.

Ltac call1 := idtac; first [ use primary_expression_ok | use postfix_expression_loop_ok | call0 ].

Lemma postfix_expression_ok st :
  valid toks st -> budget oof toks fuel st ->
  wp oof (Grammar.postfix_expression fuel self) st (post toks st).
Proof. intros Hv Hb. unfold Grammar.postfix_expression. run toks call1. Qed.

Lemma prefix_expression_loop_ok : forall iter ops st,
  valid toks st -> budget oof toks iter st ->
  wp oof (Grammar.prefix_expression_loop iter ops) st
     (fun _ st' => steady toks st st').
Proof.
  loop_start IH. cbn [Grammar.prefix_expression_loop].
  run toks ltac:(idtac; use IH).
Qed.

Ltac call2 :=
  idtac; first [ use postfix_expression_ok | use prefix_expression_loop_ok | call1 ].

Lemma prefix_expression_ok st :
  valid toks st -> budget oof toks fuel st ->
  wp oof (Grammar.prefix_expression fuel self) st (post toks st).
Proof. intros Hv Hb. unfold Grammar.prefix_expression. run toks call2. Qed.

(** The binary template, for any operator predicate and any term
    production that meets the specification. *)
Section binary.
Context {Name : string} {Term : Type}.
Variable is_valid_op : token -> bool.
Variable term : M (option Term).
Hypothesis term_ok : forall st,
  valid toks st -> budget oof toks fuel st -> wp oof term st (post toks st).

Lemma binary_expression_loop_ok : forall iter (n : binary_expression_node Name Term) st,
  valid toks st -> budget oof toks fuel st -> budget oof toks iter st ->
  wp oof (Grammar.binary_expression_loop is_valid_op term iter n) st
     (fun _ st' => steady toks st st').
Proof.
  loop_start IH. cbn [Grammar.binary_expression_loop].
  run toks ltac:(idtac; first [use IH | use term_ok]).
Qed.

Lemma binary_expression_ok st :
  valid toks st -> budget oof toks fuel st ->
  wp oof (Grammar.binary_expression (Name:=Name) fuel is_valid_op term) st (post toks st).
Proof.
  intros Hv Hb. unfold Grammar.binary_expression.
  run toks ltac:(idtac; first [use binary_expression_loop_ok | use term_ok]).
Qed.
End binary.

Ltac layer lem :=
  intros; eapply binary_expression_ok; [ intros; apply lem; assumption | assumption | assumption ].

Lemma is_as_expression_ok st :
  valid toks st -> budget oof toks fuel st ->
  wp oof (Grammar.is_as_expression fuel self) st (post toks st).
Proof. layer prefix_expression_ok. Qed.

Lemma multiplicative_expression_ok st :
  valid toks st -> budget oof toks fuel st ->
  wp oof (Grammar.multiplicative_expression fuel self) st (post toks st).
Proof. layer is_as_expression_ok. Qed.

Lemma additive_expression_ok st :
  valid toks st -> budget oof toks fuel st ->
  wp oof (Grammar.additive_expression fuel self) st (post toks st).
Proof. layer multiplicative_expression_ok. Qed.

Lemma shift_expression_ok st :
  valid toks st -> budget oof toks fuel st ->
  wp oof (Grammar.shift_expression fuel self) st (post toks st).
Proof. layer additive_expression_ok. Qed.

Lemma compare_expression_ok st :
  valid toks st -> budget oof toks fuel st ->
  wp oof (Grammar.compare_expression fuel self) st (post toks st).
Proof. layer shift_expression_ok. Qed.

Lemma relational_expression_ok st :
  valid toks st -> budget oof toks fuel st ->
  wp oof (Grammar.relational_expression fuel self) st (post toks st).
Proof. layer compare_expression_ok. Qed.

Lemma equality_expression_ok st :
  valid toks st -> budget oof toks fuel st ->
  wp oof (Grammar.equality_expression fuel self) st (post toks st).
Proof. layer relational_expression_ok. Qed.

Lemma logical_and_expression_ok st :
  valid toks st -> budget oof toks fuel st ->
  wp oof (Grammar.logical_and_expression fuel self) st (post toks st).
Proof. layer equality_expression_ok. Qed.

Lemma logical_or_expression_ok st :
  valid toks st -> budget oof toks fuel st ->
  wp oof (Grammar.logical_or_expression fuel self) st (post toks st).
Proof. layer logical_and_expression_ok. Qed.

Lemma assignment_expression_ok st :
  valid toks st -> budget oof toks fuel st ->
  wp oof (Grammar.assignment_expression fuel self) st (post toks st).
Proof. layer logical_or_expression_ok. Qed.

Ltac call3 := idtac; first [ use assignment_expression_ok | call2 ].

Lemma expression_ok st :
  valid toks st -> budget oof toks fuel st ->
  wp oof (Grammar.expression fuel self) st (post toks st).
Proof. intros Hv Hb. unfold Grammar.expression. run toks call3. Qed.

Lemma out_marker_ok st :
  valid toks st ->
  wp oof Grammar.out_marker st (fun _ st' => steady toks st st').
Proof. intros Hv. unfold Grammar.out_marker. run toks call0. Qed.

Ltac call4 := idtac; first [ use expression_ok | use out_marker_ok | call3 ].

Lemma expression_list_loop_ok : forall iter n st,
  valid toks st -> budget oof toks fuel st -> budget oof toks iter st ->
  wp oof (Grammar.expression_list_loop fuel self iter n) st
     (fun _ st' => steady toks st st').
Proof.
  loop_start IH. cbn [Grammar.expression_list_loop].
  run toks ltac:(idtac; first [use IH | call4]).
Qed.

Ltac call5 := idtac; first [ use expression_list_loop_ok | call4 ].

Lemma expression_list_ok st :
  valid toks st -> budget oof toks fuel st ->
  wp oof (Grammar.expression_list fuel self) st (post toks st).
Proof. intros Hv Hb. unfold Grammar.expression_list. run toks call5. Qed.

Lemma unqualified_id_ok st :
  valid toks st ->
  wp oof Grammar.unqualified_id st (post toks st).
Proof. intros Hv. unfold Grammar.unqualified_id. run toks call0. Qed.

Ltac call6 := idtac; first [ use unqualified_id_ok | call5 ].

Lemma qualified_id_loop_ok : forall iter n st,
  valid toks st -> budget oof toks iter st ->
  wp oof (Grammar.qualified_id_loop iter n) st (fun _ st' => steady toks st st').
Proof.
  loop_start IH. cbn [Grammar.qualified_id_loop].
  run toks ltac:(idtac; first [use IH | call6]).
Qed.

Ltac call7 := idtac; first [ use qualified_id_loop_ok | call6 ].

Lemma qualified_id_ok st :
  valid toks st -> budget oof toks fuel st ->
  wp oof (Grammar.qualified_id fuel) st (post toks st).
Proof. intros Hv Hb. unfold Grammar.qualified_id. run toks call7. Qed.

Ltac call8 := idtac; first [ use qualified_id_ok | call7 ].

Lemma id_expression_ok st :
  valid toks st -> budget oof toks fuel st ->
  wp oof (Grammar.id_expression fuel) st (post toks st).
Proof. intros Hv Hb. unfold Grammar.id_expression. run toks call8. Qed.

Lemma expression_statement_ok b st :
  valid toks st -> budget oof toks fuel st ->
  wp oof (Grammar.expression_statement fuel self b) st (post toks st).
Proof. intros Hv Hb. unfold Grammar.expression_statement. run toks call8. Qed.

Lemma compound_statement_loop_ok : forall iter n st,
  valid toks st -> deeper oof toks fuel st -> budget oof toks iter st ->
  wp oof (Grammar.compound_statement_loop self iter n) st
     (fun _ st' => steady toks st st').
Proof.
  loop_start IH. cbn [Grammar.compound_statement_loop].
  run toks ltac:(idtac; first [use IH | call8]).
Qed.

Ltac call9 :=
  idtac; first [ use id_expression_ok | use expression_statement_ok
               | use compound_statement_loop_ok | call8 ].

Lemma compound_statement_ok st :
  valid toks st -> budget oof toks fuel st ->
  wp oof (Grammar.compound_statement fuel self) st (post toks st).
Proof. intros Hv Hb. unfold Grammar.compound_statement. run toks call9. Qed.

Ltac call10 := idtac; first [ use compound_statement_ok | call9 ].

Lemma selection_statement_ok st :
  valid toks st -> budget oof toks fuel st ->
  wp oof (Grammar.selection_statement fuel self) st (post toks st).
Proof. intros Hv Hb. unfold Grammar.selection_statement. run toks call10. Qed.

Lemma parameter_declaration_ok st :
  valid toks st -> deeper oof toks fuel st ->
  wp oof (Grammar.parameter_declaration self) st (post toks st).
Proof. intros Hv Hb. unfold Grammar.parameter_declaration. run toks call10. Qed.

Ltac call11 :=
  idtac; first [ use selection_statement_ok | use parameter_declaration_ok | call10 ].

Lemma parameter_declaration_list_loop_ok : forall iter params st,
  valid toks st -> deeper oof toks fuel st -> budget oof toks iter st ->
  wp oof (Grammar.parameter_declaration_list_loop self iter params) st
     (fun _ st' => steady toks st st').
Proof.
  loop_start IH. cbn [Grammar.parameter_declaration_list_loop].
  run toks ltac:(idtac; first [use IH | call11]).
Qed.

Ltac call12 := idtac; first [ use parameter_declaration_list_loop_ok | call11 ].

Lemma parameter_declaration_list_ok st :
  valid toks st -> budget oof toks fuel st ->
  wp oof (Grammar.parameter_declaration_list fuel self) st (post toks st).
Proof. intros Hv Hb. unfold Grammar.parameter_declaration_list. run toks call12. Qed.

Ltac call13 := idtac; first [ use parameter_declaration_list_ok | call12 ].

Lemma declaration_ok b st :
  valid toks st -> budget oof toks fuel st ->
  wp oof (Grammar.declaration fuel self b) st (post toks st).
Proof. intros Hv Hb. unfold Grammar.declaration. run toks call13. Qed.

Ltac call14 := idtac; first [ use declaration_ok | call13 ].

Lemma statement_ok b st :
  valid toks st -> budget oof toks fuel st ->
  wp oof (Grammar.statement fuel self b) st (post toks st).
Proof. intros Hv Hb. unfold Grammar.statement. run toks call14. Qed.

Lemma translation_unit_loop_ok : forall iter n st,
  valid toks st -> budget oof toks fuel st -> budget oof toks iter st ->
  wp oof (Grammar.translation_unit_loop fuel self iter n) st
     (fun r st' => steady toks st st' /\ r <> None).
Proof.
  loop_start IH. cbn [Grammar.translation_unit_loop].
  run toks ltac:(idtac; first [use IH | call14]).
Qed.

Lemma translation_unit_ok st :
  valid toks st -> budget oof toks fuel st ->
  wp oof (Grammar.translation_unit fuel self) st
     (fun r st' => steady toks st st' /\ r <> None).
Proof. intros. apply translation_unit_loop_ok; assumption. Qed.
End safety.

(** ** Tying the knot *)
Section closed.
Variable oof : Prop.
Variable toks : list token.

Lemma knot_ok (fuel : nat) :
  (forall st, valid toks st -> deeper oof toks fuel st ->
     wp oof (rec_expression_list (knot fuel)) st (post toks st))
  /\ (forall b st, valid toks st -> deeper oof toks fuel st ->
     wp oof (rec_statement (knot fuel) b) st (post toks st))
  /\ (forall b st, valid toks st -> deeper oof toks fuel st ->
     wp oof (rec_declaration (knot fuel) b) st (post toks st)).
Proof.
  induction fuel as [|f (IHe & IHs & IHd)].
  - repeat split; intros; apply wp_out_of_fuel;
      unfold deeper, valid in *; cbn in *; intuition lia.
  - assert (Hb : forall st, valid toks st -> deeper oof toks (S f) st ->
                            budget oof toks f st)
      by (unfold deeper, budget; intros st _ [H|H]; [left; exact H | right; lia]).
    repeat split; intros; cbn [knot rec_expression_list rec_statement rec_declaration].
    + apply expression_list_ok; auto.
    + apply statement_ok; auto.
    + apply declaration_ok; auto.
Qed.

Lemma translation_unit_closed fuel st :
  valid toks st -> budget oof toks fuel st ->
  wp oof (translation_unit fuel) st
     (fun r st' => steady toks st st' /\ r <> None).
Proof.
  intros Hv Hb. destruct (knot_ok fuel) as (He & Hs & Hd).
  unfold translation_unit.
  exact (@translation_unit_ok oof toks fuel (knot fuel) Hs Hd st Hv Hb).
Qed.

(** [parse] on [toks]: with fuel beyond the number of tokens the run
    does not stop for lack of fuel; it returns [true] exactly when the
    cursor is at the end, and then appends no diagnostic of its own,
    and otherwise appends one. *)
Lemma parse_wp fuel st0 :
  oof \/ (List.length toks < fuel)%nat ->
  wp oof (parse fuel toks) st0
     (fun b st' =>
        tokens_ st' = Some toks
        /\ (b = true <-> pos st' = ssize toks)
        /\ (List.length (errors st0) <= List.length (errors st'))%nat
        /\ (b = false -> (List.length (errors st0) < List.length (errors st'))%nat)).
Proof.
  intros Hf. unfold parse.
  apply wp_bind. unfold wp at 1.
  set (st1 := set_pos 0 (set_tokens toks st0)).
  assert (Hv : valid toks st1) by (split; [reflexivity | cbn; unfold ssize; lia]).
  assert (Hb : budget oof toks fuel st1)
    by (destruct Hf; [left; assumption | right; cbn; unfold ssize; lia]).
  apply wp_bind. eapply wp_mono; [apply translation_unit_closed; assumption|].
  cbv beta. intros tu st2 (Hs & _).
  apply wp_bind, wp_deref. intros tu' _.
  apply wp_bind. unfold wp at 1.
  destruct (parse_tree st2) as [t|]; [|exact I].
  set (st3 := set_parse_tree _ st2).
  assert (Hs3 : steady toks st1 st3) by (subst st3; fin).
  cbv beta. apply wp_bind, (@wp_done _ toks); [fin|].
  destruct (Z.eqb_spec (pos st3) (ssize toks)) as [E|E]; cbn [negb].
  - apply wp_ret. subst st1 st3. fin.
  - apply wp_bind, (@wp_error _ toks); [fin|]. intros e _. apply wp_ret.
    subst st1 st3. repeat split; try solve [fin]; try congruence.
Qed.
End closed.


(** ** From the calculus back to runs *)

Lemma wp_Ok {oof A} {m : M A} {st} {Q : A -> parser -> Prop} {a st'} :
  wp oof m st Q -> m st = Ok a st' -> Q a st'.
Proof. unfold wp. intros H E. rewrite E in H. exact H. Qed.

Lemma wp_fuel {A} {m : M A} {st} {Q : A -> parser -> Prop} :
  wp False m st Q -> m st <> OutOfFuel.
Proof. unfold wp. intros H E. rewrite E in H. exact H. Qed.

(** Under partial correctness a call can be stepped over while keeping
    the equation of its run. *)
Lemma wp_run {A} (m : M A) st (Q : A -> parser -> Prop) :
  (forall a st', m st = Ok a st' -> Q a st') -> wp True m st Q.
Proof. unfold wp. intros H. destruct (m st); auto. Qed.

Lemma curr_Ok toks st t :
  tokens_ st = Some toks -> subscript toks (pos st) = Some t ->
  curr st = Ok t st.
Proof.
  intros Ht Hs. unfold curr, done. rewrite Ht.
  assert (0 <= pos st < ssize toks).
  { unfold subscript, ssize in *. destruct (Z.ltb_spec (pos st) 0); [discriminate|].
    assert (Z.to_nat (pos st) < List.length toks)%nat
      by (apply nth_error_Some; congruence). lia. }
  destruct (Z.leb_spec (pos st) (ssize toks)); [|lia].
  destruct (Z.eqb_spec (pos st) (ssize toks)); [lia|].
  now rewrite Hs.
Qed.

(** ** The productions of a level, with the recursion tied *)
Section tied.
Variable oof : Prop.
Variable toks : list token.
Variable fuel : nat.

Ltac tie lem :=
  intros Hv Hb; destruct (knot_ok oof toks fuel) as (He & Hs & Hd);
  apply lem; first [ exact He | exact Hs | exact Hd | exact Hv | exact Hb ].

Lemma expression_tied st :
  valid toks st -> budget oof toks fuel st ->
  wp oof (Grammar.expression fuel (knot fuel)) st (post toks st).
Proof. tie expression_ok. Qed.

Lemma expression_list_loop_tied iter n st :
  valid toks st -> budget oof toks fuel st -> budget oof toks iter st ->
  wp oof (Grammar.expression_list_loop fuel (knot fuel) iter n) st
     (fun _ st' => steady toks st st').
Proof.
  intros Hv Hb Hi; destruct (knot_ok oof toks fuel) as (He & Hs & Hd).
  apply expression_list_loop_ok; assumption.
Qed.

Lemma compound_statement_tied st :
  valid toks st -> budget oof toks fuel st ->
  wp oof (Grammar.compound_statement fuel (knot fuel)) st (post toks st).
Proof. tie compound_statement_ok. Qed.

Lemma parameter_declaration_list_tied st :
  valid toks st -> budget oof toks fuel st ->
  wp oof (Grammar.parameter_declaration_list fuel (knot fuel)) st (post toks st).
Proof. tie parameter_declaration_list_ok. Qed.

Lemma rec_statement_tied b st :
  valid toks st -> deeper oof toks fuel st ->
  wp oof (rec_statement (knot fuel) b) st (post toks st).
Proof. intros. now apply knot_ok. Qed.

End tied.

(** A production that returns a node has consumed at least one token, and
    no production leaves the cursor before its entry position or past
    the end: this is what bounds every loop. *)
Lemma statement_consumes toks fuel b st r st' :
  valid toks st -> statement fuel b st = Ok r st' ->
  pos st <= pos st' <= ssize toks /\ (r <> None -> pos st < pos st').
Proof.
  intros Hv E. destruct (knot_ok True toks fuel) as (He & Hs & Hd).
  assert (H : wp True (statement fuel b) st (post toks st)).
  { unfold statement. apply statement_ok;
      [exact He | exact Hs | exact Hd | exact Hv | left; exact I]. }
  pose proof (wp_Ok H E) as [(Hv' & Hle & _) Hc]. destruct Hv' as [_ Hr].
  split; [lia|]. destruct r; [intros _; exact Hc | congruence].
Qed.

Ltac tied :=
  idtac;
  first [ use unqualified_id_ok | use out_marker_ok | use expression_tied
        | use qualified_id_ok | use id_expression_ok
        | use compound_statement_tied | use parameter_declaration_list_tied
        | use rec_statement_tied ].

(** ** More fuel changes nothing *)

Lemma refines_refl {A} (m : M A) : refines m m.
Proof. intros st. now right. Qed.

Lemma refines_out_of_fuel {A} (m : M A) : refines out_of_fuel m.
Proof. intros st. now left. Qed.

Lemma refines_bind {A B} (m m' : M A) (k k' : A -> M B) :
  refines m m' -> (forall a, refines (k a) (k' a)) ->
  refines (bind m k) (bind m' k').
Proof.
  intros Hm Hk st. unfold bind. destruct (Hm st) as [E|E].
  - rewrite E. now left.
  - rewrite <- E. destruct (m st); [apply Hk | now right | now right].
Qed.

(** The two sides of a goal have the same shape: descend through it. *)
Ltac mono_step call :=
  lazymatch goal with
  | |- refines ?m ?m => apply refines_refl
  | |- refines out_of_fuel _ => apply refines_out_of_fuel
  | |- refines (bind _ _) (bind _ _) => apply refines_bind; [| intro]
  | |- refines (if ?b then _ else _) (if ?b then _ else _) => destruct b
  | |- refines (match ?x with _ => _ end) (match ?x with _ => _ end) => destruct x
  | |- refines (let _ := _ in _) _ => cbv zeta
  | |- _ => call
  end.

Ltac mono call := repeat mono_step call.

Section more_fuel.
Variables fuel fuel' : nat.
Variables self self' : recursion.
Hypothesis fuel_le : (fuel <= fuel')%nat.
Hypothesis self_expression_list :
  refines (rec_expression_list self) (rec_expression_list self').
Hypothesis self_statement :
  forall b, refines (rec_statement self b) (rec_statement self' b).
Hypothesis self_declaration :
  forall b, refines (rec_declaration self b) (rec_declaration self' b).

Ltac rec_call :=
  idtac;
  first [ apply self_expression_list | apply self_statement | apply self_declaration ].

Ltac loop_mono IH :=
  let iter := fresh "iter" in
  let iter' := fresh "iter'" in
  intros iter; induction iter as [|iter IH]; intros iter' ? Hle;
  [ apply refines_out_of_fuel
  | destruct iter' as [|iter']; [lia | assert (iter <= iter')%nat by lia] ].

Lemma primary_expression_mono :
  refines (Grammar.primary_expression self) (Grammar.primary_expression self').
Proof. unfold Grammar.primary_expression. mono rec_call. Qed.

Lemma postfix_expression_loop_mono : forall iter iter' n,
  (iter <= iter')%nat ->
  refines (Grammar.postfix_expression_loop self iter n)
          (Grammar.postfix_expression_loop self' iter' n).
Proof.
  loop_mono IH. cbn [Grammar.postfix_expression_loop].
  mono ltac:(idtac; first [apply IH; assumption | rec_call]).
Qed.

Lemma postfix_expression_mono :
  refines (Grammar.postfix_expression fuel self) (Grammar.postfix_expression fuel' self').
Proof.
  unfold Grammar.postfix_expression.
  mono ltac:(idtac; first [ apply primary_expression_mono
                          | apply postfix_expression_loop_mono; assumption ]).
Qed.

Lemma prefix_expression_loop_mono : forall iter iter' ops,
  (iter <= iter')%nat ->
  refines (Grammar.prefix_expression_loop iter ops)
          (Grammar.prefix_expression_loop iter' ops).
Proof.
  loop_mono IH. cbn [Grammar.prefix_expression_loop].
  mono ltac:(idtac; apply IH; assumption).
Qed.

Lemma prefix_expression_mono :
  refines (Grammar.prefix_expression fuel self) (Grammar.prefix_expression fuel' self').
Proof.
  unfold Grammar.prefix_expression.
  mono ltac:(idtac; first [ apply postfix_expression_mono
                          | apply prefix_expression_loop_mono; assumption ]).
Qed.

Section binary.
Context {Name : string} {Term : Type}.
Variable is_valid_op : token -> bool.
Variables term term' : M (option Term).
Hypothesis term_mono : refines term term'.

Lemma binary_expression_loop_mono :
  forall iter iter' (n : binary_expression_node Name Term),
  (iter <= iter')%nat ->
  refines (Grammar.binary_expression_loop is_valid_op term iter n)
          (Grammar.binary_expression_loop is_valid_op term' iter' n).
Proof.
  loop_mono IH. cbn [Grammar.binary_expression_loop].
  mono ltac:(idtac; first [apply IH; assumption | apply term_mono]).
Qed.

Lemma binary_expression_mono :
  refines (Grammar.binary_expression (Name:=Name) fuel is_valid_op term)
          (Grammar.binary_expression fuel' is_valid_op term').
Proof.
  unfold Grammar.binary_expression.
  mono ltac:(idtac; first [ apply term_mono
                          | apply binary_expression_loop_mono; assumption ]).
Qed.
End binary.

Lemma assignment_expression_mono :
  refines (Grammar.assignment_expression fuel self)
          (Grammar.assignment_expression fuel' self').
Proof.
  repeat apply binary_expression_mono. apply prefix_expression_mono.
Qed.

Lemma expression_mono :
  refines (Grammar.expression fuel self) (Grammar.expression fuel' self').
Proof.
  unfold Grammar.expression. mono ltac:(idtac; apply assignment_expression_mono).
Qed.

Lemma expression_list_loop_mono : forall iter iter' n,
  (iter <= iter')%nat ->
  refines (Grammar.expression_list_loop fuel self iter n)
          (Grammar.expression_list_loop fuel' self' iter' n).
Proof.
  loop_mono IH. cbn [Grammar.expression_list_loop].
  mono ltac:(idtac; first [apply IH; assumption | apply expression_mono]).
Qed.

Lemma expression_list_mono :
  refines (Grammar.expression_list fuel self) (Grammar.expression_list fuel' self').
Proof.
  unfold Grammar.expression_list.
  mono ltac:(idtac; first [ apply expression_mono
                          | apply expression_list_loop_mono; assumption ]).
Qed.

Lemma qualified_id_loop_mono : forall iter iter' n,
  (iter <= iter')%nat ->
  refines (Grammar.qualified_id_loop iter n) (Grammar.qualified_id_loop iter' n).
Proof.
  loop_mono IH. cbn [Grammar.qualified_id_loop].
  mono ltac:(idtac; apply IH; assumption).
Qed.

Lemma qualified_id_mono :
  refines (Grammar.qualified_id fuel) (Grammar.qualified_id fuel').
Proof.
  unfold Grammar.qualified_id.
  mono ltac:(idtac; apply qualified_id_loop_mono; assumption).
Qed.

Lemma id_expression_mono :
  refines (Grammar.id_expression fuel) (Grammar.id_expression fuel').
Proof.
  unfold Grammar.id_expression. mono ltac:(idtac; apply qualified_id_mono).
Qed.

Lemma expression_statement_mono b :
  refines (Grammar.expression_statement fuel self b)
          (Grammar.expression_statement fuel' self' b).
Proof.
  unfold Grammar.expression_statement. mono ltac:(idtac; apply expression_mono).
Qed.

Lemma compound_statement_loop_mono : forall iter iter' n,
  (iter <= iter')%nat ->
  refines (Grammar.compound_statement_loop self iter n)
          (Grammar.compound_statement_loop self' iter' n).
Proof.
  loop_mono IH. cbn [Grammar.compound_statement_loop].
  mono ltac:(idtac; first [apply IH; assumption | rec_call]).
Qed.

Lemma compound_statement_mono :
  refines (Grammar.compound_statement fuel self) (Grammar.compound_statement fuel' self').
Proof.
  unfold Grammar.compound_statement.
  mono ltac:(idtac; apply compound_statement_loop_mono; assumption).
Qed.

Lemma selection_statement_mono :
  refines (Grammar.selection_statement fuel self)
          (Grammar.selection_statement fuel' self').
Proof.
  unfold Grammar.selection_statement.
  mono ltac:(idtac; first [apply expression_mono | apply compound_statement_mono]).
Qed.

Lemma parameter_declaration_mono :
  refines (Grammar.parameter_declaration self) (Grammar.parameter_declaration self').
Proof. unfold Grammar.parameter_declaration. mono rec_call. Qed.

Lemma parameter_declaration_list_loop_mono : forall iter iter' params,
  (iter <= iter')%nat ->
  refines (Grammar.parameter_declaration_list_loop self iter params)
          (Grammar.parameter_declaration_list_loop self' iter' params).
Proof.
  loop_mono IH. cbn [Grammar.parameter_declaration_list_loop].
  mono ltac:(idtac; first [apply IH; assumption | apply parameter_declaration_mono]).
Qed.

Lemma parameter_declaration_list_mono :
  refines (Grammar.parameter_declaration_list fuel self)
          (Grammar.parameter_declaration_list fuel' self').
Proof.
  unfold Grammar.parameter_declaration_list.
  mono ltac:(idtac; apply parameter_declaration_list_loop_mono; assumption).
Qed.

Lemma declaration_mono b :
  refines (Grammar.declaration fuel self b) (Grammar.declaration fuel' self' b).
Proof.
  unfold Grammar.declaration.
  mono ltac:(idtac; first [ apply parameter_declaration_list_mono
                          | apply id_expression_mono | rec_call ]).
Qed.

Lemma statement_mono b :
  refines (Grammar.statement fuel self b) (Grammar.statement fuel' self' b).
Proof.
  unfold Grammar.statement.
  mono ltac:(idtac; first [ apply selection_statement_mono
                          | apply compound_statement_mono
                          | apply declaration_mono
                          | apply expression_statement_mono ]).
Qed.

Lemma translation_unit_loop_mono : forall iter iter' n,
  (iter <= iter')%nat ->
  refines (Grammar.translation_unit_loop fuel self iter n)
          (Grammar.translation_unit_loop fuel' self' iter' n).
Proof.
  loop_mono IH. cbn [Grammar.translation_unit_loop].
  mono ltac:(idtac; first [apply IH; assumption | apply declaration_mono]).
Qed.

End more_fuel.

Lemma knot_mono : forall fuel fuel', (fuel <= fuel')%nat ->
  refines (rec_expression_list (knot fuel)) (rec_expression_list (knot fuel'))
  /\ (forall b, refines (rec_statement (knot fuel) b) (rec_statement (knot fuel') b))
  /\ (forall b, refines (rec_declaration (knot fuel) b) (rec_declaration (knot fuel') b)).
Proof.
  induction fuel as [|f IH]; intros fuel' Hle.
  - repeat split; intros; apply refines_out_of_fuel.
  - destruct fuel' as [|f']; [lia|].
    destruct (IH f') as (He & Hs & Hd); [lia|].
    cbn [knot rec_expression_list rec_statement rec_declaration].
    repeat split; intros.
    + apply expression_list_mono; [lia | exact He].
    + apply statement_mono; [lia | exact He | exact Hs | exact Hd].
    + apply declaration_mono; [lia | exact Hs | exact Hd].
Qed.

Lemma parse_mono toks fuel fuel' :
  (fuel <= fuel')%nat -> refines (parse fuel toks) (parse fuel' toks).
Proof.
  intros Hle. destruct (knot_mono Hle) as (He & Hs & Hd).
  unfold parse, translation_unit, Grammar.translation_unit.
  mono ltac:(idtac; apply translation_unit_loop_mono; assumption).
Qed.

(** With fuel beyond the number of tokens, the outcome of [parse] does
    not depend on the fuel. *)
Lemma parse_fuel_irrelevant toks fuel fuel' st :
  (List.length toks < fuel)%nat -> (List.length toks < fuel')%nat ->
  parse fuel toks st = parse fuel' toks st.
Proof.
  intros H H'.
  pose proof (wp_fuel (@parse_wp False toks fuel st (or_intror H))) as N.
  pose proof (wp_fuel (@parse_wp False toks fuel' st (or_intror H'))) as N'.
  destruct (Nat.le_ge_cases fuel fuel') as [L|L].
  - destruct (parse_mono toks L st) as [E|E]; [contradiction | exact E].
  - destruct (parse_mono toks L st) as [E|E]; [contradiction | now symmetry].
Qed.

(* ===================================================================== *)
(** * C1: what [parse] returns *)
(* ===================================================================== *)

(** C1 fails on the code.  [parse] on [x : int = a + ;] reports "invalid
    expression after +" and still returns [true]: the additive layer
    records the diagnostic and returns its partial node, the statement
    ends at the semicolon and the cursor reaches the end.  On
    [x : int = ;] the declaration fails outright with "ill-formed
    initializer", nothing is stored, and [parse] returns [true] all the
    same, because the failed declaration has skipped the semicolon and
    [parse] only tests the cursor. *)
Lemma parse_true_after_diagnostic :
  (exists st',
     parse 8 dangling_operator (new_parser []) = Ok true st'
     /\ errors st' = [mk_error (mk_source_position 1 15)
                               "invalid expression after + at ;"]
     /\ option_map (fun t => List.length (declarations t)) (parse_tree st') = Some 1%nat)
  /\ (exists st',
        parse 8 empty_initializer (new_parser []) = Ok true st'
        /\ errors st' = [mk_error (mk_source_position 1 11)
                                  "ill-formed initializer at ;"]
        /\ parse_tree st' = Some (mk_translation_unit_node [])).
Proof.
  split.
  - eexists. split; [vm_compute; reflexivity|].
    split; [vm_compute; reflexivity | vm_compute; reflexivity].
  - eexists. split; [vm_compute; reflexivity|].
    split; [vm_compute; reflexivity | vm_compute; reflexivity].
Qed.

(* ===================================================================== *)
(** * C2: the terms of an expression list *)
(* ===================================================================== *)

(** C2 fails on the code.  On [a , )] the production [expression_list]
    returns a node whose second term owns no expression: after a comma
    the result of [expression()] is pushed unchecked.  [parse] accepts
    [x : int = ( a , ) ;] without a diagnostic, and visiting the tree
    trips [assert(x.expr)] in [expression_list_node::visit]. *)
Theorem expression_list_null_term_after_comma :
  (exists n st',
      expression_list 3 (parsing [tok Identifier "a" 1; tok Comma "," 3;
                                  tok RightParen ")" 5] 0) = Ok (Some n) st'
      /\ map (fun t => match list_expr t with Some _ => true | None => false end)
             (expressions n) = [true; false])
  /\ (exists st',
      parse 10 trailing_comma (new_parser []) = Ok true st'
      /\ errors st' = []
      /\ visit st' = None).
Proof.
  split.
  - eexists. eexists. split; [vm_compute; reflexivity | vm_compute; reflexivity].
  - eexists. split; [vm_compute; reflexivity|].
    split; [vm_compute; reflexivity | vm_compute; reflexivity].
Qed.

(* ===================================================================== *)
(** * C3: the precondition of [curr] *)
(* ===================================================================== *)

(** C3 fails on the code.  On the one-token input [x], [declaration]
    lets [unqualified_id] consume the last token and then tests
    [curr().type() != lexeme::Colon] at the end of the input: the
    [assert (!done())] of [curr] fails. *)
Theorem parse_curr_at_end :
  forall fuel, parse (S fuel) [tok Identifier "x" 1] (new_parser [])
               = Fault (assertion_failed "!done()").
Proof. intros fuel. reflexivity. Qed.

(* ===================================================================== *)
(** * C4: [peek] *)
(* ===================================================================== *)

Lemma peek_in_range toks st k t :
  tokens_ st = Some toks -> subscript toks (pos st + k) = Some t ->
  pos st + k < ssize toks -> peek k st = Ok (Some t) st.
Proof.
  intros Ht Hs Hl. unfold peek. rewrite Ht.
  destruct (Z.ltb_spec (pos st + k) (ssize toks)); [|lia]. now rewrite Hs.
Qed.

Lemma peek_past_end toks st k :
  tokens_ st = Some toks -> ssize toks <= pos st + k -> peek k st = Ok None st.
Proof.
  intros Ht Hl. unfold peek. rewrite Ht.
  destruct (Z.ltb_spec (pos st + k) (ssize toks)); [lia|reflexivity].
Qed.

Lemma peek_before_begin toks st k :
  tokens_ st = Some toks -> pos st + k < 0 -> peek k st = Fault out_of_range.
Proof.
  intros Ht Hl. unfold peek. rewrite Ht.
  destruct (Z.ltb_spec (pos st + k) (ssize toks)); [|unfold ssize in *; lia].
  unfold subscript. destruct (Z.ltb_spec (pos st + k) 0); [reflexivity|lia].
Qed.




(* ===================================================================== *)
(** * C5: the depth passed to children *)
(* ===================================================================== *)

(** C5 fails on the code for the type child of a declaration.
    [declaration_node::visit] passes [depth+1] to its [visit<I>] helper,
    which adds one more: the type is visited at [depth + 2], while the
    name and the initializer are visited at [depth + 1]. *)
Theorem visit_declaration_type_depth :
  forall name type_ init depth,
    visit_declaration
      (mk_declaration_node (Some name) (type_object (Some type_)) init) depth
    = call (start_ declaration_kind depth)
      >> visit_unqualified_id name (depth + 1)
      >> visit_id_expression type_ (depth + 2)
      >> match init with
         | Some i => visit_statement i (depth + 1)
         | None => Some []
         end
      >> call (end_ declaration_kind depth).
Proof.
  intros. cbn [visit_declaration visit_ptr visit_alternative].
  replace (depth + 1 + 1) with (depth + 2) by lia. reflexivity.
Qed.

(** The traversal of [x : int ;] from depth 0: the [id-expression] of the
    type starts at depth 2, its unqualified-id at 3 and the token at 4. *)
Lemma visit_object_declaration :
  exists st',
    parse 5 object_declaration (new_parser []) = Ok true st'
    /\ visit st'
       = Some [start_ translation_unit_kind 0;
               start_ declaration_kind 1;
               start_ unqualified_id_kind 2;
               start_token (tok Identifier "x" 1) 3;
               end_ unqualified_id_kind 2;
               start_ id_expression_kind 3;
               start_ unqualified_id_kind 4;
               start_token (tok Keyword "int" 5) 5;
               end_ unqualified_id_kind 4;
               end_ id_expression_kind 3;
               end_ declaration_kind 1;
               end_ translation_unit_kind 0].
Proof. eexists. split; [vm_compute; reflexivity | vm_compute; reflexivity]. Qed.

(* ===================================================================== *)
(** * C6: the rewinding productions *)
(* ===================================================================== *)

(** [qualified_id] fails on [std :: 42] after consuming two tokens, and
    [declaration] fails on [x : int )] after consuming three: a failure
    past the lead reports a diagnostic and does not rewind. *)
Lemma failure_past_the_lead :
  (exists st', qualified_id 3 (parsing scope_then_literal 0) = Ok None st'
               /\ pos st' = 2)
  /\ (exists st', declaration 3 true (parsing missing_semicolon 0) = Ok None st'
                  /\ pos st' = 3).
Proof.
  split; eexists; (split; [vm_compute; reflexivity | reflexivity]).
Qed.

Section rewinding.
Variable toks : list token.
Variable fuel : nat.

Ltac finish :=
  intros; break; repeat split; intros; subst;
  repeat match goal with
    | H : ?x = ?x -> _ |- _ => specialize (H eq_refl)
    end;
  try discriminate; try solve [side].

Lemma unqualified_id_fails st :
  valid toks st ->
  wp True Grammar.unqualified_id st
     (fun r st' => post toks st r st' /\ (r = None -> st' = st)).
Proof. intros Hv. unfold Grammar.unqualified_id. run toks tied; finish. Qed.

Lemma expression_list_loop_returns : forall iter n st,
  valid toks st ->
  wp True (Grammar.expression_list_loop fuel (knot fuel) iter n) st
     (fun r _ => r <> None).
Proof.
  induction iter as [|iter IH]; intros; [exact I|].
  cbn [Grammar.expression_list_loop].
  run toks ltac:(idtac; first [use IH | tied]); finish.
Qed.

Lemma expression_list_rewinds st :
  valid toks st ->
  wp True (expression_list fuel) st
     (fun r st' => r = None -> pos st' = pos st).
Proof.
  intros Hv. unfold expression_list, Grammar.expression_list.
  run toks ltac:(idtac; first [use expression_list_loop_returns | tied]); finish.
Qed.

Lemma qualified_id_loop_fails : forall iter n st,
  valid toks st ->
  wp True (Grammar.qualified_id_loop iter n) st
     (fun r st' =>
        steady toks st st'
        /\ (r = None -> (List.length (errors st) < List.length (errors st'))%nat)).
Proof.
  induction iter as [|iter IH]; intros; [exact I|].
  cbn [Grammar.qualified_id_loop].
  run toks ltac:(idtac; first [use IH | tied]); finish.
Qed.

Lemma qualified_id_rewinds st :
  valid toks st ->
  wp True (qualified_id fuel) st
     (fun r st' =>
        r = None -> List.length (errors st') = List.length (errors st) ->
        pos st' = pos st).
Proof.
  intros Hv. unfold qualified_id, Grammar.qualified_id.
  run toks ltac:(idtac; first [use qualified_id_loop_fails | tied]); finish.
Qed.

Lemma declaration_rewinds b st :
  valid toks st ->
  wp True (declaration fuel b) st
     (fun r st' =>
        r = None -> List.length (errors st') = List.length (errors st) ->
        pos st' = pos st).
Proof.
  intros Hv. unfold declaration, Grammar.declaration.
  run toks ltac:(idtac; first [use unqualified_id_fails | tied]); finish.
Qed.

End rewinding.

(** C6, amended.  Inside a [parse] call, [expression_list] restores the
    cursor whenever it returns absent; [qualified_id] and [declaration]
    restore it whenever they return absent without having reported a
    diagnostic, which is the failure of their lead. *)
Theorem rewinds_on_lead_failure toks fuel st :
  valid toks st ->
  (forall st', expression_list fuel st = Ok None st' -> pos st' = pos st)
  /\ (forall st', qualified_id fuel st = Ok None st' ->
                  errors st' = errors st -> pos st' = pos st)
  /\ (forall b st', declaration fuel b st = Ok None st' ->
                    errors st' = errors st -> pos st' = pos st).
Proof.
  intros Hv. repeat split.
  - intros st' E. exact (wp_Ok (expression_list_rewinds fuel Hv) E eq_refl).
  - intros st' E He.
    apply (wp_Ok (qualified_id_rewinds fuel Hv) E eq_refl). now rewrite He.
  - intros b st' E He.
    apply (wp_Ok (declaration_rewinds fuel b Hv) E eq_refl). now rewrite He.
Qed.

Lemma rewinds_on_lead_failure_witness :
  valid empty_parens (parsing empty_parens 0)
  /\ (expression_list 3 (parsing empty_parens 0) = Ok None empty_parens_failed
      /\ pos empty_parens_failed = pos (parsing empty_parens 0))
  /\ (qualified_id 3 (parsing empty_parens 0) = Ok None (parsing empty_parens 0)
      /\ pos (parsing empty_parens 0) = pos (parsing empty_parens 0))
  /\ (declaration 3 true (parsing sum_of_two 0) = Ok None (parsing sum_of_two 0)
      /\ pos (parsing sum_of_two 0) = pos (parsing sum_of_two 0)).
Proof.
  assert (Hv : valid empty_parens (parsing empty_parens 0))
    by (split; [reflexivity | cbn; lia]).
  assert (Hv' : valid sum_of_two (parsing sum_of_two 0))
    by (split; [reflexivity | cbn; lia]).
  assert (E1 : expression_list 3 (parsing empty_parens 0) = Ok None empty_parens_failed)
    by (vm_compute; reflexivity).
  assert (E2 : qualified_id 3 (parsing empty_parens 0) = Ok None (parsing empty_parens 0))
    by (vm_compute; reflexivity).
  assert (E3 : declaration 3 true (parsing sum_of_two 0) = Ok None (parsing sum_of_two 0))
    by (vm_compute; reflexivity).
  split; [exact Hv|]. split; [|split].
  - split; [exact E1|].
    exact (proj1 (@rewinds_on_lead_failure empty_parens 3 _ Hv) _ E1).
  - split; [exact E2|].
    exact (proj1 (proj2 (@rewinds_on_lead_failure empty_parens 3 _ Hv)) _ E2 eq_refl).
  - split; [exact E3|].
    exact (proj2 (proj2 (@rewinds_on_lead_failure sum_of_two 3 _ Hv')) true _ E3 eq_refl).
Defined.

(* ===================================================================== *)
(** * C7: precedence *)
(* ===================================================================== *)

(** The tree of the initializer of [x : int = a + b * c ;]: seven
    one-term layers down to the additive node, whose head is [a] and
    whose one term is [+] with the multiplicative node of [b], [*], [c]. *)
Lemma parse_a_plus_b_times_c :
  exists st',
    parse 11 (declared a_plus_b_times_c) (new_parser []) = Ok true st'
    /\ errors st' = []
    /\ option_map initializer_expression (parse_tree st')
       = Some (Some
           (solo (solo (solo (solo (solo (solo (solo
              (mk_binary_expression_node (Name:="additive")
                 (Some (solo (solo (operand (tok Identifier "a" 11)))))
                 [mk_binary_term (tok Plus "+" 13)
                    (Some (mk_binary_expression_node (Name:="multiplicative")
                             (Some (solo (operand (tok Identifier "b" 15))))
                             [mk_binary_term (tok Multiply "*" 17)
                                (Some (solo (operand (tok Identifier "c" 19))))]))])
           )))))))).
Proof.
  eexists. split; [vm_compute; reflexivity|].
  split; [vm_compute; reflexivity | vm_compute; reflexivity].
Qed.

(** Two operators of different levels, through [parse]: for operands
    [a], [b], [c] that are identifiers and binary
    operators [op1] of a lower and [op2] of a higher precedence level,
    the initializer of [x : int = a op1 b op2 c ;], parsed with fuel for
    its ten tokens, is the group of
    [op1]'s level with head [a] and the one term [op1] with the group of
    [op2]'s level over [b], [op2], [c]; and in [a op2 b op1 c] the group
    of [op2]'s level over [a], [op2], [b] is the head of the group of
    [op1]'s level.  The operator of the higher level always ends up in
    the deeper group. *)
Theorem precedence_groups_deeper (a b c op1 op2 : token) (i j : nat) (fuel : nat) :
  type a = Identifier -> type b = Identifier -> type c = Identifier ->
  level_of (type op1) = Some i -> level_of (type op2) = Some j -> (i < j)%nat ->
  (10 < fuel)%nat ->
  initializer_outline (parse fuel (declared [a; op1; b; op2; c]) (new_parser []))
  = Some (group (level_name i) (leaf a)
            [(op1, group (level_name j) (leaf b) [(op2, leaf c)])])
  /\ initializer_outline (parse fuel (declared [a; op2; b; op1; c]) (new_parser []))
     = Some (group (level_name i)
               (group (level_name j) (leaf a) [(op2, leaf b)])
               [(op1, leaf c)]).
Proof.
  intros Ha Hb Hc H1 H2 Hlt Hfuel.
  rewrite (@parse_fuel_irrelevant (declared [a; op1; b; op2; c]) fuel 11)
    by (cbn; lia).
  rewrite (@parse_fuel_irrelevant (declared [a; op2; b; op1; c]) fuel 11)
    by (cbn; lia).
  clear Hfuel fuel. revert Ha Hb Hc H1 H2 Hlt.
  destruct a as [la sa pa], b as [lb sb pb], c as [lc sc pc],
           op1 as [l1 s1 p1], op2 as [l2 s2 p2].
  cbn [type]. intros -> -> -> H1 H2 Hlt.
  destruct l1; try discriminate H1; injection H1 as <-;
    destruct l2; try discriminate H2; injection H2 as <-;
    try (exfalso; lia);
    (split; vm_compute; reflexivity).
Qed.

Lemma precedence_groups_deeper_witness :
  type (tok Identifier "a" 11) = Identifier
  /\ type (tok Identifier "b" 15) = Identifier
  /\ type (tok Identifier "c" 19) = Identifier
  /\ level_of (type (tok Plus "+" 13)) = Some 7%nat
  /\ level_of (type (tok Multiply "*" 17)) = Some 8%nat
  /\ (7 < 8)%nat
  /\ (10 < 11)%nat
  /\ initializer_outline (parse 11 (declared a_plus_b_times_c) (new_parser []))
     = Some (group "additive" (leaf (tok Identifier "a" 11))
               [(tok Plus "+" 13,
                 group "multiplicative" (leaf (tok Identifier "b" 15))
                   [(tok Multiply "*" 17, leaf (tok Identifier "c" 19))])]).
Proof.
  repeat (split; [reflexivity || lia|]).
  exact (proj1 (@precedence_groups_deeper
                  (tok Identifier "a" 11) (tok Identifier "b" 15)
                  (tok Identifier "c" 19) (tok Plus "+" 13) (tok Multiply "*" 17)
                  7 8 11 eq_refl eq_refl eq_refl eq_refl eq_refl
                  (Nat.lt_succ_diag_r 7) (Nat.lt_succ_diag_r 10))).
Defined.

(** ** Operator sequences of any length *)

Lemma rank_le_9 t r : rank t = Some r -> (r <= 9)%nat.
Proof.
  unfold rank. destruct (_ && _); [intros [= <-]; lia|].
  destruct (type t); cbn; intros E; try discriminate E; injection E as <-; lia.
Qed.

Lemma reads_app_inv {Term} valid (term : M (option Term)) : forall l1 l2 s st',
  reads valid term s (l1 ++ l2) st' ->
  exists m, reads valid term s l1 m /\ reads valid term m l2 st'.
Proof.
  induction l1 as [|[c e] l1 IH]; intros l2 s st' H; cbn [app] in H.
  - exists s. split; [constructor | exact H].
  - inversion H as [|? ? s1 ? s2 ? ? Hc Hv Hn Ht Hr]; subst.
    destruct (IH _ _ _ Hr) as (m & H1 & H2).
    exists m. split; [econstructor; eassumption | exact H2].
Qed.

Lemma reads_ranked {Term} (term : M (option Term)) : forall l s st',
  reads ranked term s l st' -> Forall (fun p => above 0 (fst p)) l.
Proof.
  induction l as [|[c e] l IH]; intros s st' H; [constructor|].
  inversion H as [|? ? s1 ? s2 ? ? Hc Hv Hn Ht Hr]; subst.
  constructor; [|exact (IH _ _ Hr)].
  cbn [fst]. unfold above. unfold ranked in Hv. destruct (rank c); [lia | discriminate].
Qed.

Section cuts.
Variable P : Type.
Variable i : nat.

Lemma cut_uncut : forall l : list (token * P),
  l = fst (cut i l) ++ uncut (snd (cut i l)).
Proof.
  induction l as [|[op b] l IH]; [reflexivity|].
  cbn [cut]. destruct (cut i l) as [pre rest]. cbn [fst snd] in IH.
  destruct (rank_is i op); cbn [fst snd app uncut flat_map].
  - now rewrite IH at 1.
  - now rewrite IH at 1.
Qed.

(** What [cut] leaves between the operators of level [i] binds tighter. *)
Lemma cut_above : forall l : list (token * P),
  Forall (fun p => above i (fst p)) l ->
  Forall (fun p => above (S i) (fst p)) (fst (cut i l))
  /\ Forall (fun x => rank (fst x) = Some i
                      /\ Forall (fun p => above (S i) (fst p)) (snd (snd x)))
       (snd (cut i l)).
Proof.
  induction l as [|[op b] l IH]; intros F; [split; constructor|].
  inversion F as [|? ? Hop Fl]; subst. destruct (IH Fl) as [Hpre Hrest].
  cbn [cut]. destruct (cut i l) as [pre rest]. cbn [fst snd] in Hpre, Hrest, Hop.
  unfold rank_is. unfold above in Hop.
  destruct (rank op) as [r|] eqn:Er; [|contradiction].
  destruct (Nat.eqb_spec r i) as [->|Hne]; cbn [fst snd].
  - split; [constructor|]. constructor; [|exact Hrest].
    split; [exact Er | exact Hpre].
  - split; [|exact Hrest]. constructor; [|exact Hpre].
    cbn [fst]. unfold above. rewrite Er. lia.
Qed.

Lemma cut_length : forall l : list (token * P),
  (List.length (fst (cut i l)) <= List.length l)%nat
  /\ (List.length (snd (cut i l)) <= List.length l)%nat
  /\ Forall (fun x => (List.length (snd (snd x)) <= List.length l)%nat) (snd (cut i l)).
Proof.
  induction l as [|[op b] l (H1 & H2 & H3)]; [repeat split; cbn; try lia; constructor|].
  cbn [cut]. destruct (cut i l) as [pre rest]. cbn [fst snd] in *.
  destruct (rank_is i op); cbn [fst snd List.length]; repeat split; try lia.
  - constructor; [cbn; lia|]. eapply Forall_impl; [|exact H3]. cbn. intros; lia.
  - eapply Forall_impl; [|exact H3]. cbn. intros; lia.
Qed.
End cuts.
Section layer.
Context {P : Type} {Name : string} {Term : Type}.
Variable fuel : nat.
Variable operand : M (option P).
Variable valid : token -> bool.
Variable term : M (option Term).
Variable below : P -> list (token * P) -> Term.
Variable i : nat.

Hypothesis valid_rank : forall t, valid t = true <-> rank t = Some i.
Hypothesis term_groups : forall st a l st' stop,
  chain_from operand (S i) st a l st' stop -> (List.length l < fuel)%nat ->
  term st = Ok (Some (below a l)) st'.

Lemma stops_invalid t : stops i t -> valid t = false.
Proof.
  intros H. destruct (valid t) eqn:E; [|reflexivity].
  apply valid_rank in E. unfold stops in H. rewrite E in H. lia.
Qed.

Lemma stops_further t : stops i t -> stops (S i) t.
Proof. unfold stops. destruct (rank t); [lia | auto]. Qed.

Lemma rank_stops t : rank t = Some i -> stops (S i) t.
Proof. unfold stops. intros ->. lia. Qed.

(** Where the operands between two operators of level [i] end, the token
    is that operator, or the one that ends the chain. *)
Lemma segment_end rest m st' stop :
  reads ranked operand m (uncut rest) st' ->
  Forall (fun x => rank (fst x) = Some i) rest ->
  curr st' = Ok stop st' -> stops i stop ->
  exists c, curr m = Ok c m /\ stops (S i) c.
Proof.
  intros Hr F Hc Hs. destruct rest as [|[op [b seg]] rest].
  - inversion Hr; subst. exists stop. split; [exact Hc | exact (stops_further _ Hs)].
  - cbn [uncut flat_map fst snd app] in Hr.
    inversion Hr as [|? ? s1 ? s2 ? ? Hc' Hv Hn Ht Hr']; subst.
    inversion F as [|? ? Hop _]; subst. cbn [fst] in Hop.
    exists op. split; [exact Hc' | exact (rank_stops _ Hop)].
Qed.

Lemma binary_expression_loop_groups : forall rest iter (n : binary_expression_node Name Term)
  s st' stop,
  reads ranked operand s (uncut rest) st' ->
  Forall (fun x => rank (fst x) = Some i
                   /\ Forall (fun p => above (S i) (fst p)) (snd (snd x))
                   /\ (List.length (snd (snd x)) < fuel)%nat) rest ->
  curr st' = Ok stop st' -> stops i stop ->
  (List.length rest < iter)%nat ->
  Grammar.binary_expression_loop valid term iter n s
  = Ok (Some (mk_binary_expression_node (binary_expr n)
                (binary_terms n
                 ++ map (fun x => mk_binary_term (fst x)
                                    (Some (below (fst (snd x)) (snd (snd x))))) rest)))
       st'.
Proof.
  induction rest as [|[op [b seg]] rest IH]; intros iter n s st' stop Hr F Hc Hs Hi.
  - inversion Hr; subst. destruct iter as [|iter]; [cbn in Hi; lia|].
    cbn [Grammar.binary_expression_loop map]. unfold bind. rewrite Hc.
    rewrite (stops_invalid _ Hs). rewrite app_nil_r. destruct n; reflexivity.
  - cbn [uncut flat_map fst snd app] in Hr.
    inversion Hr as [|? ? s1 ? s2 ? ? Hc' Hv Hn Ht Hr']; subst.
    inversion F as [|? ? (Hop & Hseg & Hlen) F']; subst. cbn [fst snd] in Hop, Hseg, Hlen.
    destruct (@reads_app_inv _ _ _ seg _ _ _ Hr') as (m & Hr1 & Hr2).
    destruct (@segment_end rest m st' stop Hr2) as (c & Hcm & Hsm);
      [eapply Forall_impl; [|exact F']; cbn; intros ? [? _]; assumption
      | exact Hc | exact Hs |].
    destruct iter as [|iter]; [cbn in Hi; lia|].
    cbn [Grammar.binary_expression_loop]. unfold bind at 1. rewrite Hc'.
    rewrite (proj2 (valid_rank op) Hop).
    unfold bind at 1. rewrite Hn. unfold bind at 1.
    rewrite (@term_groups s1 b seg m c); [| exists s2; repeat split; assumption | exact Hlen].
    rewrite (IH iter _ m st' stop Hr2 F' Hc Hs) by (cbn in Hi; lia).
    cbn [binary_expr binary_terms map fst snd]. rewrite <- app_assoc. reflexivity.
Qed.

Lemma binary_expression_groups st a l st' stop :
  chain_from operand i st a l st' stop -> (List.length l < fuel)%nat ->
  Grammar.binary_expression (Name:=Name) fuel valid term st
  = Ok (Some (level_node i below a l)) st'.
Proof.
  intros (st1 & Ho & Hr & F & Hc & Hs) Hlen.
  pose proof (cut_uncut i l) as El.
  destruct (@cut_above _ i l F) as [Fpre Frest].
  destruct (cut_length i l) as (Lpre & Lrest & Lsegs).
  unfold level_node. destruct (cut i l) as [pre rest]. cbn [fst snd] in *.
  rewrite El in Hr. destruct (@reads_app_inv _ _ _ pre _ _ _ Hr) as (m & Hr1 & Hr2).
  destruct (@segment_end rest m st' stop Hr2) as (c & Hcm & Hsm);
    [eapply Forall_impl; [|exact Frest]; cbn; intros ? [? _]; assumption
    | exact Hc | exact Hs |].
  unfold Grammar.binary_expression. unfold bind at 1.
  rewrite (@term_groups st a pre m c); [| exists st1; repeat split; assumption | lia].
  rewrite (@binary_expression_loop_groups rest fuel _ m st' stop Hr2); try assumption;
    [reflexivity | | lia].
  clear - Frest Lsegs Hlen. induction rest as [|x rest IH]; [constructor|].
  inversion Frest as [|? ? [H1 H2] Fr]; subst.
  inversion Lsegs as [|? ? H3 Ls]; subst.
  constructor; [repeat split; try assumption; lia | exact (IH Fr Ls)].
Qed.
End layer.
(** The operator predicate of a layer accepts the operators of its level. *)
Ltac by_rank :=
  let t := fresh "t" in
  let H := fresh "H" in
  intros t; unfold rank, eq_type; destruct t as [ty s p]; cbn [type];
  destruct ty; cbn -[token_is];
  try (destruct (token_is _ "is" || token_is _ "as"));
  cbn; split; intros H;
  first [reflexivity | discriminate H].

Section precedence_ladder.
Variable fuel : nat.
Variable self : recursion.

Lemma prefix_expression_groups st (a : prefix_expression_node) l st' stop :
  chain_from (Grammar.prefix_expression fuel self) 10 st a l st' stop ->
  (List.length l < fuel)%nat ->
  Grammar.prefix_expression fuel self st = Ok (Some ((fun a _ => a) a l)) st'.
Proof.
  intros (st1 & Ho & Hr & F & _) _. destruct l as [|[op b] l].
  - inversion Hr; subst. exact Ho.
  - exfalso. inversion F as [|? ? Hop _]; subst. cbn [fst] in Hop.
    unfold above in Hop. destruct (rank op) as [r|] eqn:E; [|exact Hop].
    apply rank_le_9 in E. lia.
Qed.

Lemma assignment_expression_groups st a l st' stop :
  chain_from (Grammar.prefix_expression fuel self) 0 st a l st' stop ->
  (List.length l < fuel)%nat ->
  Grammar.assignment_expression fuel self st = Ok (Some (grouped a l)) st'.
Proof.
  revert st a l st' stop.
  unfold grouped, Grammar.assignment_expression, Grammar.logical_or_expression,
    Grammar.logical_and_expression, Grammar.equality_expression,
    Grammar.relational_expression, Grammar.compare_expression,
    Grammar.shift_expression, Grammar.additive_expression,
    Grammar.multiplicative_expression, Grammar.is_as_expression.
  do 10 (intros; eapply binary_expression_groups; [by_rank | | eassumption | assumption]).
  apply prefix_expression_groups.
Qed.
End precedence_ladder.

(** C7.  Any sequence of operands joined by binary operators of the ten
    levels, in any mix and of any length, parses into the tree that
    groups it by precedence: the operators of the loosest level sit in
    the outermost node, and between them, level by level, those that bind
    tighter sit deeper.  The operands are whatever [prefix_expression]
    reads between the operators. *)
Theorem precedence_grouping fuel st a st1 l st' stop :
  prefix_expression fuel st = Ok (Some a) st1 ->
  reads ranked (prefix_expression fuel) st1 l st' ->
  curr st' = Ok stop st' -> rank stop = None ->
  (List.length l < fuel)%nat ->
  expression fuel st = Ok (Some (mk_expression_node (Some (grouped a l)))) st'.
Proof.
  intros Ho Hr Hc Hs Hlen.
  unfold expression, Grammar.expression, bind.
  rewrite (@assignment_expression_groups fuel (knot fuel) st a l st' stop);
    [reflexivity | | exact Hlen].
  exists st1. repeat split; try assumption.
  - exact (reads_ranked Hr).
  - unfold stops. now rewrite Hs.
Qed.
(** The theorem at the initializer of [x : int = a + b * c ;], where the
    additive node has head [a] and the term [+] with the multiplicative
    node of [b], [*], [c]; and at [a is b * c ;], where the multiplicative
    node has the is-as node of [a], [is], [b] as head and the term [*]
    with [c]. *)
Lemma precedence_grouping_witness :
  expression 3 (parsing (declared a_plus_b_times_c) 4)
  = Ok (Some (mk_expression_node (Some
         (solo (solo (solo (solo (solo (solo (solo
            (mk_binary_expression_node (Name:="additive")
               (Some (solo (solo (operand (tok Identifier "a" 11)))))
               [mk_binary_term (tok Plus "+" 13)
                  (Some (mk_binary_expression_node (Name:="multiplicative")
                           (Some (solo (operand (tok Identifier "b" 15))))
                           [mk_binary_term (tok Multiply "*" 17)
                              (Some (solo (operand (tok Identifier "c" 19))))]))])
         ))))))))))
       (parsing (declared a_plus_b_times_c) 9)
  /\ expression 3 (parsing is_then_times 0)
     = Ok (Some (mk_expression_node (Some
            (solo (solo (solo (solo (solo (solo (solo (solo
               (mk_binary_expression_node (Name:="multiplicative")
                  (Some (mk_binary_expression_node (Name:="is-as")
                           (Some (operand (tok Identifier "a" 1)))
                           [mk_binary_term (tok Keyword "is" 3)
                              (Some (operand (tok Identifier "b" 6)))]))
                  [mk_binary_term (tok Multiply "*" 8)
                     (Some (solo (operand (tok Identifier "c" 10))))])
            )))))))))))
          (parsing is_then_times 5).
Proof.
  split.
  - rewrite (@precedence_grouping 3 (parsing (declared a_plus_b_times_c) 4)
               (operand (tok Identifier "a" 11)) (parsing (declared a_plus_b_times_c) 5)
               [(tok Plus "+" 13, operand (tok Identifier "b" 15));
                (tok Multiply "*" 17, operand (tok Identifier "c" 19))]
               (parsing (declared a_plus_b_times_c) 9) (tok Semicolon ";" 99)).
    + reflexivity.
    + reflexivity.
    + eapply reads_cons with (st1 := parsing (declared a_plus_b_times_c) 6)
                             (st2 := parsing (declared a_plus_b_times_c) 7);
        [reflexivity | reflexivity | reflexivity | reflexivity |].
      eapply reads_cons with (st1 := parsing (declared a_plus_b_times_c) 8)
                             (st2 := parsing (declared a_plus_b_times_c) 9);
        [reflexivity | reflexivity | reflexivity | reflexivity |].
      apply reads_nil.
    + reflexivity.
    + reflexivity.
    + cbn; lia.
  - rewrite (@precedence_grouping 3 (parsing is_then_times 0)
               (operand (tok Identifier "a" 1)) (parsing is_then_times 1)
               [(tok Keyword "is" 3, operand (tok Identifier "b" 6));
                (tok Multiply "*" 8, operand (tok Identifier "c" 10))]
               (parsing is_then_times 5) (tok Semicolon ";" 11)).
    + reflexivity.
    + reflexivity.
    + eapply reads_cons with (st1 := parsing is_then_times 2)
                             (st2 := parsing is_then_times 3);
        [reflexivity | reflexivity | reflexivity | reflexivity |].
      eapply reads_cons with (st1 := parsing is_then_times 4)
                             (st2 := parsing is_then_times 5);
        [reflexivity | reflexivity | reflexivity | reflexivity |].
      apply reads_nil.
    + reflexivity.
    + reflexivity.
    + cbn; lia.
Defined.

(* ===================================================================== *)
(** * C8: the false branch of a selection statement *)
(* ===================================================================== *)

Lemma wp_conj oof {A} (m : M A) st (Q Q' : A -> parser -> Prop) :
  wp oof m st Q -> wp oof m st Q' -> wp oof m st (fun a st' => Q a st' /\ Q' a st').
Proof. unfold wp. destruct (m st); auto. Qed.

Lemma wp_and_run {A} (m : M A) st (Q : A -> parser -> Prop) :
  wp True m st Q -> wp True m st (fun a st' => Q a st' /\ m st = Ok a st').
Proof. unfold wp. destruct (m st); auto. Qed.

Section selection.
Variable toks : list token.
Variable fuel : nat.

Lemma compound_statement_loop_tied iter n st :
  valid toks st -> deeper True toks fuel st ->
  wp True (Grammar.compound_statement_loop (knot fuel) iter n) st
     (fun _ st' => steady toks st st').
Proof.
  intros Hv Hd. destruct (knot_ok True toks fuel) as (He & Hs & _).
  eapply compound_statement_loop_ok; [exact Hs | exact Hv | exact Hd | left; exact I].
Qed.

Lemma compound_statement_loop_pos : forall iter n st,
  valid toks st ->
  wp True (Grammar.compound_statement_loop (knot fuel) iter n) st
     (fun r _ => forall m, r = Some m -> compound_pos m = compound_pos n).
Proof.
  induction iter as [|iter IH]; intros; [exact I|].
  cbn [Grammar.compound_statement_loop].
  run toks ltac:(idtac; first [use IH | tied]);
    intros; try discriminate;
    try (match goal with
         | H : forall m, _ = Some m -> _, E : _ = Some _ |- _ =>
             apply H in E; exact E
         end);
    congruence.
Qed.

(** A compound statement carries the position of its opening brace. *)
Lemma compound_statement_pos st :
  valid toks st ->
  wp True (Grammar.compound_statement fuel (knot fuel)) st
     (fun r st' =>
        post toks st r st'
        /\ forall m, r = Some m ->
           exists brace, subscript toks (pos st) = Some brace
                         /\ compound_pos m = position brace).
Proof.
  intros Hv. unfold Grammar.compound_statement.
  run toks tied.
  eapply wp_mono.
  - apply wp_conj; [apply compound_statement_loop_tied | apply compound_statement_loop_pos]; side.
  - cbv beta. intros r st' [Hs Hm]. split; [side|].
    intros m E. apply Hm in E. exists t. split; [assumption | exact E].
Qed.

Lemma compound_statement_run st :
  valid toks st ->
  wp True (Grammar.compound_statement fuel (knot fuel)) st
     (fun r st' =>
        (post toks st r st'
         /\ forall m, r = Some m ->
            exists brace, subscript toks (pos st) = Some brace
                          /\ compound_pos m = position brace)
        /\ compound_statement fuel st = Ok r st').
Proof. intros Hv. apply wp_and_run, compound_statement_pos, Hv. Qed.

Lemma is_else_spec t :
  negb (eq_type t Keyword) || negb (token_is t "else") = negb (is_else t).
Proof. unfold is_else. now destruct (eq_type t Keyword), (token_is t "else"). Qed.

Lemma selection_statement_spec st :
  valid toks st ->
  wp True (selection_statement fuel) st
     (fun r st' =>
        forall n, r = Some n ->
        exists tb fb st_b st_t t,
          true_branch n = Some tb /\ false_branch n = Some fb
          /\ compound_statement fuel st_b = Ok (Some tb) st_t
          /\ subscript toks (pos st_t) = Some t
          /\ if is_else t
             then exists brace,
                 subscript toks (pos st_t + 1) = Some brace
                 /\ compound_statement fuel (set_pos (pos st_t + 1) st_t) = Ok (Some fb) st'
                 /\ compound_pos fb = position brace
             else fb = mk_compound_statement_node (mk_source_position 0 0) []
                  /\ st' = st_t).
Proof.
  intros Hv. unfold selection_statement, Grammar.selection_statement.
  run toks ltac:(idtac; first [ use compound_statement_run | tied ]);
    intros n E; try discriminate E; injection E as <-;
    cbn [true_branch false_branch];
    rewrite is_else_spec in *;
    repeat match goal with
      | H : (_ /\ _) /\ _ |- _ => destruct H as [[? ?] ?]
      | H : negb _ = true |- _ => apply negb_true_iff in H
      | H : negb _ = false |- _ => apply negb_false_iff in H
      end;
    match goal with
    | Hrun : compound_statement fuel ?sb = Ok (Some ?tb) ?stt,
      Hsub : subscript toks (pos ?stt) = Some ?t2,
      Helse : is_else ?t2 = _ |- _ =>
        exists tb; eexists; exists sb, stt, t2;
        split; [reflexivity|]; split; [reflexivity|];
        split; [exact Hrun|]; split; [exact Hsub|];
        rewrite Helse
    end.
  - split; reflexivity.
  - match goal with
    | Hlt : pos ?stt < ssize toks,
      Hpos : forall m, Some ?fb = Some m -> exists brace, _ |- _ =>
        replace (Z.min (pos stt + 1) (ssize toks)) with (pos stt + 1) in * by lia;
        destruct (Hpos _ eq_refl) as (brace & Hb & Hp); exists brace; auto
    end.
  - split; reflexivity.
  - match goal with
    | Hlt : pos ?stt < ssize toks,
      Hpos : forall m, Some ?fb = Some m -> exists brace, _ |- _ =>
        replace (Z.min (pos stt + 1) (ssize toks)) with (pos stt + 1) in * by lia;
        destruct (Hpos _ eq_refl) as (brace & Hb & Hp); exists brace; auto
    end.
Qed.

End selection.

(** C8.  A selection statement returned by [selection_statement] owns a
    true branch and a false branch.  Where the token after the true
    branch is not [else], the false branch is the empty compound
    statement at position (0,0) and nothing more is consumed; where it
    is, the false branch is the compound statement parsed after the
    [else], whose position is that of its opening brace. *)
Theorem selection_statement_false_branch toks fuel st n st' :
  valid toks st ->
  selection_statement fuel st = Ok (Some n) st' ->
  exists tb fb st_b st_t t,
    true_branch n = Some tb /\ false_branch n = Some fb
    /\ compound_statement fuel st_b = Ok (Some tb) st_t
    /\ subscript toks (pos st_t) = Some t
    /\ if is_else t
       then exists brace,
           subscript toks (pos st_t + 1) = Some brace
           /\ compound_statement fuel (set_pos (pos st_t + 1) st_t) = Ok (Some fb) st'
           /\ compound_pos fb = position brace
       else fb = mk_compound_statement_node (mk_source_position 0 0) []
            /\ st' = st_t.
Proof.
  intros Hv E. exact (wp_Ok (selection_statement_spec fuel Hv) E n eq_refl).
Qed.


Lemma selection_statement_false_branch_witness :
  valid if_else (parsing if_else 0)
  /\ selection_statement 5 (parsing if_else 0) = Ok (Some if_else_node) (parsing if_else 7)
  /\ exists tb fb st_b st_t t,
      true_branch if_else_node = Some tb /\ false_branch if_else_node = Some fb
      /\ compound_statement 5 st_b = Ok (Some tb) st_t
      /\ subscript if_else (pos st_t) = Some t
      /\ if is_else t
         then exists brace,
             subscript if_else (pos st_t + 1) = Some brace
             /\ compound_statement 5 (set_pos (pos st_t + 1) st_t)
                = Ok (Some fb) (parsing if_else 7)
             /\ compound_pos fb = position brace
         else fb = mk_compound_statement_node (mk_source_position 0 0) []
              /\ parsing if_else 7 = st_t.
Proof.
  assert (Hv : valid if_else (parsing if_else 0)) by (split; [reflexivity | cbn; lia]).
  assert (E : selection_statement 5 (parsing if_else 0)
              = Ok (Some if_else_node) (parsing if_else 7)) by (vm_compute; reflexivity).
  split; [exact Hv|]. split; [exact E|].
  exact (@selection_statement_false_branch if_else 5 _ _ _ Hv E).
Defined.

(** The two cases on [if a { } else { }] and on [if a { } ;]. *)
Lemma false_branch_of_samples :
  (selection_statement 5 (parsing if_else 0) = Ok (Some if_else_node) (parsing if_else 7)
   /\ false_branch if_else_node
      = Some (mk_compound_statement_node (mk_source_position 1 15) []))
  /\ (selection_statement 5 (parsing if_alone 0) = Ok (Some if_alone_node) (parsing if_alone 4)
      /\ false_branch if_alone_node
         = Some (mk_compound_statement_node (mk_source_position 0 0) [])).
Proof. repeat split; vm_compute; reflexivity. Qed.

(* ===================================================================== *)
(** * C9: a dot in a postfix chain *)
(* ===================================================================== *)

Lemma next_Ok toks st :
  tokens_ st = Some toks -> pos st < ssize toks ->
  next 1 st = Ok tt (set_pos (pos st + 1) st).
Proof.
  intros Ht Hp. unfold next. rewrite Ht. f_equal. f_equal. lia.
Qed.

Lemma subscript_in_range {A} (l : list A) i x :
  subscript l i = Some x -> 0 <= i < ssize l.
Proof.
  unfold subscript, ssize. destruct (Z.ltb_spec i 0); [discriminate|].
  intros E. assert (Z.to_nat i < List.length l)%nat by (apply nth_error_Some; congruence).
  lia.
Qed.

(** One iteration of the postfix loop on a dot: the dot is consumed and
    appended as a term without expression list; nothing else happens. *)
Lemma postfix_expression_loop_dot self iter n toks st dot :
  tokens_ st = Some toks -> subscript toks (pos st) = Some dot -> type dot = Dot ->
  Grammar.postfix_expression_loop self (S iter) n st
  = Grammar.postfix_expression_loop self iter
      (mk_postfix_expression_node (postfix_expr n)
         (postfix_ops n ++ [mk_postfix_term dot None]))
      (set_pos (pos st + 1) st).
Proof.
  intros Ht Hs Hd. cbn [Grammar.postfix_expression_loop]. unfold bind at 1.
  rewrite (@curr_Ok toks st dot Ht Hs). unfold eq_type. rewrite Hd. cbn [is_postfix_operator lexeme_eqb orb].
  replace (lexeme_eqb Dot LeftBracket || lexeme_eqb Dot LeftParen || lexeme_eqb Dot Dot)
    with true by reflexivity.
  unfold bind at 1. rewrite (@next_Ok toks st Ht) by (apply subscript_in_range in Hs; lia).
  reflexivity.
Qed.

(** The loop stops at a token that is no postfix operator, bracket,
    parenthesis or dot. *)
Lemma postfix_expression_loop_stops self iter n toks st nx :
  tokens_ st = Some toks -> subscript toks (pos st) = Some nx ->
  continues_postfix nx = false ->
  Grammar.postfix_expression_loop self (S iter) n st = Ok (Some n) st.
Proof.
  intros Ht Hs Hn. cbn [Grammar.postfix_expression_loop]. unfold bind at 1.
  rewrite (@curr_Ok toks st nx Ht Hs). unfold continues_postfix in Hn.
  rewrite Hn. reflexivity.
Qed.

(** C9.  When the token after the primary expression and the postfix
    operators parsed so far, however many, is a dot, and the token after
    the dot continues no postfix chain (an identifier, say),
    [postfix_expression] returns the chain with one more term, the dot
    with a null expression list, and leaves the cursor on the token after
    the dot: the dot is consumed, what follows it is neither consumed nor
    attached. *)
Theorem postfix_expression_dot fuel iter toks st n st1 dot nx :
  chain_parsed fuel (S (S iter)) st n st1 ->
  tokens_ st1 = Some toks ->
  subscript toks (pos st1) = Some dot -> type dot = Dot ->
  subscript toks (pos st1 + 1) = Some nx -> continues_postfix nx = false ->
  postfix_expression fuel st
  = Ok (Some (mk_postfix_expression_node (postfix_expr n)
                (postfix_ops n ++ [mk_postfix_term dot None])))
       (set_pos (pos st1 + 1) st1).
Proof.
  intros (prim & s0 & Hp & Hl) Ht Hdot Hd Hnx Hn.
  unfold postfix_expression, Grammar.postfix_expression, bind.
  unfold primary_expression in Hp. rewrite Hp, Hl.
  rewrite (@postfix_expression_loop_dot (knot fuel) (S iter) n toks st1 dot Ht Hdot Hd).
  apply (@postfix_expression_loop_stops _ iter _ toks _ nx); auto.
Qed.

(** The theorem at [a ++ . b ;], where the dot after the chain [a ++] is
    stored as a second term and the cursor stops on [b], and at
    [a . b ;], where the dot follows the primary expression. *)
Lemma postfix_expression_dot_witness :
  chain_parsed 4 3 (parsing increment_then_dot 0)
    (mk_postfix_expression_node
       (Some (primary_identifier (tok Identifier "a" 1)))
       [mk_postfix_term (tok PlusPlus "++" 2) None])
    (parsing increment_then_dot 2)
  /\ postfix_expression 4 (parsing increment_then_dot 0)
     = Ok (Some (mk_postfix_expression_node
                   (Some (primary_identifier (tok Identifier "a" 1)))
                   [mk_postfix_term (tok PlusPlus "++" 2) None;
                    mk_postfix_term (tok Dot "." 4) None]))
          (parsing increment_then_dot 3)
  /\ postfix_expression 2 (parsing member_access 0)
     = Ok (Some (mk_postfix_expression_node
                   (Some (primary_identifier (tok Identifier "a" 1)))
                   [mk_postfix_term (tok Dot "." 2) None]))
          (parsing member_access 2).
Proof.
  assert (C : chain_parsed 4 3 (parsing increment_then_dot 0)
                (mk_postfix_expression_node
                   (Some (primary_identifier (tok Identifier "a" 1)))
                   [mk_postfix_term (tok PlusPlus "++" 2) None])
                (parsing increment_then_dot 2)).
  { exists (primary_identifier (tok Identifier "a" 1)), (parsing increment_then_dot 1).
    split; reflexivity. }
  assert (C' : chain_parsed 2 2 (parsing member_access 0)
                 (mk_postfix_expression_node
                    (Some (primary_identifier (tok Identifier "a" 1))) [])
                 (parsing member_access 1)).
  { exists (primary_identifier (tok Identifier "a" 1)), (parsing member_access 1).
    split; reflexivity. }
  split; [exact C|]. split.
  - exact (@postfix_expression_dot 4 1 increment_then_dot _ _ _ (tok Dot "." 4)
             (tok Identifier "b" 5) C eq_refl eq_refl eq_refl eq_refl eq_refl).
  - exact (@postfix_expression_dot 2 0 member_access _ _ _ (tok Dot "." 2)
             (tok Identifier "b" 3) C' eq_refl eq_refl eq_refl eq_refl eq_refl).
Defined.

(* ===================================================================== *)
(** * C10: termination *)
(* ===================================================================== *)

(** C10.  [parse] terminates on every token sequence: there is one
    outcome, a result or a fault, that [parse] reaches with any fuel
    beyond the number of tokens.  The fuel bounds the iterations of every
    loop and the depth of the recursion, so this holds because each loop
    iteration and each recursive call consumes a token, or the loop
    exits. *)
Theorem parse_terminates toks st :
  exists o,
    o <> OutOfFuel
    /\ forall fuel, (List.length toks < fuel)%nat -> parse fuel toks st = o.
Proof.
  exists (parse (S (List.length toks)) toks st). split.
  - exact (wp_fuel (@parse_wp False toks _ st (or_intror (Nat.lt_succ_diag_r _)))).
  - intros fuel H. apply parse_fuel_irrelevant; [exact H | apply Nat.lt_succ_diag_r].
Qed.

Lemma parse_terminates_witness :
  (List.length stray_paren < 4)%nat
  /\ exists o, o <> OutOfFuel /\ parse 4 stray_paren (new_parser []) = o.
Proof.
  assert (H : (List.length stray_paren < 4)%nat) by (cbn; lia).
  split; [exact H|].
  destruct (parse_terminates stray_paren (new_parser [])) as (o & Ho & E).
  exists o. split; [exact Ho | exact (E 4%nat H)].
Defined.

(* ===================================================================== *)
(** * [parse] is a function of the tokens *)
(* ===================================================================== *)

Lemma appended_refl st : appended st st [].
Proof. unfold appended. now rewrite app_nil_r. Qed.

Lemma appended_trans st st' st'' l l' :
  appended st st' l -> appended st' st'' l' -> appended st st'' (l ++ l').
Proof.
  intros (T & P & E) (T' & P' & E'). unfold appended.
  rewrite T', T, P', P, E', E, app_assoc. auto.
Qed.

Lemma oblivious_ret {A} (a : A) : oblivious (ret a).
Proof.
  intros st1 st2 [T P]. cbn. repeat split; [exact P|].
  exists []. split; apply appended_refl.
Qed.

Lemma oblivious_raise {A} f : oblivious (@raise A f).
Proof. intros st1 st2 _. reflexivity. Qed.

Lemma oblivious_out_of_fuel {A} : oblivious (@out_of_fuel A).
Proof. intros st1 st2 _. exact I. Qed.

Lemma oblivious_bind {A B} (m : M A) (k : A -> M B) :
  oblivious m -> (forall a, oblivious (k a)) -> oblivious (bind m k).
Proof.
  intros Hm Hk st1 st2 S. specialize (Hm st1 st2 S). unfold bind.
  destruct (m st1) as [a1 s1|f1|], (m st2) as [a2 s2|f2|];
    try exact Hm; try contradiction.
  destruct Hm as (<- & P & l & L1 & L2).
  assert (S' : same_input s1 s2).
  { destruct S as [T _], L1 as (T1 & _), L2 as (T2 & _).
    split; [congruence | exact P]. }
  specialize (Hk a1 s1 s2 S').
  destruct (k a1 s1) as [b1 r1|g1|], (k a1 s2) as [b2 r2|g2|];
    try exact Hk; try contradiction.
  destruct Hk as (E & P' & l' & L1' & L2').
  repeat split; [exact E | exact P' |].
  exists (l ++ l'). split; eapply appended_trans; eassumption.
Qed.

Lemma oblivious_get_pos : oblivious get_pos.
Proof.
  intros st1 st2 [T P]. cbn. repeat split; try exact P.
  exists []. split; apply appended_refl.
Qed.

Lemma oblivious_put_pos p : oblivious (put_pos p).
Proof.
  intros st1 st2 [T P]. cbn. repeat split.
  exists []. split; unfold appended; cbn; now rewrite app_nil_r.
Qed.

Lemma oblivious_deref {A} (p : option A) : oblivious (deref p).
Proof. destruct p; [apply oblivious_ret | apply oblivious_raise]. Qed.

Lemma oblivious_done : oblivious done.
Proof.
  intros st1 st2 [T P]. unfold done. rewrite T, P.
  destruct (tokens_ st2) as [ts|]; [|reflexivity].
  destruct (pos st2 <=? ssize ts); [|reflexivity].
  repeat split; [exact P|]. exists []. split; apply appended_refl.
Qed.

Lemma oblivious_curr : oblivious curr.
Proof.
  intros st1 st2 [T P]. unfold curr, done. rewrite T, P.
  destruct (tokens_ st2) as [ts|]; [|reflexivity].
  destruct (pos st2 <=? ssize ts); [|reflexivity].
  destruct (pos st2 =? ssize ts); [reflexivity|].
  destruct (subscript ts (pos st2)); [|reflexivity].
  repeat split; [exact P|]. exists []. split; apply appended_refl.
Qed.

Lemma oblivious_peek num : oblivious (peek num).
Proof.
  intros st1 st2 [T P]. unfold peek. rewrite T, P.
  destruct (tokens_ st2) as [ts|]; [|reflexivity].
  destruct (pos st2 + num <? ssize ts).
  - destruct (subscript ts (pos st2 + num)); [|reflexivity].
    repeat split; [exact P|]. exists []. split; apply appended_refl.
  - repeat split; [exact P|]. exists []. split; apply appended_refl.
Qed.

Lemma oblivious_next num : oblivious (next num).
Proof.
  intros st1 st2 [T P]. unfold next. rewrite T, P.
  destruct (tokens_ st2) as [ts|] eqn:E; [|reflexivity].
  repeat split. exists [].
  split; unfold appended; cbn; now rewrite app_nil_r.
Qed.

Lemma oblivious_emplace_back e :
  oblivious (fun st => Ok tt (emplace_back_error e st)).
Proof.
  intros st1 st2 [T P]. cbn. repeat split; [exact P|].
  exists [e]. split; unfold appended; cbn; auto.
Qed.

Lemma oblivious_error m : oblivious (error_ m).
Proof.
  unfold error_. apply oblivious_bind; [apply oblivious_done|].
  intros [|]; [apply oblivious_raise|].
  apply oblivious_bind; [apply oblivious_curr|].
  intros c. apply oblivious_emplace_back.
Qed.

(** Descend through a production body. *)
Ltac obl_step call :=
  lazymatch goal with
  | |- oblivious (bind _ _) => apply oblivious_bind; [| intro]
  | |- oblivious (ret _) => apply oblivious_ret
  | |- oblivious (raise _) => apply oblivious_raise
  | |- oblivious out_of_fuel => apply oblivious_out_of_fuel
  | |- oblivious get_pos => apply oblivious_get_pos
  | |- oblivious (put_pos _) => apply oblivious_put_pos
  | |- oblivious (deref _) => apply oblivious_deref
  | |- oblivious done => apply oblivious_done
  | |- oblivious curr => apply oblivious_curr
  | |- oblivious (peek _) => apply oblivious_peek
  | |- oblivious (next _) => apply oblivious_next
  | |- oblivious (error_ _) => apply oblivious_error
  | |- oblivious (if ?b then _ else _) => destruct b
  | |- oblivious (match ?x with _ => _ end) => destruct x
  | |- oblivious (let _ := _ in _) => cbv zeta
  | |- _ => call
  end.

Ltac obl call := repeat obl_step call.

Section oblivious.
Variable fuel : nat.
Variable self : recursion.
Hypothesis self_expression_list : oblivious (rec_expression_list self).
Hypothesis self_statement : forall b, oblivious (rec_statement self b).
Hypothesis self_declaration : forall b, oblivious (rec_declaration self b).

Ltac rec_call :=
  idtac;
  first [ apply self_expression_list | apply self_statement | apply self_declaration ].

Ltac loop_obl IH :=
  let iter := fresh "iter" in
  intros iter; induction iter as [|iter IH]; intros;
  [ apply oblivious_out_of_fuel | ].

Lemma primary_expression_oblivious : oblivious (Grammar.primary_expression self).
Proof. unfold Grammar.primary_expression. obl rec_call. Qed.

Lemma postfix_expression_loop_oblivious : forall iter n,
  oblivious (Grammar.postfix_expression_loop self iter n).
Proof.
  loop_obl IH. cbn [Grammar.postfix_expression_loop].
  obl ltac:(idtac; first [apply IH | rec_call]).
Qed.

Lemma postfix_expression_oblivious : oblivious (Grammar.postfix_expression fuel self).
Proof.
  unfold Grammar.postfix_expression.
  obl ltac:(idtac; first [ apply primary_expression_oblivious
                         | apply postfix_expression_loop_oblivious ]).
Qed.

Lemma prefix_expression_loop_oblivious : forall iter ops,
  oblivious (Grammar.prefix_expression_loop iter ops).
Proof.
  loop_obl IH. cbn [Grammar.prefix_expression_loop].
  obl ltac:(idtac; apply IH).
Qed.

Lemma prefix_expression_oblivious : oblivious (Grammar.prefix_expression fuel self).
Proof.
  unfold Grammar.prefix_expression.
  obl ltac:(idtac; first [ apply postfix_expression_oblivious
                         | apply prefix_expression_loop_oblivious ]).
Qed.

Section binary.
Context {Name : string} {Term : Type}.
Variable is_valid_op : token -> bool.
Variable term : M (option Term).
Hypothesis term_oblivious : oblivious term.

Lemma binary_expression_loop_oblivious :
  forall iter (n : binary_expression_node Name Term),
  oblivious (Grammar.binary_expression_loop is_valid_op term iter n).
Proof.
  loop_obl IH. cbn [Grammar.binary_expression_loop].
  obl ltac:(idtac; first [apply IH | apply term_oblivious]).
Qed.

Lemma binary_expression_oblivious :
  oblivious (Grammar.binary_expression (Name:=Name) fuel is_valid_op term).
Proof.
  unfold Grammar.binary_expression.
  obl ltac:(idtac; first [ apply term_oblivious
                         | apply binary_expression_loop_oblivious ]).
Qed.
End binary.

Lemma assignment_expression_oblivious :
  oblivious (Grammar.assignment_expression fuel self).
Proof.
  repeat apply binary_expression_oblivious. apply prefix_expression_oblivious.
Qed.

Lemma expression_oblivious : oblivious (Grammar.expression fuel self).
Proof.
  unfold Grammar.expression. obl ltac:(idtac; apply assignment_expression_oblivious).
Qed.

Lemma out_marker_oblivious : oblivious Grammar.out_marker.
Proof. unfold Grammar.out_marker. obl idtac. Qed.

Lemma expression_list_loop_oblivious : forall iter n,
  oblivious (Grammar.expression_list_loop fuel self iter n).
Proof.
  loop_obl IH. cbn [Grammar.expression_list_loop].
  obl ltac:(idtac; first [ apply IH | apply expression_oblivious
                         | apply out_marker_oblivious ]).
Qed.

Lemma expression_list_oblivious : oblivious (Grammar.expression_list fuel self).
Proof.
  unfold Grammar.expression_list.
  obl ltac:(idtac; first [ apply expression_oblivious | apply out_marker_oblivious
                         | apply expression_list_loop_oblivious ]).
Qed.

Lemma unqualified_id_oblivious : oblivious Grammar.unqualified_id.
Proof. unfold Grammar.unqualified_id. obl idtac. Qed.

Lemma qualified_id_loop_oblivious : forall iter n,
  oblivious (Grammar.qualified_id_loop iter n).
Proof.
  loop_obl IH. cbn [Grammar.qualified_id_loop].
  obl ltac:(idtac; first [apply IH | apply unqualified_id_oblivious]).
Qed.

Lemma qualified_id_oblivious : oblivious (Grammar.qualified_id fuel).
Proof.
  unfold Grammar.qualified_id.
  obl ltac:(idtac; first [ apply unqualified_id_oblivious
                         | apply qualified_id_loop_oblivious ]).
Qed.

Lemma id_expression_oblivious : oblivious (Grammar.id_expression fuel).
Proof.
  unfold Grammar.id_expression.
  obl ltac:(idtac; first [ apply qualified_id_oblivious
                         | apply unqualified_id_oblivious ]).
Qed.

Lemma expression_statement_oblivious b :
  oblivious (Grammar.expression_statement fuel self b).
Proof.
  unfold Grammar.expression_statement. obl ltac:(idtac; apply expression_oblivious).
Qed.

Lemma compound_statement_loop_oblivious : forall iter n,
  oblivious (Grammar.compound_statement_loop self iter n).
Proof.
  loop_obl IH. cbn [Grammar.compound_statement_loop].
  obl ltac:(idtac; first [apply IH | rec_call]).
Qed.

Lemma compound_statement_oblivious : oblivious (Grammar.compound_statement fuel self).
Proof.
  unfold Grammar.compound_statement.
  obl ltac:(idtac; apply compound_statement_loop_oblivious).
Qed.

Lemma selection_statement_oblivious : oblivious (Grammar.selection_statement fuel self).
Proof.
  unfold Grammar.selection_statement.
  obl ltac:(idtac; first [ apply expression_oblivious
                         | apply compound_statement_oblivious ]).
Qed.

Lemma parameter_declaration_oblivious : oblivious (Grammar.parameter_declaration self).
Proof. unfold Grammar.parameter_declaration. obl rec_call. Qed.

Lemma parameter_declaration_list_loop_oblivious : forall iter params,
  oblivious (Grammar.parameter_declaration_list_loop self iter params).
Proof.
  loop_obl IH. cbn [Grammar.parameter_declaration_list_loop].
  obl ltac:(idtac; first [apply IH | apply parameter_declaration_oblivious]).
Qed.

Lemma parameter_declaration_list_oblivious :
  oblivious (Grammar.parameter_declaration_list fuel self).
Proof.
  unfold Grammar.parameter_declaration_list.
  obl ltac:(idtac; apply parameter_declaration_list_loop_oblivious).
Qed.

Lemma declaration_oblivious b : oblivious (Grammar.declaration fuel self b).
Proof.
  unfold Grammar.declaration.
  obl ltac:(idtac; first [ apply unqualified_id_oblivious
                         | apply parameter_declaration_list_oblivious
                         | apply id_expression_oblivious | rec_call ]).
Qed.

Lemma statement_oblivious b : oblivious (Grammar.statement fuel self b).
Proof.
  unfold Grammar.statement.
  obl ltac:(idtac; first [ apply selection_statement_oblivious
                         | apply compound_statement_oblivious
                         | apply declaration_oblivious
                         | apply expression_statement_oblivious ]).
Qed.

Lemma translation_unit_loop_oblivious : forall iter n,
  oblivious (Grammar.translation_unit_loop fuel self iter n).
Proof.
  loop_obl IH. cbn [Grammar.translation_unit_loop].
  obl ltac:(idtac; first [apply IH | apply declaration_oblivious]).
Qed.

End oblivious.

Lemma knot_oblivious : forall fuel,
  oblivious (rec_expression_list (knot fuel))
  /\ (forall b, oblivious (rec_statement (knot fuel) b))
  /\ (forall b, oblivious (rec_declaration (knot fuel) b)).
Proof.
  induction fuel as [|f (He & Hs & Hd)].
  - repeat split; intros; apply oblivious_out_of_fuel.
  - cbn [knot rec_expression_list rec_statement rec_declaration].
    repeat split; intros.
    + apply expression_list_oblivious; exact He.
    + apply statement_oblivious; assumption.
    + apply declaration_oblivious; assumption.
Qed.

Lemma translation_unit_oblivious fuel : oblivious (translation_unit fuel).
Proof.
  destruct (knot_oblivious fuel) as (He & Hs & Hd).
  unfold translation_unit, Grammar.translation_unit.
  apply translation_unit_loop_oblivious; assumption.
Qed.

(** X1.  What [parse] does on a token sequence does not depend on what the
    parser holds from earlier calls.  Whatever a fresh parser does on
    [toks], a parser that already holds diagnostics and declarations does
    too: it faults the same way, or it returns the same boolean, having
    appended to its error list the diagnostics the fresh parser reports
    and to its tree the declarations the fresh parser stores. *)
Theorem parse_depends_on_tokens_only fuel toks st t :
  parse_tree st = Some t ->
  match parse fuel toks (new_parser []) with
  | Ok b s0 =>
      exists s t0,
        parse fuel toks st = Ok b s
        /\ parse_tree s0 = Some t0
        /\ errors s = errors st ++ errors s0
        /\ parse_tree s = Some (mk_translation_unit_node
                                  (declarations t ++ declarations t0))
        /\ tokens_ s = Some toks /\ pos s = pos s0
  | Fault f => parse fuel toks st = Fault f
  | OutOfFuel => parse fuel toks st = OutOfFuel
  end.
Proof.
  intros Ht. unfold parse, bind.
  set (a0 := set_pos 0 (set_tokens toks (new_parser []))).
  set (a1 := set_pos 0 (set_tokens toks st)).
  assert (S : same_input a0 a1) by (split; reflexivity).
  pose proof (translation_unit_oblivious fuel S) as H.
  destruct (translation_unit fuel a0) as [tu0 b0|f0|],
           (translation_unit fuel a1) as [tu1 b1|f1|];
    try contradiction; [| now subst | reflexivity].
  destruct H as (<- & P & l & (T0 & R0 & E0) & (T1 & R1 & E1)).
  destruct tu0 as [tu|]; cbn [deref raise ret]; [|reflexivity].
  rewrite R0, R1. cbn [a0 a1 parse_tree set_pos set_tokens new_parser]. rewrite Ht.
  cbn [declarations app].
  set (c0 := set_parse_tree _ b0). set (c1 := set_parse_tree _ b1).
  assert (S' : same_input c0 c1)
    by (split; cbn; [rewrite T0, T1; reflexivity | exact P]).
  pose proof (oblivious_done S') as D.
  destruct (done c0) as [d0 e0|g0|], (done c1) as [d1 e1|g1|];
    try contradiction; [| now subst | reflexivity].
  destruct D as (<- & P' & l' & (T0' & R0' & E0') & (T1' & R1' & E1')).
  assert (S'' : same_input e0 e1)
    by (split; [rewrite T0', T1'; apply S' | exact P']).
  destruct d0; cbn [negb ret].
  - exists e1, (mk_translation_unit_node (declarations tu)).
    rewrite R0', R1', E0', E1', T1'. cbn. rewrite E0, E1, T1. cbn.
    rewrite <- !app_assoc. repeat split; auto.
  - pose proof (oblivious_error "unexpected text at end of Cpp2 code section" S'') as F.
    destruct (error_ _ e0) as [[] h0|k0|], (error_ _ e1) as [[] h1|k1|];
      try contradiction; [| now subst | reflexivity].
    destruct F as (_ & P'' & l'' & (T0'' & R0'' & E0'') & (T1'' & R1'' & E1'')).
    exists h1, (mk_translation_unit_node (declarations tu)).
    rewrite R0'', R1'', E0'', E1'', T1'', R0', R1', E0', E1', T1'. cbn.
    rewrite E0, E1, T1. cbn.
    rewrite <- !app_assoc. repeat split; auto.
Qed.

(** The theorem at a parser that already holds a diagnostic, parsing
    [x : int ;]. *)
Lemma parse_depends_on_tokens_only_witness :
  parse_tree stray_paren_final = Some (mk_translation_unit_node [])
  /\ exists s,
       parse 5 object_declaration stray_paren_final = Ok true s
       /\ errors s = errors stray_paren_final.
Proof.
  split; [reflexivity|].
  pose proof (@parse_depends_on_tokens_only 5 object_declaration stray_paren_final
                (mk_translation_unit_node []) eq_refl) as H.
  destruct (parse 5 object_declaration (new_parser [])) as [b s0| |] eqn:E;
    [| discriminate E | discriminate E].
  destruct H as (s & t0 & Hs & _ & He & _).
  injection E as <- <-. exists s. split; [exact Hs|].
  rewrite He. apply app_nil_r.
Defined.

(* ===================================================================== *)
(** * The faults and the diagnostics of a [parse] call *)
(* ===================================================================== *)

Lemma reported_refl toks es : reported toks es es.
Proof. exists []. split; [now rewrite app_nil_r | constructor]. Qed.

Lemma reported_trans toks es es' es'' :
  reported toks es es' -> reported toks es' es'' -> reported toks es es''.
Proof.
  intros (l & -> & F) (l' & -> & F'). exists (l ++ l').
  split; [now rewrite app_assoc | now apply Forall_app].
Qed.

Lemma reported_snoc toks es es' e :
  at_token toks e -> reported toks es es' -> reported toks es (es' ++ [e]).
Proof.
  intros He H. eapply reported_trans; [exact H|].
  exists [e]. split; [reflexivity | now constructor].
Qed.

Lemma subscript_In {A} (l : list A) i a : subscript l i = Some a -> In a l.
Proof.
  unfold subscript. destruct (i <? 0); [discriminate|]. apply nth_error_In.
Qed.

Lemma at_token_error toks i c m :
  subscript toks i = Some c ->
  at_token toks (mk_error (position c) (m ++ " at " ++ to_string c)%string).
Proof.
  intros H. exists c. repeat split; [eapply subscript_In; exact H|].
  now exists m.
Qed.

Section clean.

Lemma clean_ret {A} (a : A) st (Q : A -> parser -> Prop) :
  Q a st -> clean (ret a) st Q.
Proof. exact (fun H => H). Qed.

Lemma clean_bind {A B} (m : M A) (k : A -> M B) st (Q : B -> parser -> Prop) :
  clean m st (fun a st' => clean (k a) st' Q) -> clean (bind m k) st Q.
Proof. unfold clean, bind. destruct (m st); auto. Qed.

Lemma clean_mono {A} (m : M A) st (Q Q' : A -> parser -> Prop) :
  clean m st Q -> (forall a st', Q a st' -> Q' a st') -> clean m st Q'.
Proof. unfold clean. destruct (m st); auto. Qed.

Lemma clean_out_of_fuel {A} st (Q : A -> parser -> Prop) : clean out_of_fuel st Q.
Proof. exact I. Qed.

Lemma clean_get_pos st (Q : Z -> parser -> Prop) :
  Q (pos st) st -> clean get_pos st Q.
Proof. exact (fun H => H). Qed.

Lemma clean_put_pos p st (Q : unit -> parser -> Prop) :
  Q tt (set_pos p st) -> clean (put_pos p) st Q.
Proof. exact (fun H => H). Qed.

(** A dereference is clean only of a pointer known not to be null. *)
Lemma clean_deref {A} (p : unique_ptr A) st (Q : A -> parser -> Prop) :
  p <> None -> (forall a, p = Some a -> Q a st) -> clean (deref p) st Q.
Proof. destruct p; cbn; [auto | congruence]. Qed.

Variable toks : list token.

Lemma clean_done st (Q : bool -> parser -> Prop) :
  valid toks st -> Q (pos st =? ssize toks) st -> clean done st Q.
Proof.
  intros [Ht Hp] HQ. unfold clean, done. rewrite Ht.
  destruct (Z.leb_spec (pos st) (ssize toks)); [exact HQ | lia].
Qed.

Lemma clean_curr st (Q : token -> parser -> Prop) :
  valid toks st ->
  (forall t, pos st < ssize toks -> subscript toks (pos st) = Some t -> Q t st) ->
  clean curr st Q.
Proof.
  intros [Ht Hp] HQ. unfold clean, curr, done. rewrite Ht.
  destruct (Z.leb_spec (pos st) (ssize toks)); [|lia].
  destruct (Z.eqb_spec (pos st) (ssize toks)); [reflexivity|].
  destruct (subscript_Some toks (i:=pos st)) as [t E]; [lia|].
  rewrite E. apply HQ; [lia | exact E].
Qed.

Lemma clean_next st (Q : unit -> parser -> Prop) :
  valid toks st -> Q tt (set_pos (Z.min (pos st + 1) (ssize toks)) st) ->
  clean (next 1) st Q.
Proof. intros [Ht Hp] HQ. unfold clean, next. rewrite Ht. exact HQ. Qed.

(** A [peek] is clean only where [pos + num] is not negative; it returns
    the token there. *)
Lemma clean_peek num st (Q : option token -> parser -> Prop) :
  valid toks st -> 0 <= pos st + num ->
  (forall r, (pos st + num < ssize toks -> r <> None) -> Q r st) ->
  clean (peek num) st Q.
Proof.
  intros [Ht Hp] Hn HQ. unfold clean, peek. rewrite Ht.
  destruct (Z.ltb_spec (pos st + num) (ssize toks)); [|apply HQ; lia].
  destruct (subscript_Some toks (i:=pos st + num)) as [t E]; [lia|].
  rewrite E. apply HQ. discriminate.
Qed.

Lemma clean_error m st (Q : unit -> parser -> Prop) :
  valid toks st ->
  (forall c, subscript toks (pos st) = Some c ->
     Q tt (emplace_back_error
             (mk_error (position c) (m ++ " at " ++ to_string c)%string) st)) ->
  clean (error_ m) st Q.
Proof.
  intros Hv HQ. unfold error_.
  apply clean_bind, clean_done; [exact Hv|].
  destruct (Z.eqb_spec (pos st) (ssize toks)); [reflexivity|].
  apply clean_bind, clean_curr; [exact Hv|]. intros t _ Ht.
  unfold clean. apply HQ, Ht.
Qed.

End clean.

Ltac kbreak :=
  repeat match goal with
    | H : kept _ _ _ |- _ => destruct H as (? & ? & ? & ?)
    | H : valid _ _ |- _ => destruct H as [? ?]
    | H : _ /\ _ |- _ => destruct H
    end.

(** Closes a goal on the error list. *)
Ltac krep :=
  solve [ repeat first
            [ eassumption
            | apply reported_refl
            | (apply reported_snoc; [eapply at_token_error; eassumption |])
            | (eapply reported_trans; [| eassumption]) ] ].

(** Closes the side conditions of the strict calculus. *)
Ltac kfin :=
  kbreak;
  cbv beta in *;
  unfold kept, valid;
  cbn [pos errors tokens_ parse_tree set_pos emplace_back_error set_tokens] in *;
  repeat split;
  first [ eassumption | lia | congruence | krep ].

Ltac clean_prim toks call :=
  lazymatch goal with
  | |- clean (bind _ _) _ _ => apply clean_bind
  | |- clean (ret _) _ _ => apply clean_ret
  | |- clean get_pos _ _ => apply clean_get_pos
  | |- clean (put_pos _) _ _ => apply clean_put_pos
  | |- clean done _ _ => apply (@clean_done toks); [solve [kfin] |]
  | |- clean curr _ _ => apply (@clean_curr toks); [solve [kfin] | intros]
  | |- clean (next 1) _ _ => apply (@clean_next toks); [solve [kfin] |]
  | |- clean (error_ _) _ _ => apply (@clean_error toks); [solve [kfin] | intros]
  | |- clean (if ?b then _ else _) _ _ => destruct b eqn:?
  | |- clean (match ?x with _ => _ end) _ _ => destruct x eqn:?
  | |- clean (let _ := _ in _) _ _ => cbv zeta
  | |- _ => call
  end.

Ltac kuse lem := eapply clean_mono; [eapply lem; kfin | cbv beta; intros].

Ltac krun toks call := repeat (cbv beta; clean_prim toks call); try solve [kfin].

(** One level of the grammar, given that the recursive entry points
    run clean. *)
Section discipline.
Variable toks : list token.
Variable fuel : nat.
Variable self : recursion.

Hypothesis self_expression_list : forall st,
  valid toks st -> clean (rec_expression_list self) st (fun _ => kept toks st).
Hypothesis self_statement : forall b st,
  valid toks st -> clean (rec_statement self b) st (fun _ => kept toks st).
Hypothesis self_declaration : forall b st,
  valid toks st -> clean (rec_declaration self b) st (fun _ => kept toks st).

Ltac k0 :=
  idtac;
  first [ kuse self_expression_list | kuse self_statement | kuse self_declaration ].

Ltac kloop IH :=
  let iter := fresh "iter" in
  intros iter; induction iter as [|iter IH]; intros;
  [ apply clean_out_of_fuel | ].

Lemma primary_expression_clean st :
  valid toks st ->
  clean (Grammar.primary_expression self) st (fun _ => kept toks st).
Proof. intros Hv. unfold Grammar.primary_expression. krun toks k0. Qed.

Lemma postfix_expression_loop_clean : forall iter n st,
  valid toks st ->
  clean (Grammar.postfix_expression_loop self iter n) st (fun _ => kept toks st).
Proof.
  kloop IH. cbn [Grammar.postfix_expression_loop].
  krun toks ltac:(idtac; first [kuse IH | k0]).
Qed.

Lemma postfix_expression_clean st :
  valid toks st ->
  clean (Grammar.postfix_expression fuel self) st (fun _ => kept toks st).
Proof.
  intros Hv. unfold Grammar.postfix_expression.
  krun toks ltac:(idtac; first [ kuse primary_expression_clean
                               | kuse postfix_expression_loop_clean ]).
Qed.

Lemma prefix_expression_loop_clean : forall iter ops st,
  valid toks st ->
  clean (Grammar.prefix_expression_loop iter ops) st (fun _ => kept toks st).
Proof.
  kloop IH. cbn [Grammar.prefix_expression_loop].
  krun toks ltac:(idtac; kuse IH).
Qed.

Lemma prefix_expression_clean st :
  valid toks st ->
  clean (Grammar.prefix_expression fuel self) st (fun _ => kept toks st).
Proof.
  intros Hv. unfold Grammar.prefix_expression.
  krun toks ltac:(idtac; first [ kuse postfix_expression_clean
                               | kuse prefix_expression_loop_clean ]).
Qed.

(** The binary template.  Its [peek(-1)] comes after a [next] from a
    cursor inside the sequence and a [term] that does not move back, so
    it looks at a token: it is in range and what it returns is not null. *)
Section binary.
Context {Name : string} {Term : Type}.
Variable is_valid_op : token -> bool.
Variable term : M (option Term).
Hypothesis term_clean : forall st,
  valid toks st -> clean term st (fun _ => kept toks st).

Lemma binary_expression_loop_clean : forall iter (n : binary_expression_node Name Term) st,
  valid toks st ->
  clean (Grammar.binary_expression_loop is_valid_op term iter n) st
    (fun _ => kept toks st).
Proof.
  kloop IH. cbn [Grammar.binary_expression_loop].
  krun toks ltac:(idtac; first [kuse IH | kuse term_clean]).
  apply (@clean_peek toks); [kfin | kfin | intros r Hr].
  apply clean_bind, clean_deref; [apply Hr; kfin | intros t' _].
  krun toks idtac.
Qed.

Lemma binary_expression_clean st :
  valid toks st ->
  clean (Grammar.binary_expression (Name:=Name) fuel is_valid_op term) st
    (fun _ => kept toks st).
Proof.
  intros Hv. unfold Grammar.binary_expression.
  krun toks ltac:(idtac; first [kuse binary_expression_loop_clean | kuse term_clean]).
Qed.
End binary.

Lemma assignment_expression_clean st :
  valid toks st ->
  clean (Grammar.assignment_expression fuel self) st (fun _ => kept toks st).
Proof.
  revert st.
  repeat (intros; apply binary_expression_clean; [|assumption]).
  apply prefix_expression_clean.
Qed.

Lemma expression_clean st :
  valid toks st ->
  clean (Grammar.expression fuel self) st (fun _ => kept toks st).
Proof.
  intros Hv. unfold Grammar.expression.
  krun toks ltac:(idtac; kuse assignment_expression_clean).
Qed.

Lemma out_marker_clean st :
  valid toks st -> clean Grammar.out_marker st (fun _ => kept toks st).
Proof. intros Hv. unfold Grammar.out_marker. krun toks idtac. Qed.

Ltac k4 := idtac; first [ kuse expression_clean | kuse out_marker_clean | k0 ].

Lemma expression_list_loop_clean : forall iter n st,
  valid toks st ->
  clean (Grammar.expression_list_loop fuel self iter n) st (fun _ => kept toks st).
Proof.
  kloop IH. cbn [Grammar.expression_list_loop].
  krun toks ltac:(idtac; first [kuse IH | k4]).
Qed.

Lemma expression_list_clean st :
  valid toks st ->
  clean (Grammar.expression_list fuel self) st (fun _ => kept toks st).
Proof.
  intros Hv. unfold Grammar.expression_list.
  krun toks ltac:(idtac; first [kuse expression_list_loop_clean | k4]).
Qed.

Lemma unqualified_id_clean st :
  valid toks st -> clean Grammar.unqualified_id st (fun _ => kept toks st).
Proof. intros Hv. unfold Grammar.unqualified_id. krun toks idtac. Qed.

Lemma qualified_id_loop_clean : forall iter n st,
  valid toks st ->
  clean (Grammar.qualified_id_loop iter n) st (fun _ => kept toks st).
Proof.
  kloop IH. cbn [Grammar.qualified_id_loop].
  krun toks ltac:(idtac; first [kuse IH | kuse unqualified_id_clean]).
Qed.

(** [qualified_id] may put the cursor back, but never before the position
    it saved on entry. *)
Lemma qualified_id_clean st :
  valid toks st ->
  clean (Grammar.qualified_id fuel) st (fun _ => kept toks st).
Proof.
  intros Hv. unfold Grammar.qualified_id.
  krun toks ltac:(idtac; first [ kuse qualified_id_loop_clean
                               | kuse unqualified_id_clean ]).
Qed.

Lemma id_expression_clean st :
  valid toks st ->
  clean (Grammar.id_expression fuel) st (fun _ => kept toks st).
Proof.
  intros Hv. unfold Grammar.id_expression.
  krun toks ltac:(idtac; first [ kuse qualified_id_clean
                               | kuse unqualified_id_clean ]).
Qed.

Lemma expression_statement_clean b st :
  valid toks st ->
  clean (Grammar.expression_statement fuel self b) st (fun _ => kept toks st).
Proof. intros Hv. unfold Grammar.expression_statement. krun toks k4. Qed.

Lemma compound_statement_loop_clean : forall iter n st,
  valid toks st ->
  clean (Grammar.compound_statement_loop self iter n) st (fun _ => kept toks st).
Proof.
  kloop IH. cbn [Grammar.compound_statement_loop].
  krun toks ltac:(idtac; first [kuse IH | k0]).
Qed.

Lemma compound_statement_clean st :
  valid toks st ->
  clean (Grammar.compound_statement fuel self) st (fun _ => kept toks st).
Proof.
  intros Hv. unfold Grammar.compound_statement.
  krun toks ltac:(idtac; kuse compound_statement_loop_clean).
Qed.

Lemma selection_statement_clean st :
  valid toks st ->
  clean (Grammar.selection_statement fuel self) st (fun _ => kept toks st).
Proof.
  intros Hv. unfold Grammar.selection_statement.
  krun toks ltac:(idtac; first [kuse compound_statement_clean | k4]).
Qed.

Lemma parameter_declaration_clean st :
  valid toks st ->
  clean (Grammar.parameter_declaration self) st (fun _ => kept toks st).
Proof. intros Hv. unfold Grammar.parameter_declaration. krun toks k0. Qed.

Lemma parameter_declaration_list_loop_clean : forall iter params st,
  valid toks st ->
  clean (Grammar.parameter_declaration_list_loop self iter params) st
    (fun _ => kept toks st).
Proof.
  kloop IH. cbn [Grammar.parameter_declaration_list_loop].
  krun toks ltac:(idtac; first [kuse IH | kuse parameter_declaration_clean]).
Qed.

Lemma parameter_declaration_list_clean st :
  valid toks st ->
  clean (Grammar.parameter_declaration_list fuel self) st (fun _ => kept toks st).
Proof.
  intros Hv. unfold Grammar.parameter_declaration_list.
  krun toks ltac:(idtac; kuse parameter_declaration_list_loop_clean).
Qed.

Lemma declaration_clean b st :
  valid toks st ->
  clean (Grammar.declaration fuel self b) st (fun _ => kept toks st).
Proof.
  intros Hv. unfold Grammar.declaration.
  krun toks ltac:(idtac; first [ kuse unqualified_id_clean
                               | kuse parameter_declaration_list_clean
                               | kuse id_expression_clean | k0 ]).
Qed.

Lemma statement_clean b st :
  valid toks st ->
  clean (Grammar.statement fuel self b) st (fun _ => kept toks st).
Proof.
  intros Hv. unfold Grammar.statement.
  krun toks ltac:(idtac; first [ kuse selection_statement_clean
                               | kuse compound_statement_clean
                               | kuse declaration_clean
                               | kuse expression_statement_clean ]).
Qed.

Lemma translation_unit_loop_clean : forall iter n st,
  valid toks st ->
  clean (Grammar.translation_unit_loop fuel self iter n) st
    (fun r st' => kept toks st st' /\ r <> None).
Proof.
  kloop IH. cbn [Grammar.translation_unit_loop].
  krun toks ltac:(idtac; first [kuse IH | kuse declaration_clean]).
Qed.

End discipline.

Lemma knot_clean toks (fuel : nat) :
  (forall st, valid toks st ->
     clean (rec_expression_list (knot fuel)) st (fun _ => kept toks st))
  /\ (forall b st, valid toks st ->
     clean (rec_statement (knot fuel) b) st (fun _ => kept toks st))
  /\ (forall b st, valid toks st ->
     clean (rec_declaration (knot fuel) b) st (fun _ => kept toks st)).
Proof.
  induction fuel as [|f (IHe & IHs & IHd)].
  - repeat split; intros; apply clean_out_of_fuel.
  - repeat split; intros; cbn [knot rec_expression_list rec_statement rec_declaration].
    + apply expression_list_clean; auto.
    + apply statement_clean; auto.
    + apply declaration_clean; auto.
Qed.

Lemma translation_unit_clean toks fuel st :
  valid toks st ->
  clean (translation_unit fuel) st (fun r st' => kept toks st st' /\ r <> None).
Proof.
  intros Hv. destruct (knot_clean toks fuel) as (He & Hs & Hd).
  unfold translation_unit, Grammar.translation_unit.
  exact (@translation_unit_loop_clean toks fuel (knot fuel) Hs Hd fuel _ st Hv).
Qed.

Lemma parse_clean toks fuel st0 :
  parse_tree st0 <> None ->
  clean (parse fuel toks) st0
    (fun _ st' => reported toks (errors st0) (errors st')).
Proof.
  intros Ht. unfold parse.
  apply clean_bind. unfold clean at 1.
  set (st1 := set_pos 0 (set_tokens toks st0)).
  assert (Hv : valid toks st1) by (split; [reflexivity | cbn; unfold ssize; lia]).
  apply clean_bind. eapply clean_mono; [apply translation_unit_clean; exact Hv|].
  cbv beta. intros tu st2 (Hk & Hn).
  apply clean_bind, clean_deref; [exact Hn|]. intros tu' _.
  apply clean_bind. unfold clean at 1.
  assert (Hp : parse_tree st2 = parse_tree st0) by (subst st1; kfin).
  destruct (parse_tree st2) as [t|]; [|congruence].
  set (st3 := set_parse_tree _ st2).
  assert (Hs3 : valid toks st3 /\ reported toks (errors st0) (errors st3))
    by (subst st1 st3; kfin).
  destruct Hs3 as [Hv3 Hr3].
  cbv beta. apply clean_bind, (@clean_done toks); [exact Hv3|].
  destruct (pos st3 =? ssize toks); cbn [negb].
  - apply clean_ret. exact Hr3.
  - apply clean_bind, (@clean_error toks); [exact Hv3|]. intros c Hc. apply clean_ret.
    cbn [errors emplace_back_error]. krep.
Qed.

(** X2.  A [parse] call on a parser that holds a tree stops abnormally in
    one way only, the failed [assert (!done())] of [curr] or [error]: no
    other assertion fails, no subscript is out of range (also not the
    [peek(-1)] of the binary layers) and no null pointer is dereferenced. *)
Theorem parse_faults_only_at_end fuel toks st f :
  parse_tree st <> None ->
  parse fuel toks st = Fault f ->
  f = assertion_failed "!done()".
Proof.
  intros Ht E. pose proof (@parse_clean toks fuel st Ht) as H.
  unfold clean in H. rewrite E in H. exact H.
Qed.

(** The theorem at [x : int], where the declaration looks for its
    semicolon past the last token. *)
Lemma parse_faults_only_at_end_witness :
  parse 4 (firstn 3 object_declaration) (new_parser [])
  = Fault (assertion_failed "!done()").
Proof.
  destruct (parse 4 (firstn 3 object_declaration) (new_parser [])) as [| f |] eqn:E;
    [discriminate E | | discriminate E].
  f_equal. apply (@parse_faults_only_at_end 4 (firstn 3 object_declaration)
                    (new_parser []) f); [discriminate | exact E].
Defined.

(** X3.  Every diagnostic that a [parse] call appends is located at a
    token of the sequence being parsed, and its message ends with
    [" at "] and the text of that token; the diagnostics held before the
    call are kept, in order, in front of them. *)
Theorem parse_reports_at_tokens fuel toks st b st' :
  parse fuel toks st = Ok b st' ->
  exists l, errors st' = errors st ++ l /\ Forall (at_token toks) l.
Proof.
  intros E.
  assert (Ht : parse_tree st <> None).
  { intros N. unfold parse, bind in E. cbn in E.
    destruct (translation_unit fuel _) as [tu s| |] eqn:T; try discriminate.
    destruct tu as [tu|]; cbn in E; try discriminate.
    pose proof (@translation_unit_clean toks fuel (set_pos 0 (set_tokens toks st))) as H.
    unfold clean in H. rewrite T in H.
    destruct H as [(_ & _ & Hp & _) _]; [split; [reflexivity | cbn; unfold ssize; lia]|].
    cbn in Hp. rewrite Hp, N in E. discriminate. }
  pose proof (@parse_clean toks fuel st Ht) as H.
  unfold clean in H. rewrite E in H. exact H.
Qed.

(** The theorem at [) ; ;], which is reported at its first token. *)
Lemma parse_reports_at_tokens_witness :
  exists l, errors stray_paren_final = [] ++ l /\ Forall (at_token stray_paren) l.
Proof.
  apply (@parse_reports_at_tokens 4 stray_paren (new_parser []) false stray_paren_final).
  vm_compute. reflexivity.
Defined.

(* ===================================================================== *)
(** * Runs of the cursor operations *)
(* ===================================================================== *)

Lemma subscript_0 {A} (a : A) l : subscript (a :: l) 0 = Some a.
Proof. reflexivity. Qed.

Lemma subscript_1 {A} (a b : A) l : subscript (a :: b :: l) 1 = Some b.
Proof. reflexivity. Qed.

Lemma ssize_cons {A} (a : A) l : ssize (a :: l) = ssize l + 1.
Proof. unfold ssize. cbn [List.length]. lia. Qed.

Lemma ssize_nonneg {A} (l : list A) : 0 <= ssize l.
Proof. unfold ssize. lia. Qed.

Lemma done_run toks st :
  tokens_ st = Some toks -> pos st <= ssize toks ->
  done st = Ok (pos st =? ssize toks) st.
Proof.
  intros Ht Hp. unfold done. rewrite Ht.
  destruct (Z.leb_spec (pos st) (ssize toks)); [reflexivity | lia].
Qed.

Lemma next_run toks st :
  tokens_ st = Some toks -> pos st < ssize toks ->
  next 1 st = Ok tt (set_pos (pos st + 1) st).
Proof.
  intros Ht Hp. unfold next. rewrite Ht. do 2 f_equal. lia.
Qed.

Lemma subscript_lt {A} (l : list A) i a : subscript l i = Some a -> 0 <= i < ssize l.
Proof.
  unfold subscript, ssize. destruct (Z.ltb_spec i 0); [discriminate|]. intros E.
  assert (Z.to_nat i < List.length l)%nat by (apply nth_error_Some; congruence). lia.
Qed.

Lemma error_run toks st t m :
  tokens_ st = Some toks -> subscript toks (pos st) = Some t ->
  error_ m st
  = Ok tt (emplace_back_error
             (mk_error (position t) (m ++ " at " ++ to_string t)%string) st).
Proof.
  intros Ht Hs. pose proof (subscript_lt _ _ Hs) as Hr.
  unfold error_, bind. rewrite (@done_run toks st Ht) by lia.
  destruct (Z.eqb_spec (pos st) (ssize toks)); [lia|].
  now rewrite (@curr_Ok toks st t Ht Hs).
Qed.

(* ===================================================================== *)
(** * Sections that hold no declaration *)
(* ===================================================================== *)

(** X4.  On an empty token sequence [parse] returns [true], reports
    nothing and leaves the stored tree as it was. *)
Theorem parse_empty fuel st t :
  parse_tree st = Some t ->
  exists st',
    parse (S fuel) [] st = Ok true st'
    /\ errors st' = errors st /\ parse_tree st' = Some t /\ pos st' = 0.
Proof.
  intros Ht. eexists. split.
  - unfold parse, bind. cbn. rewrite Ht. cbn. reflexivity.
  - cbn. rewrite app_nil_r. destruct t. repeat split.
Qed.

Lemma parse_empty_witness :
  exists st',
    parse 1 [] stray_paren_final = Ok true st'
    /\ errors st' = errors stray_paren_final
    /\ parse_tree st' = Some (mk_translation_unit_node []) /\ pos st' = 0.
Proof. apply (@parse_empty 0 stray_paren_final). reflexivity. Defined.

(** With the first token no name, or the second no colon, [declaration]
    returns nothing from the start of the sequence and leaves the parser
    as it found it. *)
Lemma declaration_not_ahead fuel self toks b st :
  no_declaration_ahead toks = true ->
  tokens_ st = Some toks -> pos st = 0 ->
  Grammar.declaration fuel self b st = Ok None st.
Proof.
  intros Hn Ht Hp.
  destruct toks as [|t rest]; [discriminate|].
  assert (Hsz : 0 <= ssize rest) by apply ssize_nonneg.
  assert (Hs : ssize (t :: rest) = ssize rest + 1) by apply ssize_cons.
  assert (Hc : curr st = Ok t st).
  { apply (@curr_Ok (t :: rest) st t Ht). rewrite Hp. reflexivity. }
  unfold Grammar.declaration, bind.
  rewrite (@done_run (t :: rest) st Ht) by lia.
  destruct (Z.eqb_spec (pos st) (ssize (t :: rest))); [lia|].
  unfold get_pos, Grammar.unqualified_id, bind. rewrite Hc.
  cbn [no_declaration_ahead] in Hn. unfold is_name in Hn.
  destruct (eq_type t Identifier) eqn:Ei, (eq_type t Keyword) eqn:Ek;
    cbn [negb andb orb] in *; try reflexivity.
  all: rewrite (@next_run (t :: rest) st Ht) by lia; cbn [ret].
  all: destruct rest as [|t' rest']; [discriminate Hn|].
  all: rewrite (@curr_Ok (t :: t' :: rest') _ t')
         by (cbn [tokens_ pos set_pos]; first [exact Ht | rewrite Hp; reflexivity]).
  all: rewrite Hn; cbn [put_pos ret set_pos].
  all: destruct st; reflexivity.
Qed.

(** X5.  A section whose tokens cannot begin a declaration (the first is
    no identifier or keyword, or the second is no colon) is rejected
    whole: [parse] returns [false], stores no declaration, leaves the
    cursor at the first token and appends exactly one diagnostic, at
    that token. *)
Theorem parse_no_declaration fuel toks st t first :
  parse_tree st = Some t ->
  no_declaration_ahead toks = true ->
  hd_error toks = Some first ->
  exists st',
    parse (S fuel) toks st = Ok false st'
    /\ errors st'
       = errors st
         ++ [mk_error (position first)
               ("unexpected text at end of Cpp2 code section at " ++ to_string first)]
    /\ parse_tree st' = Some t /\ pos st' = 0.
Proof.
  intros Ht Hn Hf.
  destruct toks as [|t0 rest]; [discriminate|]. injection Hf as ->.
  set (toks := first :: rest) in *.
  set (st1 := set_pos 0 (set_tokens toks st)).
  assert (Hd : Grammar.declaration (S fuel) (knot (S fuel)) true st1 = Ok None st1)
    by (apply (@declaration_not_ahead _ _ toks); [exact Hn | reflexivity | reflexivity]).
  assert (Hl : translation_unit (S fuel) st1
               = Ok (Some (mk_translation_unit_node [])) st1).
  { unfold translation_unit, Grammar.translation_unit.
    cbn [Grammar.translation_unit_loop]. unfold bind. now rewrite Hd. }
  eexists. split.
  - unfold parse, bind at 1 2. fold st1. rewrite Hl.
    cbn [deref]. unfold bind at 1 2, ret at 1. cbv beta iota.
    change (parse_tree st1) with (parse_tree st). rewrite Ht. unfold bind.
    set (st2 := set_parse_tree _ st1).
    pose proof (ssize_nonneg rest) as Hr.
    assert (Hs : ssize toks = ssize rest + 1) by apply ssize_cons.
    rewrite (@done_run toks st2 eq_refl) by (change (pos st2) with 0; lia).
    change (pos st2) with 0.
    destruct (Z.eqb_spec 0 (ssize toks)); [lia|].
    cbn [negb].
    rewrite (@error_run toks st2 first _ eq_refl eq_refl).
    reflexivity.
  - cbn. rewrite app_nil_r. destruct t. repeat split.
Qed.

(** The theorem at [) ; ;]. *)
Lemma parse_no_declaration_witness :
  exists st',
    parse 1 stray_paren (new_parser []) = Ok false st'
    /\ errors st'
       = [mk_error (mk_source_position 1 1)
            "unexpected text at end of Cpp2 code section at )"]
    /\ parse_tree st' = Some (mk_translation_unit_node []) /\ pos st' = 0.
Proof.
  exact (@parse_no_declaration 0 stray_paren (new_parser [])
           (mk_translation_unit_node []) (tok RightParen ")" 1)
           eq_refl eq_refl eq_refl).
Defined.

(* ===================================================================== *)
(** * The shape of the nodes returned *)
(* ===================================================================== *)

Lemma yields_ret {A} (a : A) (P : A -> Prop) : P a -> yields (ret a) P.
Proof. intros H st a' st' E. injection E as <- _. exact H. Qed.

Lemma yields_bind {A B} (m : M A) (k : A -> M B) (P : A -> Prop) (Q : B -> Prop) :
  yields m P -> (forall a, P a -> yields (k a) Q) -> yields (bind m k) Q.
Proof.
  intros Hm Hk st b st' E. unfold bind in E.
  destruct (m st) as [a s| |] eqn:Em; try discriminate.
  exact (Hk a (Hm _ _ _ Em) _ _ _ E).
Qed.

Lemma yields_any {A} (m : M A) : yields m (fun _ => True).
Proof. intros st a st' _. exact I. Qed.

Lemma yields_skip {A B} (m : M A) (k : A -> M B) (Q : B -> Prop) :
  (forall a, yields (k a) Q) -> yields (bind m k) Q.
Proof. intros Hk. apply yields_bind with (P := fun _ => True); [apply yields_any | auto]. Qed.

Lemma yields_mono {A} (m : M A) (P Q : A -> Prop) :
  yields m P -> (forall a, P a -> Q a) -> yields m Q.
Proof. intros H HPQ st a st' E. exact (HPQ _ (H _ _ _ E)). Qed.

Lemma yields_raise {A} f (P : A -> Prop) : yields (raise f) P.
Proof. intros st a st' E. discriminate E. Qed.

Lemma yields_out_of_fuel {A} (P : A -> Prop) : yields out_of_fuel P.
Proof. intros st a st' E. discriminate E. Qed.

Lemma grown_refl {A} (xs : list A) P : grown xs xs P.
Proof. exists []. split; [now rewrite app_nil_r | constructor]. Qed.

Lemma grown_snoc {A} (xs ys : list A) x (P : A -> Prop) :
  P x -> grown (xs ++ [x]) ys P -> grown xs ys P.
Proof.
  intros Hx (l & -> & F). exists (x :: l). split; [now rewrite <- app_assoc | now constructor].
Qed.

Lemma grown_Forall {A} (xs ys : list A) (P : A -> Prop) :
  Forall P xs -> grown xs ys P -> Forall P ys.
Proof. intros F (l & -> & F'). now apply Forall_app. Qed.

(** Descend through a production body: a call is stepped over with what
    [call] knows of it, or else with nothing. *)
Ltac yields_step call :=
  lazymatch goal with
  | |- yields (bind _ _) _ =>
      first [ eapply yields_bind; [solve [call] | cbv beta; intros ? ?]
            | apply yields_skip; intros ? ]
  | |- yields (ret _) _ => apply yields_ret
  | |- yields (raise _) _ => apply yields_raise
  | |- yields out_of_fuel _ => apply yields_out_of_fuel
  | |- yields (if ?b then _ else _) _ => destruct b eqn:?
  | |- yields (match ?x with _ => _ end) _ => destruct x eqn:?
  | |- yields (let _ := _ in _) _ => cbv zeta
  | |- _ => call
  end.

Ltac yields_run call := repeat yields_step call.

Ltac yields_loop IH :=
  let iter := fresh "iter" in
  intros iter; induction iter as [|iter IH]; intros;
  [ apply yields_out_of_fuel | ].

Section shapes.
Variable fuel : nat.
Variable self : recursion.

(** The loops only ever append to the node they build. *)
Lemma postfix_expression_loop_shape : forall iter n,
  yields (Grammar.postfix_expression_loop self iter n)
    (fun r => exists n', r = Some n' /\ postfix_expr n' = postfix_expr n).
Proof.
  yields_loop IH. cbn [Grammar.postfix_expression_loop].
  yields_run ltac:(idtac; fail).
  - eapply yields_mono; [apply IH|]. cbv beta. intros r (n' & -> & E). eauto.
  - eauto.
Qed.

Section binary.
Context {Name : string} {Term : Type}.
Variable is_valid_op : token -> bool.
Variable term : M (option Term).

Lemma binary_expression_loop_shape : forall iter (n : binary_expression_node Name Term),
  yields (Grammar.binary_expression_loop is_valid_op term iter n)
    (fun r => exists n', r = Some n' /\ binary_expr n' = binary_expr n
                         /\ grown (binary_terms n) (binary_terms n')
                              (sound_term is_valid_op)).
Proof.
  yields_loop IH. cbn [Grammar.binary_expression_loop].
  yields_run ltac:(idtac; fail).
  - eapply yields_mono; [apply IH|]. cbv beta. intros r (n' & -> & E & G).
    exists n'. repeat split; [exact E|].
    eapply grown_snoc; [|exact G]. split; [assumption | discriminate].
  - exists n. repeat split. apply grown_refl.
  - exists n. repeat split. apply grown_refl.
Qed.

Lemma binary_expression_shape :
  yields (Grammar.binary_expression (Name:=Name) fuel is_valid_op term)
    (fun r => forall n, r = Some n ->
       present (binary_expr n)
       /\ Forall (sound_term is_valid_op) (binary_terms n)).
Proof.
  unfold Grammar.binary_expression.
  yields_run ltac:(idtac; fail).
  - eapply yields_mono; [apply binary_expression_loop_shape|]. cbv beta.
    intros r (n' & -> & E & G) n [= <-]. split.
    + rewrite E. discriminate.
    + eapply grown_Forall; [|exact G]. constructor.
  - discriminate.
Qed.
End binary.

Lemma expression_list_loop_shape : forall iter n,
  yields (Grammar.expression_list_loop fuel self iter n)
    (fun r => exists n', r = Some n'
                         /\ grown (expressions n) (expressions n') (fun _ => True)).
Proof.
  yields_loop IH. cbn [Grammar.expression_list_loop].
  yields_run ltac:(idtac; fail).
  - eapply yields_mono; [apply IH|]. cbv beta. intros r (n' & -> & G).
    exists n'. split; [reflexivity|]. eapply grown_snoc; [|exact G]. exact I.
  - exists n. split; [reflexivity | apply grown_refl].
Qed.

Lemma qualified_id_loop_shape : forall iter n,
  yields (Grammar.qualified_id_loop iter n)
    (fun r => forall n', r = Some n' -> grown (ids n) (ids n') present).
Proof.
  yields_loop IH. cbn [Grammar.qualified_id_loop].
  yields_run ltac:(idtac; fail).
  - eapply yields_mono; [apply IH|]. cbv beta. intros r G n' E.
    eapply grown_snoc; [|exact (G n' E)]. discriminate.
  - discriminate.
  - intros n' [= <-]. apply grown_refl.
Qed.

Lemma compound_statement_loop_shape : forall iter n,
  yields (Grammar.compound_statement_loop self iter n)
    (fun r => forall n', r = Some n' ->
       compound_pos n' = compound_pos n
       /\ grown (statements n) (statements n') present).
Proof.
  yields_loop IH. cbn [Grammar.compound_statement_loop].
  yields_run ltac:(idtac; fail).
  - eapply yields_mono; [apply IH|]. cbv beta. intros r G n' E.
    destruct (G n' E) as [P G']. split; [exact P|].
    eapply grown_snoc; [|exact G']. discriminate.
  - discriminate.
  - intros n' [= <-]. split; [reflexivity | apply grown_refl].
Qed.

Lemma parameter_declaration_list_loop_shape : forall iter params,
  yields (Grammar.parameter_declaration_list_loop self iter params)
    (fun r => forall params', r = Some params' -> grown params params' present).
Proof.
  yields_loop IH. cbn [Grammar.parameter_declaration_list_loop].
  yields_run ltac:(idtac; fail).
  - intros params' [= <-]. eapply grown_snoc; [|apply grown_refl]. discriminate.
  - discriminate.
  - eapply yields_mono; [apply IH|]. cbv beta. intros r G n' E.
    eapply grown_snoc; [|exact (G n' E)]. discriminate.
  - intros params' [= <-]. apply grown_refl.
Qed.

Lemma translation_unit_loop_shape : forall iter n,
  yields (Grammar.translation_unit_loop fuel self iter n)
    (fun r => exists n', r = Some n'
                         /\ grown (declarations n) (declarations n') present).
Proof.
  yields_loop IH. cbn [Grammar.translation_unit_loop].
  yields_run ltac:(idtac; fail).
  - eapply yields_mono; [apply IH|]. cbv beta. intros r (n' & -> & G).
    exists n'. split; [reflexivity|]. eapply grown_snoc; [|exact G]. discriminate.
  - exists n. split; [reflexivity | apply grown_refl].
Qed.

End shapes.

(* ===================================================================== *)
(** * The position of the nodes returned *)
(* ===================================================================== *)

Lemma located_None {A} `{Positioned A} exc toks st st' :
  located exc toks st (@None A) st'.
Proof. intros n E. discriminate E. Qed.

(** The position of a node made from the token under the cursor. *)
Lemma located_here {A} `{Positioned A} exc toks st (n : A) st' t :
  subscript toks (pos st) = Some t -> pos st < pos st' ->
  position_of n = Some (position t) ->
  located exc toks st (Some n) st'.
Proof.
  intros Hs Hp Hn n' [= <-]. exists (pos st), t.
  repeat split; try assumption; lia.
Qed.

(** The position of a node is that of a node returned further in: by a
    call from the same cursor, or after an excepted lead token. *)
Lemma located_within {A B} `{Positioned A} `{Positioned B}
  exc exc' toks st st1 st2 st' (m : A) (n : B) :
  located exc toks st1 (Some m) st2 ->
  position_of n = position_of m ->
  pos st <= pos st1 -> pos st2 <= pos st' ->
  (forall t0, subscript toks (pos st) = Some t0 -> exc' t0 = false ->
     pos st1 = pos st /\ exc t0 = false) ->
  located exc' toks st (Some n) st'.
Proof.
  intros Hm Hn Hle Hle' Hx n' [= <-].
  destruct (Hm m eq_refl) as (i & t & Hr & Hs & Hp & He).
  exists i, t. repeat split; try lia; try assumption; try congruence.
  intros t0 Ht0 Hf. destruct (Hx t0 Ht0 Hf) as [E Hf'].
  rewrite <- E. apply (He t0); [rewrite E; exact Ht0 | exact Hf'].
Qed.

Lemma wp_yields {A} (m : M A) st (Q : A -> parser -> Prop) (P : A -> Prop) :
  wp True m st Q -> yields m P -> wp True m st (fun r st' => Q r st' /\ P r).
Proof.
  unfold wp. intros H Y. destruct (m st) as [a st'| |] eqn:E; auto.
  split; [exact H | exact (Y _ _ _ E)].
Qed.

Ltac cuse lem :=
  eapply wp_mono; [eapply lem; side | cbv beta; intros; unfold sited in * ].

Section positions.
Variable toks : list token.
Variable fuel : nat.
Variable self : recursion.

Hypothesis self_expression_list : forall st,
  valid toks st ->
  wp True (rec_expression_list self) st (sited opens_or_marks toks st).
Hypothesis self_statement : forall b st,
  valid toks st ->
  wp True (rec_statement self b) st (sited (fun _ => true) toks st).
Hypothesis self_declaration : forall b st,
  valid toks st ->
  wp True (rec_declaration self b) st (sited (fun _ => false) toks st).

Ltac c0 :=
  idtac;
  first [ cuse self_expression_list | cuse self_statement | cuse self_declaration ].

Ltac cloop IH :=
  let iter := fresh "iter" in
  intros iter; induction iter as [|iter IH]; intros;
  [ apply wp_out_of_fuel; exact I | ].

(** Splits the goal of a leaf; the first part is arithmetic. *)
Ltac leaf := unfold sited; (split; [solve [side] |]); try apply located_None.

(** The lead token is excepted. *)
Ltac excepted :=
  let t0 := fresh "t0" in
  let Hs := fresh "Hs" in
  let Hf := fresh "Hf" in
  intros t0 Hs Hf; exfalso;
  match goal with
  | H : subscript _ _ = Some ?t, E : type ?t = _ |- _ =>
      rewrite H in Hs; injection Hs as <-;
      unfold opens, opens_or_marks, eq_type in Hf; rewrite E in Hf;
      discriminate Hf
  end.

Lemma primary_expression_sited st :
  valid toks st ->
  wp True (Grammar.primary_expression self) st (sited opens toks st).
Proof.
  intros Hv. unfold Grammar.primary_expression. run toks c0.
  all: leaf.
  all: try (eapply located_here; [ | | reflexivity]; [eassumption | side]).
  destruct H1 as [Hp Hl].
  eapply located_within; [exact Hl | reflexivity | side | side | excepted].
Qed.

Lemma postfix_expression_loop_sited : forall iter n st,
  valid toks st ->
  wp True (Grammar.postfix_expression_loop self iter n) st
     (fun r st' => steady toks st st'
                   /\ exists n', r = Some n' /\ postfix_expr n' = postfix_expr n).
Proof.
  intros. apply wp_yields; [|apply postfix_expression_loop_shape].
  revert iter n st H. cloop IH. cbn [Grammar.postfix_expression_loop].
  run toks ltac:(idtac; first [use IH | c0]).
Qed.

Lemma postfix_expression_sited st :
  valid toks st ->
  wp True (Grammar.postfix_expression fuel self) st (sited opens toks st).
Proof.
  intros Hv. unfold Grammar.postfix_expression.
  run toks ltac:(idtac; first [ cuse primary_expression_sited
                              | cuse postfix_expression_loop_sited ]).
  all: try solve [leaf].
  destruct H as [Hp Hl], H0 as (Hs & n' & -> & En). leaf.
  eapply located_within; [exact Hl | | side | side | intros; split; [reflexivity | assumption]].
  destruct n'. cbn in En. subst. reflexivity.
Qed.

(** The prefix operators collected are the tokens from the entry
    position on. *)
Lemma prefix_expression_loop_sited : forall iter ops st,
  valid toks st ->
  wp True (Grammar.prefix_expression_loop iter ops) st
     (fun ops' st' =>
        steady toks st st'
        /\ ((ops' = ops /\ pos st' = pos st)
            \/ exists c l, subscript toks (pos st) = Some c
                           /\ ops' = ops ++ c :: l /\ pos st < pos st')).
Proof.
  cloop IH. cbn [Grammar.prefix_expression_loop].
  run toks ltac:(idtac; fail).
  - eapply wp_mono; [apply IH; side|]. cbv beta. intros ops' st' (Hs & Hc).
    split; [side|]. right. exists t.
    destruct Hc as [(-> & Hp) | (c & l & _ & -> & Hp)].
    + exists []. repeat split; [assumption | side].
    + exists (c :: l). rewrite <- app_assoc. repeat split; [assumption | side].
  - split; [side|]. left. split; reflexivity.
Qed.

Lemma prefix_expression_sited st :
  valid toks st ->
  wp True (Grammar.prefix_expression fuel self) st (sited opens toks st).
Proof.
  intros Hv. unfold Grammar.prefix_expression.
  run toks ltac:(idtac; first [ cuse postfix_expression_sited
                              | cuse prefix_expression_loop_sited ]).
  all: try solve [leaf].
  destruct H as (Hs & Hc), H0 as [Hp Hl]. leaf.
  destruct Hc as [(-> & Hq) | (c & l & Hc & -> & Hq)].
  - eapply located_within;
      [exact Hl | reflexivity | side | side | intros; split; assumption].
  - eapply located_here; [exact Hc | side | reflexivity].
Qed.

Section binary.
Context {Name : string} {Term : Type} `{Positioned Term}.
Variable is_valid_op : token -> bool.
Variable term : M (option Term).
Hypothesis term_sited : forall st,
  valid toks st -> wp True term st (sited opens toks st).

Lemma binary_expression_loop_sited : forall iter (n : binary_expression_node Name Term) st,
  valid toks st ->
  wp True (Grammar.binary_expression_loop is_valid_op term iter n) st
     (fun r st' => steady toks st st'
                   /\ exists n', r = Some n' /\ binary_expr n' = binary_expr n
                        /\ grown (binary_terms n) (binary_terms n')
                             (sound_term is_valid_op)).
Proof.
  intros. apply wp_yields; [|apply binary_expression_loop_shape].
  revert iter n st H0. cloop IH. cbn [Grammar.binary_expression_loop].
  run toks ltac:(idtac; first [use IH | cuse term_sited]).
Qed.

Lemma binary_expression_sited st :
  valid toks st ->
  wp True (Grammar.binary_expression (Name:=Name) fuel is_valid_op term) st
     (sited opens toks st).
Proof.
  intros Hv. unfold Grammar.binary_expression.
  run toks ltac:(idtac; first [cuse binary_expression_loop_sited | cuse term_sited]).
  all: try solve [leaf].
  destruct H0 as [Hp Hl], H1 as (Hs & n' & -> & En & _). leaf.
  eapply located_within;
    [exact Hl | | side | side | intros; split; [reflexivity | assumption]].
  destruct n'. cbn in En. subst. reflexivity.
Qed.
End binary.

Lemma assignment_expression_sited st :
  valid toks st ->
  wp True (Grammar.assignment_expression fuel self) st (sited opens toks st).
Proof.
  revert st.
  repeat (intros; apply binary_expression_sited; [|assumption]).
  apply prefix_expression_sited.
Qed.

Lemma expression_sited st :
  valid toks st ->
  wp True (Grammar.expression fuel self) st (sited opens toks st).
Proof.
  intros Hv. unfold Grammar.expression.
  run toks ltac:(idtac; cuse assignment_expression_sited).
  all: try solve [leaf].
  destruct H as [Hp Hl]. leaf.
  eapply located_within;
    [exact Hl | reflexivity | side | side | intros; split; [reflexivity | assumption]].
Qed.

(** The [out] marker moves the cursor by one token, and only if the
    token under it is the marker. *)
Lemma out_marker_sited st :
  valid toks st ->
  wp True Grammar.out_marker st
     (fun _ st' =>
        steady toks st st' /\ pos st' <= pos st + 1
        /\ forall t0, subscript toks (pos st) = Some t0 ->
                      opens_or_marks t0 = false -> pos st' = pos st).
Proof.
  intros Hv. unfold Grammar.out_marker. run toks c0.
  repeat split; try solve [side]. intros t0 Hs Hf. exfalso.
  rewrite H0 in Hs. injection Hs as <-. unfold opens_or_marks in Hf.
  rewrite Heqb in Hf. now rewrite orb_true_r in Hf.
Qed.

Lemma expression_list_loop_sited : forall iter n st,
  valid toks st ->
  wp True (Grammar.expression_list_loop fuel self iter n) st
     (fun r st' => steady toks st st'
                   /\ exists n', r = Some n'
                        /\ grown (expressions n) (expressions n') (fun _ => True)).
Proof.
  intros. apply wp_yields; [|apply expression_list_loop_shape].
  revert iter n st H. cloop IH. cbn [Grammar.expression_list_loop].
  run toks ltac:(idtac; first [ use IH | cuse expression_sited
                              | cuse out_marker_sited ]).
Qed.

Lemma expression_list_sited st :
  valid toks st ->
  wp True (Grammar.expression_list fuel self) st (sited opens_or_marks toks st).
Proof.
  intros Hv. unfold Grammar.expression_list.
  run toks ltac:(idtac; first [ cuse expression_list_loop_sited
                              | cuse expression_sited | cuse out_marker_sited ]).
  all: try solve [leaf].
  destruct H as (Hs & Hle & Hm), H0 as [Hp Hl], H1 as (Hs' & n' & -> & l & El & _).
  leaf.
  eapply located_within; [exact Hl | | side | side |].
  - destruct n'. cbn in El. subst. reflexivity.
  - intros t0 Ht0 Hf. split; [exact (Hm t0 Ht0 Hf)|].
    unfold opens_or_marks in Hf. unfold opens.
    now apply orb_false_iff in Hf.
Qed.

(** [unqualified_id] returns the token under the cursor when it is a
    name, and otherwise nothing, leaving the cursor there. *)
Lemma unqualified_id_sited st :
  valid toks st ->
  wp True Grammar.unqualified_id st
     (fun r st' =>
        sited (fun _ => false) toks st r st'
        /\ exists c, subscript toks (pos st) = Some c
                     /\ if is_name c then r = Some (mk_unqualified_id_node c)
                        else r = None /\ pos st' = pos st).
Proof.
  intros Hv. unfold Grammar.unqualified_id. run toks c0.
  - split; [leaf|]. exists t. split; [assumption|]. unfold is_name.
    apply andb_prop in Heqb. destruct Heqb as [Ei Ek].
    apply negb_true_iff in Ei, Ek. rewrite Ei, Ek. split; reflexivity.
  - split.
    + leaf. eapply located_here; [ | | reflexivity]; [eassumption | side].
    + exists t. split; [assumption|]. unfold is_name.
      apply andb_false_iff in Heqb.
      destruct Heqb as [E|E]; apply negb_false_iff in E; rewrite E;
        [reflexivity | now rewrite orb_true_r].
Qed.

Lemma qualified_id_loop_sited : forall iter n st,
  valid toks st ->
  wp True (Grammar.qualified_id_loop iter n) st
     (fun r st' =>
        (steady toks st st'
         /\ (r = None -> exists c, subscript toks (pos st') = Some c
                                   /\ is_name c = false))
        /\ forall n', r = Some n' -> grown (ids n) (ids n') present).
Proof.
  intros. apply wp_yields; [|apply qualified_id_loop_shape].
  revert iter n st H. cloop IH. cbn [Grammar.qualified_id_loop].
  run toks ltac:(idtac; first [cuse IH | cuse unqualified_id_sited]).
  destruct H2 as [[Hp _] (c & Hc & Hn)].
  destruct (is_name c) eqn:Hname; [discriminate Hn|]. destruct Hn as [_ Hq].
  split; [side|]. intros _. exists c. cbn [pos emplace_back_error].
  rewrite Hq. split; assumption.
Qed.

(** [qualified_id] returns nothing with the cursor where it was, or at a
    token that is no name. *)
Lemma qualified_id_sited st :
  valid toks st ->
  wp True (Grammar.qualified_id fuel) st
     (fun r st' =>
        sited (fun _ => false) toks st r st'
        /\ (r = None -> pos st' = pos st
                        \/ exists c, subscript toks (pos st') = Some c
                                     /\ is_name c = false)).
Proof.
  intros Hv. unfold Grammar.qualified_id.
  run toks ltac:(idtac; first [cuse qualified_id_loop_sited | cuse unqualified_id_sited]).
  destruct H as [[Hp Hl] _], H2 as [[Hs Hn] Hg].
    split; [|intros ->; right; exact (Hn eq_refl)].
    split; [side|].
    match goal with
    | |- located _ _ _ ?r _ => destruct r as [n'|]; [|apply located_None]
    end.
    destruct (Hg n' eq_refl) as (l & El & _).
    eapply located_within; [exact Hl | | side | side | intros; split; reflexivity].
    unfold position_of, qualified_id_positioned, position_qualified_id.
    rewrite El. reflexivity.
Qed.

(** Entered at a [::], the loop of [qualified_id] appends a name or
    returns nothing. *)
Lemma qualified_id_loop_grows iter n st :
  valid toks st ->
  wp True (Grammar.qualified_id_loop iter n) st
     (fun r _ =>
        forall c, subscript toks (pos st) = Some c -> eq_type c Scope = true ->
        forall n', r = Some n' ->
          (List.length (ids n) < List.length (ids n'))%nat
          /\ grown (ids n) (ids n') present).
Proof.
  intros Hv. destruct iter as [|iter]; [apply wp_out_of_fuel; exact I|].
  cbn [Grammar.qualified_id_loop].
  run toks ltac:(idtac; first [ cuse unqualified_id_sited ]).
  eapply wp_mono; [apply wp_run; intros a' s' E; exact E|]. cbv beta.
  intros r s' E c Hc _ n' ->.
  pose proof (@qualified_id_loop_shape iter _ _ _ _ E n' eq_refl) as G.
  split; [|eapply grown_snoc; [|exact G]; discriminate].
  destruct G as (l & -> & _). cbn [ids]. rewrite !length_app. cbn. lia.
Qed.

Lemma qualified_id_shaped st :
  valid toks st ->
  wp True (Grammar.qualified_id fuel) st
     (fun r _ => forall n, r = Some n ->
        (2 <= List.length (ids n))%nat /\ Forall present (ids n)).
Proof.
  intros Hv. unfold Grammar.qualified_id.
  run toks ltac:(idtac; first [cuse qualified_id_loop_grows | cuse unqualified_id_sited]).
  all: try discriminate.
  apply negb_false_iff in Heqb.
  destruct (H2 t H1 Heqb n H3) as [Hlen G]. cbn in Hlen. split; [lia|].
  eapply grown_Forall; [|exact G]. constructor; [discriminate | constructor].
Qed.

Lemma id_expression_sited st :
  valid toks st ->
  wp True (Grammar.id_expression fuel) st (sited (fun _ => false) toks st).
Proof.
  intros Hv. unfold Grammar.id_expression.
  run toks ltac:(idtac; first [cuse qualified_id_sited | cuse unqualified_id_sited]).
  all: try solve [leaf].
  - destruct H as [[Hp Hl] _]. leaf.
    eapply located_within;
      [exact Hl | reflexivity | side | side | intros; split; reflexivity].
  - destruct H as [[Hp _] Hn]. pose proof H0 as [[Hp' Hl] _]. leaf.
    destruct (Hn eq_refl) as [Hq | (c & Hc & Hname)].
    + eapply located_within;
        [exact Hl | reflexivity | side | side | intros; split; [exact Hq | reflexivity]].
    + exfalso. destruct H0 as (_ & c' & Hc' & Hu). rewrite Hc in Hc'.
      injection Hc' as <-. rewrite Hname in Hu. destruct Hu as [Hu _].
      discriminate Hu.
Qed.

Lemma expression_statement_sited b st :
  valid toks st ->
  wp True (Grammar.expression_statement fuel self b) st (sited opens toks st).
Proof.
  intros Hv. unfold Grammar.expression_statement.
  run toks ltac:(idtac; cuse expression_sited).
  all: try solve [leaf].
  all: destruct H as [Hp Hl]; leaf.
  all: eapply located_within;
    [exact Hl | reflexivity | side | side | intros; split; [reflexivity | assumption]].
Qed.

Lemma compound_statement_loop_sited : forall iter n st,
  valid toks st ->
  wp True (Grammar.compound_statement_loop self iter n) st
     (fun r st' =>
        steady toks st st'
        /\ forall n', r = Some n' ->
             compound_pos n' = compound_pos n
             /\ grown (statements n) (statements n') present).
Proof.
  intros. apply wp_yields; [|apply compound_statement_loop_shape].
  revert iter n st H. cloop IH. cbn [Grammar.compound_statement_loop].
  run toks ltac:(idtac; first [use IH | c0]).
Qed.

Lemma compound_statement_sited st :
  valid toks st ->
  wp True (Grammar.compound_statement fuel self) st (sited (fun _ => false) toks st).
Proof.
  intros Hv. unfold Grammar.compound_statement.
  run toks ltac:(idtac; cuse compound_statement_loop_sited).
  all: try solve [leaf].
  destruct H1 as [Hs Hn]. leaf.
  match goal with
  | |- located _ _ _ ?r _ => destruct r as [n'|]; [|apply located_None]
  end.
  destruct (Hn n' eq_refl) as [Ep _].
  eapply located_here; [eassumption | side |].
  unfold position_of, compound_statement_positioned, position_compound_statement.
  now rewrite Ep.
Qed.

Lemma selection_statement_sited st :
  valid toks st ->
  wp True (Grammar.selection_statement fuel self) st (sited (fun _ => false) toks st).
Proof.
  intros Hv. unfold Grammar.selection_statement.
  run toks ltac:(idtac; first [cuse compound_statement_sited | cuse expression_sited]).
  all: try solve [leaf].
  all: leaf; eapply located_here; [ | | reflexivity]; [eassumption | side].
Qed.

Lemma parameter_declaration_sited st :
  valid toks st ->
  wp True (Grammar.parameter_declaration self) st (sited (fun _ => false) toks st).
Proof.
  intros Hv. unfold Grammar.parameter_declaration. run toks c0.
  all: try solve [leaf].
  all: leaf; eapply located_here; [ | | reflexivity]; [eassumption | side].
Qed.

Lemma parameter_declaration_list_loop_sited : forall iter params st,
  valid toks st ->
  wp True (Grammar.parameter_declaration_list_loop self iter params) st
     (fun r st' =>
        steady toks st st'
        /\ forall params', r = Some params' -> grown params params' present).
Proof.
  intros. apply wp_yields; [|apply parameter_declaration_list_loop_shape].
  revert iter params st H. cloop IH. cbn [Grammar.parameter_declaration_list_loop].
  run toks ltac:(idtac; first [use IH | cuse parameter_declaration_sited]).
Qed.

(** [position()] of a parameter list asserts that the list has a first
    parameter: it gives the position of the opening parenthesis for a
    list with parameters, and fails for the list of [( )]. *)
Lemma parameter_declaration_list_sited st :
  valid toks st ->
  wp True (Grammar.parameter_declaration_list fuel self) st
     (fun r st' =>
        post toks st r st'
        /\ forall n, r = Some n ->
             exists t, subscript toks (pos st) = Some t
                       /\ position_of n
                          = match parameters n with
                            | [] => None
                            | _ => Some (position t)
                            end).
Proof.
  intros Hv. unfold Grammar.parameter_declaration_list.
  run toks ltac:(idtac; cuse parameter_declaration_list_loop_sited).
  all: try solve [split; [side | discriminate]].
  destruct H1 as [Hs Hg]. split; [side|]. intros n [= <-].
  exists t. split; [assumption|].
  destruct (Hg _ eq_refl) as (l' & -> & F). cbn [app parameters].
  unfold position_of, parameter_declaration_list_positioned.
  cbn [position_parameter_declaration_list].
  destruct l' as [|p l']; [reflexivity|].
  inversion F as [|? ? Hp' _]; subst. destruct p; [reflexivity | now elim Hp'].
Qed.

Lemma declaration_sited b st :
  valid toks st ->
  wp True (Grammar.declaration fuel self b) st (sited (fun _ => false) toks st).
Proof.
  intros Hv. unfold Grammar.declaration.
  run toks ltac:(idtac; first [ cuse unqualified_id_sited
                              | cuse parameter_declaration_list_sited
                              | cuse id_expression_sited | c0 ]).
  all: try solve [leaf].
  all: match goal with
       | H : (post _ _ (Some _) _ /\ located _ _ _ (Some _) _) /\ _ |- _ =>
           destruct H as [[Hp Hl] _]
       end.
  all: leaf.
  all: eapply located_within;
    [exact Hl | reflexivity | side | side | intros; split; reflexivity].
Qed.

Lemma statement_sited b st :
  valid toks st ->
  wp True (Grammar.statement fuel self b) st (sited (fun _ => true) toks st).
Proof.
  intros Hv. unfold Grammar.statement.
  run toks ltac:(idtac; first [ cuse selection_statement_sited
                              | cuse compound_statement_sited
                              | cuse declaration_sited
                              | cuse expression_statement_sited ]).
  all: try solve [leaf].
  all: leaf.
  all: match goal with
       | H : post _ _ (Some ?x) _ /\ located _ _ _ (Some ?x) _
         |- located _ _ _ (Some (_ (Some ?x))) _ =>
           destruct H as [Hp Hl];
           eapply located_within;
             [exact Hl | reflexivity | side | side | intros ? ? Hf; discriminate Hf]
       end.
Qed.

End positions.
Lemma knot_sited toks (fuel : nat) :
  (forall st, valid toks st ->
     wp True (rec_expression_list (knot fuel)) st (sited opens_or_marks toks st))
  /\ (forall b st, valid toks st ->
     wp True (rec_statement (knot fuel) b) st (sited (fun _ => true) toks st))
  /\ (forall b st, valid toks st ->
     wp True (rec_declaration (knot fuel) b) st (sited (fun _ => false) toks st)).
Proof.
  induction fuel as [|f (IHe & IHs & IHd)].
  - repeat split; intros; apply wp_out_of_fuel; exact I.
  - repeat split; intros; cbn [knot rec_expression_list rec_statement rec_declaration].
    + apply expression_list_sited; auto.
    + apply statement_sited; auto.
    + apply declaration_sited; auto.
Qed.

Lemma opens_false t : type t <> LeftParen -> opens t = false.
Proof.
  intros H. unfold opens, eq_type. destruct (lexeme_eqb (type t) LeftParen) eqn:E;
    [apply lexeme_eqb_eq in E; contradiction | reflexivity].
Qed.

(** X6.  [position()] of an expression that [expression] returns trips no
    [assert] and is the position of one of the tokens the production
    consumed; it is the position of the first of them unless that token
    is an opening parenthesis, in which case the position lies inside
    the parentheses. *)
Theorem expression_position toks fuel st n st' :
  valid toks st ->
  expression fuel st = Ok (Some n) st' ->
  exists i t,
    pos st <= i < pos st' /\ subscript toks i = Some t
    /\ position_expression n = Some (position t)
    /\ (forall t0, subscript toks (pos st) = Some t0 ->
                   type t0 <> LeftParen -> i = pos st).
Proof.
  intros Hv E. destruct (knot_sited toks fuel) as (He & Hs & Hd).
  assert (H : wp True (expression fuel) st (sited opens toks st))
    by (unfold expression; apply expression_sited; assumption).
  destruct (wp_Ok H E) as [_ Hl].
  destruct (Hl n eq_refl) as (i & t & Hr & Hi & Hp & Hx).
  exists i, t. repeat split; try assumption; try lia.
  intros t0 H0 Hn. apply (Hx t0 H0). now apply opens_false.
Qed.

(** The theorem at [a . b ;]: the position is that of [a]. *)
Lemma expression_position_witness :
  exists n st',
    expression 3 (parsing member_access 0) = Ok (Some n) st'
    /\ position_expression n = Some (mk_source_position 1 1).
Proof.
  destruct (expression 3 (parsing member_access 0)) as [[n|] st'| |] eqn:E;
    try (vm_compute in E; discriminate E).
  exists n, st'. split; [reflexivity|].
  assert (Hv : valid member_access (parsing member_access 0))
    by (split; [reflexivity | cbn; lia]).
  destruct (@expression_position member_access 3 _ n st' Hv E)
    as (i & t & _ & Hi & Hp & Hx).
  rewrite (Hx (tok Identifier "a" 1) eq_refl) in Hi by discriminate.
  injection Hi as <-. exact Hp.
Defined.

(** X7.  [position()] of a statement that [statement] returns trips no
    [assert] and is the position of one of the tokens the production
    consumed. *)
Theorem statement_position toks fuel b st n st' :
  valid toks st ->
  statement fuel b st = Ok (Some n) st' ->
  exists i t,
    pos st <= i < pos st' /\ subscript toks i = Some t
    /\ position_statement n = Some (position t).
Proof.
  intros Hv E. destruct (knot_sited toks fuel) as (He & Hs & Hd).
  assert (H : wp True (statement fuel b) st (sited (fun _ => true) toks st))
    by (unfold statement; apply statement_sited; assumption).
  destruct (wp_Ok H E) as [_ Hl].
  destruct (Hl n eq_refl) as (i & t & Hr & Hi & Hp & _).
  exists i, t. repeat split; try assumption; lia.
Qed.

(** The theorem at [if a { } ;]. *)
Lemma statement_position_witness :
  exists n st',
    statement 5 true (parsing if_alone 0) = Ok (Some n) st'
    /\ exists t, In t if_alone /\ position_statement n = Some (position t).
Proof.
  destruct (statement 5 true (parsing if_alone 0)) as [[n|] st'| |] eqn:E;
    try (vm_compute in E; discriminate E).
  exists n, st'. split; [reflexivity|].
  assert (Hv : valid if_alone (parsing if_alone 0))
    by (split; [reflexivity | cbn; lia]).
  destruct (@statement_position if_alone 5 true _ n st' Hv E)
    as (i & t & _ & Hi & Hp).
  exists t. split; [|exact Hp].
  unfold subscript in Hi. destruct (i <? 0); [discriminate|].
  exact (nth_error_In _ _ Hi).
Defined.

Lemma located_first {A} `{Positioned A} toks st (n : A) st' :
  valid toks st ->
  located (fun _ => false) toks st (Some n) st' ->
  exists t, subscript toks (pos st) = Some t /\ position_of n = Some (position t).
Proof.
  intros [_ Hv] Hl. destruct (Hl n eq_refl) as (i & t & Hr & Hi & Hp & Hx).
  assert (E0 : exists t0, subscript toks (pos st) = Some t0).
  { unfold subscript in *. destruct (Z.ltb_spec i 0); [discriminate|].
    destruct (Z.ltb_spec (pos st) 0); [lia|].
    destruct (nth_error toks (Z.to_nat (pos st))) eqn:E0; [eauto|].
    apply nth_error_None in E0.
    assert (Z.to_nat i < List.length toks)%nat by (apply nth_error_Some; congruence).
    lia. }
  destruct E0 as (t0 & H0). rewrite (Hx t0 H0 eq_refl) in Hi.
  exists t. split; assumption.
Qed.

(** X8.  A declaration, a compound statement, a selection statement, a
    parameter declaration and an id-expression that their productions
    return are positioned at the first token consumed: [position()]
    trips no [assert] and gives the position of the token that was under
    the cursor on entry. *)
Theorem position_is_first_token toks fuel st :
  valid toks st ->
  (forall b n st', declaration fuel b st = Ok (Some n) st' ->
     exists t, subscript toks (pos st) = Some t
               /\ position_declaration n = Some (position t))
  /\ (forall n st', compound_statement fuel st = Ok (Some n) st' ->
     exists t, subscript toks (pos st) = Some t
               /\ position_compound_statement n = Some (position t))
  /\ (forall n st', selection_statement fuel st = Ok (Some n) st' ->
     exists t, subscript toks (pos st) = Some t
               /\ position_selection_statement n = Some (position t))
  /\ (forall n st', parameter_declaration fuel st = Ok (Some n) st' ->
     exists t, subscript toks (pos st) = Some t
               /\ position_parameter_declaration n = Some (position t))
  /\ (forall n st', id_expression fuel st = Ok (Some n) st' ->
     exists t, subscript toks (pos st) = Some t
               /\ position_id_expression n = Some (position t)).
Proof.
  intros Hv. destruct (knot_sited toks fuel) as (He & Hs & Hd).
  repeat split; intros.
  - assert (Hw : wp True (declaration fuel b) st (sited (fun _ => false) toks st))
      by (unfold declaration; apply declaration_sited; assumption).
    exact (located_first Hv (proj2 (wp_Ok Hw H))).
  - assert (Hw : wp True (compound_statement fuel) st (sited (fun _ => false) toks st))
      by (unfold compound_statement; apply compound_statement_sited; assumption).
    exact (located_first Hv (proj2 (wp_Ok Hw H))).
  - assert (Hw : wp True (selection_statement fuel) st (sited (fun _ => false) toks st))
      by (unfold selection_statement; apply selection_statement_sited; assumption).
    exact (located_first Hv (proj2 (wp_Ok Hw H))).
  - assert (Hw : wp True (parameter_declaration fuel) st
                   (sited (fun _ => false) toks st))
      by (unfold parameter_declaration; apply parameter_declaration_sited; assumption).
    exact (located_first Hv (proj2 (wp_Ok Hw H))).
  - assert (Hw : wp True (id_expression fuel) st (sited (fun _ => false) toks st))
      by (unfold id_expression; apply id_expression_sited; assumption).
    exact (located_first Hv (proj2 (wp_Ok Hw H))).
Qed.

(** The theorem at [x : int ;]. *)
Lemma position_is_first_token_witness :
  exists n st',
    declaration 3 true (parsing object_declaration 0) = Ok (Some n) st'
    /\ position_declaration n = Some (mk_source_position 1 1).
Proof.
  destruct (declaration 3 true (parsing object_declaration 0)) as [[n|] st'| |] eqn:E;
    try (vm_compute in E; discriminate E).
  exists n, st'. split; [reflexivity|].
  assert (Hv : valid object_declaration (parsing object_declaration 0))
    by (split; [reflexivity | cbn; lia]).
  destruct (proj1 (@position_is_first_token object_declaration 3 _ Hv) true n st' E)
    as (t & Hi & Hp).
  injection Hi as <-. exact Hp.
Defined.

(** X9.  [position()] of a parameter list asserts that the list has a
    first parameter.  For a list that [parameter_declaration_list]
    returns with parameters it is the position of the opening
    parenthesis; for the list of [( )], which the production returns as
    well, the assertion fails. *)
Theorem parameter_declaration_list_position toks fuel st n st' :
  valid toks st ->
  parameter_declaration_list fuel st = Ok (Some n) st' ->
  exists t, subscript toks (pos st) = Some t /\ type t = LeftParen
            /\ position_parameter_declaration_list n
               = match parameters n with
                 | [] => None
                 | _ => Some (position t)
                 end.
Proof.
  intros Hv E. destruct (knot_sited toks fuel) as (He & Hs & Hd).
  pose proof (@parameter_declaration_list_sited toks fuel (knot fuel) Hd st Hv) as H.
  fold (parameter_declaration_list fuel) in H.
  destruct (wp_Ok H E) as [_ Hl].
  destruct (Hl n eq_refl) as (t & Hi & Hp).
  exists t. repeat split; try assumption.
  unfold parameter_declaration_list, Grammar.parameter_declaration_list, bind in E.
  destruct Hv as [Ht Hr]. rewrite (@curr_Ok toks st t Ht Hi) in E.
  unfold eq_type in E. destruct (lexeme_eqb (type t) LeftParen) eqn:El;
    [now apply lexeme_eqb_eq in El | discriminate E].
Qed.

(** The theorem at [( ) ;]: the list is returned and its [position()]
    fails. *)
Lemma parameter_declaration_list_position_witness :
  exists n st',
    parameter_declaration_list 3 (parsing empty_parens 0) = Ok (Some n) st'
    /\ position_parameter_declaration_list n = None.
Proof.
  destruct (parameter_declaration_list 3 (parsing empty_parens 0))
    as [[n|] st'| |] eqn:E; try (vm_compute in E; discriminate E).
  exists n, st'. split; [reflexivity|].
  assert (Hv : valid empty_parens (parsing empty_parens 0))
    by (split; [reflexivity | cbn; lia]).
  destruct (@parameter_declaration_list_position empty_parens 3 _ n st' Hv E)
    as (t & _ & _ & Hp).
  rewrite Hp. vm_compute in E. injection E as <- _. reflexivity.
Defined.

(** X10.  A qualified-id that [qualified_id] returns holds at least two
    names, none of them null, and is positioned at the first. *)
Theorem qualified_id_names toks fuel st n st' :
  valid toks st ->
  qualified_id fuel st = Ok (Some n) st' ->
  (2 <= List.length (ids n))%nat /\ Forall present (ids n)
  /\ exists t, subscript toks (pos st) = Some t
               /\ position_qualified_id n = Some (position t).
Proof.
  intros Hv E.
  pose proof (@qualified_id_sited toks fuel st Hv) as Hw.
  pose proof (@qualified_id_shaped toks fuel st Hv) as Hw'.
  destruct (wp_Ok Hw' E n eq_refl) as [Hlen Hf].
  repeat split; try assumption.
  exact (located_first Hv (proj2 (proj1 (wp_Ok Hw E)))).
Qed.

(** The theorem at [std :: vector ;]. *)
Lemma qualified_id_names_witness :
  exists n st',
    qualified_id 3 (parsing scoped_name 0) = Ok (Some n) st'
    /\ (2 <= List.length (ids n))%nat.
Proof.
  destruct (qualified_id 3 (parsing scoped_name 0)) as [[n|] st'| |] eqn:E;
    try (vm_compute in E; discriminate E).
  exists n, st'. split; [reflexivity|].
  assert (Hv : valid scoped_name (parsing scoped_name 0))
    by (split; [reflexivity | split; vm_compute; discriminate]).
  exact (proj1 (@qualified_id_names scoped_name 3 _ n st' Hv E)).
Defined.

(* ===================================================================== *)
(** * The operands and operators of a binary node *)
(* ===================================================================== *)



(* ===================================================================== *)
(** * Every traversal is properly nested *)
(* ===================================================================== *)

Lemma node_kind_eqb_refl k : node_kind_eqb k k = true.
Proof. unfold node_kind_eqb. destruct (node_kind_eq_dec k k); congruence. Qed.

Lemma nesting_app x y open :
  nesting (x ++ y) open
  = match nesting x open with
    | Some o => nesting y o
    | None => None
    end.
Proof.
  revert open. induction x as [|c x IH]; intros open; [reflexivity|].
  destruct c; cbn [nesting app].
  - destruct (below open depth); [apply IH | reflexivity].
  - destruct (below open depth); [apply IH | reflexivity].
  - destruct open as [|[k' d'] open']; [reflexivity|].
    destruct (node_kind_eqb k k' && (depth =? d')); [apply IH | reflexivity].
Qed.

Lemma below_le open d d' : d <= d' -> below open d = true -> below open d' = true.
Proof.
  destruct open as [|[k e] open]; [reflexivity|]. cbn.
  intros Hle H. apply Z.ltb_lt in H. apply Z.ltb_lt. lia.
Qed.

Lemma nested_nil d : nested d [].
Proof. intros open _. reflexivity. Qed.

Lemma nested_app d x y : nested d x -> nested d y -> nested d (x ++ y).
Proof. intros Hx Hy open Ho. rewrite nesting_app, (Hx open Ho). exact (Hy open Ho). Qed.

Lemma nested_le d d' tr : d <= d' -> nested d' tr -> nested d tr.
Proof. intros Hle H open Ho. apply H. exact (below_le open Hle Ho). Qed.

Lemma nested_token d t : nested d [start_token t d].
Proof. intros open Ho. cbn. now rewrite Ho. Qed.

Lemma nested_tokens d ts : nested d (map (fun x => start_token x d) ts).
Proof.
  induction ts as [|t ts IH]; [apply nested_nil|].
  exact (nested_app (nested_token d t) IH).
Qed.

Lemma closes_end k d : closes k d [end_ k d].
Proof.
  intros open Ho. cbn. now rewrite node_kind_eqb_refl, Z.eqb_refl.
Qed.

Lemma closes_app k d x y : nested (d + 1) x -> closes k d y -> closes k d (x ++ y).
Proof.
  intros Hx Hy open Ho. rewrite nesting_app.
  rewrite (Hx ((k, d) :: open)) by (cbn; apply Z.ltb_lt; lia).
  exact (Hy open Ho).
Qed.

Lemma nested_start k d y : closes k d y -> nested d (start_ k d :: y).
Proof. intros Hy open Ho. cbn. rewrite Ho. exact (Hy open Ho). Qed.

(** Taking apart a traversal that did not fail. *)
Lemma then_assoc (a b c : traversal) : a >> b >> c = a >> (b >> c).
Proof.
  destruct a as [x|], b as [y|], c as [z|]; cbn; try reflexivity.
  now rewrite app_assoc.
Qed.

Lemma then_inv (a b : traversal) tr :
  a >> b = Some tr -> exists x y, a = Some x /\ b = Some y /\ tr = x ++ y.
Proof.
  destruct a as [x|], b as [y|]; cbn; try discriminate.
  intros [= <-]. eauto.
Qed.

(** Splits [H : a >> (b >> ...) = Some tr] into the parts of [tr], and
    the bound [L] on the length of [tr] into bounds on the parts. *)
Ltac parts H L :=
  rewrite ?then_assoc in H;
  repeat match type of H with
    | _ >> _ = Some _ =>
        let x := fresh "x" in
        let Hx := fresh "Hx" in
        apply then_inv in H; destruct H as (x & ? & Hx & H & ->);
        rewrite length_app in L
    end.

Ltac shorter := cbn [List.length] in *; lia.

(** A part [x] of a traversal, with [Hx : ... = Some x]: nothing, a token,
    or the traversal of a child, for which [known] has a lemma. *)
Ltac kid known :=
  lazymatch goal with
  | |- nested _ ?x =>
      lazymatch goal with
      | Hx : _ = Some x |- _ =>
          unfold visit_alternative, visit_ptr, visit_token, call in Hx;
          repeat match type of Hx with
                 | match ?p with _ => _ end = _ => destruct p; try discriminate Hx
                 end;
          first [ injection Hx as <-;
                  first [apply nested_nil | apply nested_token | apply nested_tokens]
                | known Hx
                | eapply nested_le; [|known Hx]; lia ]
      end
  end.

(** The traversal of a node: its [start], the parts of its children and
    its [end]. *)
Ltac node H L known :=
  parts H L;
  match goal with
  | Hs : call (start_ _ _) = Some _ |- _ => injection Hs as <-
  end;
  match type of H with
  | call (end_ _ _) = Some _ => injection H as <-
  end;
  cbn [app]; apply nested_start;
  repeat (apply closes_app; [kid known|]);
  apply closes_end.

Section lists.
Context {A : Type}.
Variable visit_ : A -> Z -> traversal.
Variable k : nat.
Hypothesis visit_nested : nested_upto k visit_.

Lemma visit_each_nested : nested_upto k (visit_each visit_).
Proof.
  intros xs. induction xs as [|x xs IH]; intros d tr H L; cbn [visit_each] in H.
  - injection H as <-. apply nested_nil.
  - parts H L. apply nested_app.
    + kid ltac:(fun Hx => eapply visit_nested; [exact Hx | shorter]).
    + eapply IH; [eassumption | shorter].
Qed.
End lists.

Section binary.
Context {Name : string} {Term : Type}.
Variable visit_term : Term -> Z -> traversal.
Variable k : nat.
Hypothesis term_nested : nested_upto k visit_term.

Lemma binary_terms_nested d : forall (terms : list (binary_term Term)) tr,
  (fix go (ts : list (binary_term Term)) : traversal :=
     match ts with
     | [] => Some []
     | x :: ts' =>
         call (start_token (term_op x) (d + 1))
         >> match term_expr x with
            | Some e => visit_term e (d + 1)
            | None => None
            end
         >> go ts'
     end) terms = Some tr ->
  (List.length tr <= k)%nat -> nested (d + 1) tr.
Proof.
  induction terms as [|t terms IH]; intros tr H L.
  - injection H as <-. apply nested_nil.
  - parts H L. apply nested_app; [|apply nested_app].
    + kid ltac:(fun Hx => fail).
    + kid ltac:(fun Hx => eapply term_nested; [exact Hx | shorter]).
    + eapply IH; [eassumption | shorter].
Qed.

Lemma visit_binary_expression_nested :
  nested_upto k (visit_binary_expression (Name:=Name) visit_term).
Proof.
  intros [expr terms] d tr H L. cbn [visit_binary_expression] in H.
  node H L ltac:(fun Hx => first [ eapply term_nested; [exact Hx | shorter]
                                 | eapply binary_terms_nested; [exact Hx | shorter] ]).
Qed.
End binary.

Section expressions.
Variable k : nat.
Hypothesis primary_nested : nested_upto k visit_primary_expression.
Hypothesis postfix_nested : nested_upto k visit_postfix_expression.
Hypothesis prefix_nested : nested_upto k visit_prefix_expression.
Hypothesis expression_nested : nested_upto k visit_expression.
Hypothesis list_nested : nested_upto k visit_expression_list.

Lemma postfix_ops_nested d : forall (ops : list (postfix_term expression_list_node)) tr,
  (fix go (ops : list (postfix_term expression_list_node)) : traversal :=
     match ops with
     | [] => Some []
     | x :: ops' =>
         call (start_token (postfix_op x) (d + 1))
         >> match expr_list x with
            | Some l => visit_expression_list l (d + 1)
            | None => Some []
            end
         >> go ops'
     end) ops = Some tr ->
  (List.length tr <= k)%nat -> nested (d + 1) tr.
Proof.
  induction ops as [|t ops IH]; intros tr H L.
  - injection H as <-. apply nested_nil.
  - parts H L. apply nested_app; [|apply nested_app].
    + kid ltac:(fun Hx => fail).
    + kid ltac:(fun Hx => eapply list_nested; [exact Hx | shorter]).
    + eapply IH; [eassumption | shorter].
Qed.

Lemma list_entries_nested d : forall (xs : list (expression_list_term expression_node)) tr,
  (fix go (xs : list (expression_list_term expression_node)) : traversal :=
     match xs with
     | [] => Some []
     | x :: xs' =>
         visit_ptr visit_expression (list_expr x) (d + 1) >> go xs'
     end) xs = Some tr ->
  (List.length tr <= k)%nat -> nested (d + 1) tr.
Proof.
  induction xs as [|t xs IH]; intros tr H L.
  - injection H as <-. apply nested_nil.
  - parts H L. apply nested_app.
    + kid ltac:(fun Hx => eapply expression_nested; [exact Hx | shorter]).
    + eapply IH; [eassumption | shorter].
Qed.

Ltac known Hx :=
  first [ eapply primary_nested; [exact Hx | shorter]
        | eapply postfix_nested; [exact Hx | shorter]
        | eapply prefix_nested; [exact Hx | shorter]
        | eapply expression_nested; [exact Hx | shorter]
        | eapply list_nested; [exact Hx | shorter]
        | eapply postfix_ops_nested; [exact Hx | shorter]
        | eapply list_entries_nested; [exact Hx | shorter]
        | eapply (@visit_binary_expression_nested _ _ _ k); [|exact Hx | shorter];
          do 9 apply visit_binary_expression_nested; exact prefix_nested ].

Lemma visit_primary_expression_step : nested_upto (S k) visit_primary_expression.
Proof.
  intros n d tr H L. destruct n; cbn [visit_primary_expression] in H.
  all: node H L known.
Qed.

Lemma visit_postfix_expression_step : nested_upto (S k) visit_postfix_expression.
Proof.
  intros [expr ops] d tr H L. cbn [visit_postfix_expression] in H. node H L known.
Qed.

Lemma visit_prefix_expression_step : nested_upto (S k) visit_prefix_expression.
Proof.
  intros [ops expr] d tr H L. cbn [visit_prefix_expression] in H. node H L known.
Qed.

Lemma visit_expression_step : nested_upto (S k) visit_expression.
Proof.
  intros [expr] d tr H L. cbn [visit_expression] in H. node H L known.
Qed.

Lemma visit_expression_list_step : nested_upto (S k) visit_expression_list.
Proof.
  intros [xs] d tr H L. cbn [visit_expression_list] in H. node H L known.
Qed.
End expressions.

(** No traversal is empty. *)
Lemma nested_upto_0 {A} (visit_ : A -> Z -> traversal) :
  (forall n d, exists k rest, visit_ n d = call (start_ k d) >> rest) ->
  nested_upto 0 visit_.
Proof.
  intros Hv n d tr H L. destruct tr; [|cbn in L; lia].
  destruct (Hv n d) as (k & rest & E). rewrite E in H.
  apply then_inv in H. destruct H as (x & y & Hx & _ & E').
  injection Hx as <-. discriminate E'.
Qed.

Lemma visit_expressions_nested (k : nat) :
  nested_upto k visit_primary_expression
  /\ nested_upto k visit_postfix_expression
  /\ nested_upto k visit_prefix_expression
  /\ nested_upto k visit_expression
  /\ nested_upto k visit_expression_list.
Proof.
  induction k as [|k (IHprimary & IHpostfix & IHprefix & IHexpression & IHlist)].
  - repeat split; apply nested_upto_0; intros n d; destruct n;
      cbn [visit_primary_expression visit_postfix_expression
           visit_prefix_expression visit_expression visit_expression_list];
      rewrite ?then_assoc; do 2 eexists; reflexivity.
  - repeat split.
    + now apply visit_primary_expression_step.
    + now apply visit_postfix_expression_step.
    + now apply visit_prefix_expression_step.
    + now apply visit_expression_step.
    + now apply visit_expression_list_step.
Qed.

(** The nodes outside the recursion. *)
Lemma visit_unqualified_id_nested k : nested_upto k visit_unqualified_id.
Proof.
  intros n d tr H L. unfold visit_unqualified_id in H.
  node H L ltac:(fun Hx => fail).
Qed.

Lemma visit_qualified_id_nested k : nested_upto k visit_qualified_id.
Proof.
  intros n d tr H L. unfold visit_qualified_id in H.
  node H L ltac:(fun Hx =>
    eapply (@visit_each_nested _ _ k);
      [apply visit_unqualified_id_nested | exact Hx | shorter]).
Qed.

Lemma visit_id_expression_nested k : nested_upto k visit_id_expression.
Proof.
  intros n d tr H L. destruct n; unfold visit_id_expression in H.
  all: node H L ltac:(fun Hx =>
    first [ eapply (@visit_qualified_id_nested k); [exact Hx | shorter]
          | eapply (@visit_unqualified_id_nested k); [exact Hx | shorter] ]).
Qed.

Lemma visit_expression_nested k : nested_upto k visit_expression.
Proof. apply visit_expressions_nested. Qed.

Lemma visit_expression_statement_nested k : nested_upto k visit_expression_statement.
Proof.
  intros n d tr H L. unfold visit_expression_statement in H.
  node H L ltac:(fun Hx => eapply (@visit_expression_nested k); [exact Hx | shorter]).
Qed.

Section statements.
Variable k : nat.
Hypothesis compound_nested : nested_upto k visit_compound_statement.
Hypothesis selection_nested : nested_upto k visit_selection_statement.
Hypothesis statement_nested : nested_upto k visit_statement.
Hypothesis declaration_nested : nested_upto k visit_declaration.
Hypothesis parameter_nested : nested_upto k visit_parameter_declaration.
Hypothesis parameters_nested : nested_upto k visit_parameter_declaration_list.

Ltac known Hx :=
  first [ eapply compound_nested; [exact Hx | shorter]
        | eapply selection_nested; [exact Hx | shorter]
        | eapply statement_nested; [exact Hx | shorter]
        | eapply declaration_nested; [exact Hx | shorter]
        | eapply parameter_nested; [exact Hx | shorter]
        | eapply parameters_nested; [exact Hx | shorter]
        | eapply (@visit_expression_nested k); [exact Hx | shorter]
        | eapply (@visit_expression_statement_nested k); [exact Hx | shorter]
        | eapply (@visit_unqualified_id_nested k); [exact Hx | shorter]
        | eapply (@visit_id_expression_nested k); [exact Hx | shorter]
        | eapply (@visit_each_nested _ _ k); [|exact Hx | shorter];
          first [exact statement_nested | exact parameter_nested] ].

Lemma visit_compound_statement_step : nested_upto (S k) visit_compound_statement.
Proof.
  intros [p xs] d tr H L. cbn [visit_compound_statement] in H. node H L known.
Qed.

Lemma visit_selection_statement_step : nested_upto (S k) visit_selection_statement.
Proof.
  intros [c i e t f] d tr H L. cbn [visit_selection_statement] in H. node H L known.
Qed.

Lemma visit_statement_step : nested_upto (S k) visit_statement.
Proof.
  intros n d tr H L. destruct n; cbn [visit_statement] in H.
  all: node H L known.
Qed.

Lemma visit_declaration_step : nested_upto (S k) visit_declaration.
Proof.
  intros [i t s] d tr H L. cbn [visit_declaration] in H. node H L known.
Qed.

Lemma visit_parameter_declaration_step :
  nested_upto (S k) visit_parameter_declaration.
Proof.
  intros [p s m x] d tr H L. cbn [visit_parameter_declaration] in H. node H L known.
Qed.

Lemma visit_parameter_declaration_list_step :
  nested_upto (S k) visit_parameter_declaration_list.
Proof.
  intros [o c xs] d tr H L. cbn [visit_parameter_declaration_list] in H.
  node H L known.
Qed.
End statements.

Lemma visit_statements_nested (k : nat) :
  nested_upto k visit_compound_statement
  /\ nested_upto k visit_selection_statement
  /\ nested_upto k visit_statement
  /\ nested_upto k visit_declaration
  /\ nested_upto k visit_parameter_declaration
  /\ nested_upto k visit_parameter_declaration_list.
Proof.
  induction k as [|k (IHc & IHs & IHt & IHd & IHp & IHl)].
  - repeat split; apply nested_upto_0; intros n d; destruct n;
      cbn [visit_compound_statement visit_selection_statement visit_statement
           visit_declaration visit_parameter_declaration
           visit_parameter_declaration_list];
      rewrite ?then_assoc; do 2 eexists; reflexivity.
  - repeat split.
    + now apply visit_compound_statement_step.
    + now apply visit_selection_statement_step.
    + now apply visit_statement_step.
    + now apply visit_declaration_step.
    + now apply visit_parameter_declaration_step.
    + now apply visit_parameter_declaration_list_step.
Qed.

Lemma visit_translation_unit_nested n d tr :
  visit_translation_unit n d = Some tr -> nested d tr.
Proof.
  intros H. assert (L : (List.length tr <= List.length tr)%nat) by lia.
  revert L. generalize (List.length tr) at 2. intros k L.
  unfold visit_translation_unit in H.
  node H L ltac:(fun Hx =>
    eapply (@visit_each_nested _ _ k); [|exact Hx | shorter];
    apply visit_statements_nested).
Qed.



(* ===================================================================== *)
(** * Operators of one level associate into one flat node *)
(* ===================================================================== *)

Lemma layout_stop toks : forall l p stop,
  layout toks p l stop ->
  subscript toks (p + 2 * Z.of_nat (List.length l)) = Some stop.
Proof.
  induction l as [|[op b] l IH]; intros p stop H; cbn [layout] in H.
  - cbn. now rewrite Z.add_0_r.
  - destruct H as (_ & _ & H). apply IH in H.
    replace (p + 2 * Z.of_nat (List.length ((op, b) :: l)))
      with (p + 2 + 2 * Z.of_nat (List.length l)) by (cbn [List.length]; lia).
    exact H.
Qed.

Section chains.
Context {Name : string} {Term : Type}.
Variable is_valid_op : token -> bool.
Variable term : M (option Term).

Lemma binary_expression_loop_reads : forall l st st' c,
  reads is_valid_op term st l st' ->
  curr st' = Ok c st' -> is_valid_op c = false ->
  forall iter (n : binary_expression_node Name Term),
  (List.length l < iter)%nat ->
  Grammar.binary_expression_loop is_valid_op term iter n st
  = Ok (Some (mk_binary_expression_node (binary_expr n)
                (binary_terms n ++ map term_of l))) st'.
Proof.
  intros l st st' c R. induction R as [st | st c0 st1 e st2 l st' Hc Hv Hn Ht R IH];
    intros Hc' Hv' iter n Hlt.
  - destruct iter as [|iter]; [cbn in Hlt; lia|].
    cbn [Grammar.binary_expression_loop]. unfold bind. rewrite Hc', Hv'.
    cbn [map]. rewrite app_nil_r. now destruct n.
  - destruct iter as [|iter]; [cbn in Hlt; lia|].
    cbn [Grammar.binary_expression_loop]. unfold bind. rewrite Hc, Hv, Hn, Ht.
    rewrite (IH Hc' Hv' iter) by (cbn in Hlt; lia).
    cbn [binary_expr binary_terms map]. now rewrite <- app_assoc.
Qed.

(** A layer of the binary template collects a chain of its operators
    into one node: the head operand, then one term for each operator
    with its operand, in source order.  The chain ends at the first
    token after an operand that the layer's predicate rejects. *)
Lemma binary_expression_reads fuel st e st1 l st' c :
  term st = Ok (Some e) st1 ->
  reads is_valid_op term st1 l st' ->
  curr st' = Ok c st' -> is_valid_op c = false ->
  (List.length l < fuel)%nat ->
  Grammar.binary_expression (Name:=Name) fuel is_valid_op term st
  = Ok (Some (mk_binary_expression_node (Some e) (map term_of l))) st'.
Proof.
  intros Ht R Hc Hv Hlt. unfold Grammar.binary_expression, bind. rewrite Ht.
  exact (binary_expression_loop_reads R Hc Hv (mk_binary_expression_node (Some e) []) Hlt).
Qed.

(** With no operator ahead the layer returns its operand alone. *)
Lemma binary_expression_solo fuel st e st1 c :
  term st = Ok (Some e) st1 ->
  curr st1 = Ok c st1 -> is_valid_op c = false ->
  Grammar.binary_expression (Name:=Name) (S fuel) is_valid_op term st
  = Ok (Some (solo e)) st1.
Proof.
  intros Ht Hc Hv.
  exact (@binary_expression_reads (S fuel) st e st1 [] st1 c Ht (reads_nil _ _ _)
           Hc Hv (Nat.lt_0_succ _)).
Qed.

Section readers.
Variable wrap : token -> Term.
Variable inert : token -> bool.
Hypothesis term_reader : reader term wrap inert.

Lemma adv_adv j k st : adv k (adv j st) = adv (j + k) st.
Proof. unfold adv, set_pos. cbn. now rewrite Z.add_assoc. Qed.

Lemma curr_adv toks st k t :
  tokens_ st = Some toks -> subscript toks (pos st + k) = Some t ->
  curr (adv k st) = Ok t (adv k st).
Proof. intros Ht Hs. exact (@curr_Ok toks (adv k st) t Ht Hs). Qed.

Lemma next_adv toks st k t :
  tokens_ st = Some toks -> subscript toks (pos st + k) = Some t ->
  next 1 (adv k st) = Ok tt (adv (k + 1) st).
Proof.
  intros Ht Hs.
  assert (pos st + k < ssize toks).
  { unfold subscript, ssize in *. destruct (pos st + k <? 0); [discriminate|].
    assert (Z.to_nat (pos st + k) < List.length toks)%nat
      by (apply nth_error_Some; congruence). lia. }
  unfold next, adv. cbn [tokens_ pos set_pos]. rewrite Ht. unfold set_pos.
  cbn [errors parse_tree tokens_ pos].
  replace (Z.min (pos st + k + 1) (ssize toks)) with (pos st + (k + 1)) by lia.
  reflexivity.
Qed.

(** The layer over a reader is a reader. *)
Lemma binary_expression_reader fuel :
  reader (Grammar.binary_expression (Name:=Name) (S fuel) is_valid_op term)
    (fun b => solo (wrap b))
    (fun nx => inert nx && negb (is_valid_op nx)).
Proof.
  intros toks st b nx Ht Hb Hi Hn Hx. apply andb_prop in Hx. destruct Hx as [Hx Hv].
  apply negb_true_iff in Hv.
  eapply binary_expression_solo; [eapply term_reader; eassumption | | exact Hv].
  exact (@curr_adv toks st 1 nx Ht Hn).
Qed.

Lemma reads_layout toks st : forall l k stop,
  tokens_ st = Some toks ->
  layout toks (pos st + k) l stop ->
  Forall (fun p => is_valid_op (fst p) = true /\ inert (fst p) = true
                   /\ type (snd p) = Identifier) l ->
  inert stop = true ->
  reads is_valid_op term (adv k st)
    (map (fun p => (fst p, wrap (snd p))) l)
    (adv (k + 2 * Z.of_nat (List.length l)) st).
Proof.
  induction l as [|[op b] l IH]; intros k stop Ht Hl Hf Hs.
  - cbn. replace (k + 0) with k by lia. apply reads_nil.
  - cbn [layout] in Hl. destruct Hl as (Hop & Hb & Hl).
    inversion Hf as [|? ? (Hv & _ & Hi) Hf']; subst. cbn [fst snd map] in *.
    assert (Hnx : exists nx, subscript toks (pos st + (k + 1) + 1) = Some nx
                             /\ inert nx = true).
    { replace (pos st + (k + 1) + 1) with (pos st + k + 2) by lia.
      destruct l as [|[op' b'] l'].
      - exists stop. split; [exact Hl | exact Hs].
      - exists op'. split; [exact (proj1 Hl)|].
        inversion Hf' as [|? ? (_ & Hi' & _) _]; subst. exact Hi'. }
    destruct Hnx as (nx & Hnx & Hinx).
    eapply reads_cons.
    + exact (@curr_adv toks st k op Ht Hop).
    + exact Hv.
    + exact (@next_adv toks st k op Ht Hop).
    + eapply term_reader with (nx := nx); unfold adv; cbn [set_pos pos tokens_];
        try eassumption.
      replace (pos st + (k + 1)) with (pos st + k + 1) by lia. exact Hb.
    + rewrite adv_adv.
      replace (k + 2 * Z.of_nat (List.length ((op, b) :: l)))
        with (k + 1 + 1 + 2 * Z.of_nat (List.length l)) by (cbn [List.length]; lia).
      apply (IH (k + 1 + 1) stop); try assumption.
      replace (pos st + (k + 1 + 1)) with (pos st + k + 2) by lia. exact Hl.
Qed.

(** The layer over a reader, on a chain of its operators between
    identifiers. *)
Lemma binary_expression_chain fuel toks st a l stop :
  tokens_ st = Some toks ->
  subscript toks (pos st) = Some a -> type a = Identifier ->
  layout toks (pos st + 1) l stop ->
  Forall (fun p => is_valid_op (fst p) = true /\ inert (fst p) = true
                   /\ type (snd p) = Identifier) l ->
  inert stop = true -> is_valid_op stop = false ->
  (List.length l < fuel)%nat ->
  Grammar.binary_expression (Name:=Name) fuel is_valid_op term st
  = Ok (Some (mk_binary_expression_node (Some (wrap a))
                (map (fun p => mk_binary_term (fst p) (Some (wrap (snd p)))) l)))
       (adv (1 + 2 * Z.of_nat (List.length l)) st).
Proof.
  intros Ht Ha Hi Hl Hf Hs Hv Hlt.
  assert (Hnx : exists nx, subscript toks (pos st + 1) = Some nx /\ inert nx = true).
  { destruct l as [|[op b] l'].
    - exists stop. split; [exact Hl | exact Hs].
    - exists op. split; [exact (proj1 Hl)|].
      inversion Hf as [|? ? (_ & Hi' & _) _]; subst. exact Hi'. }
  destruct Hnx as (nx & Hnx & Hinx).
  pose proof (@reads_layout toks st l 1 stop Ht Hl Hf Hs) as R.
  assert (Hterm : term st = Ok (Some (wrap a)) (adv 1 st))
    by (eapply term_reader; eassumption).
  assert (Hstop : subscript toks (pos st + (1 + 2 * Z.of_nat (List.length l))) = Some stop).
  { rewrite Z.add_assoc. exact (layout_stop _ _ _ _ Hl). }
  rewrite (@binary_expression_reads fuel st (wrap a) (adv 1 st) _ _ stop
             Hterm R (@curr_adv toks st _ stop Ht Hstop) Hv).
  - now rewrite map_map.
  - now rewrite length_map.
Qed.
End readers.
End chains.

(** A plain operand is read by [prefix_expression] when no postfix
    operator, bracket or dot follows. *)
Lemma prefix_expression_reader f self :
  reader (Grammar.prefix_expression (S f) self) operand
    (fun nx => negb (continues_postfix nx)).
Proof.
  intros toks st b nx Ht Hb Hi Hn Hx. apply negb_true_iff in Hx.
  pose proof (@curr_Ok toks st b Ht Hb) as Hc.
  pose proof (@next_adv toks st 0 b Ht) as Hnext.
  assert (E0 : adv 0 st = st)
    by (unfold adv, set_pos; rewrite Z.add_0_r; now destruct st).
  rewrite E0, Z.add_0_r in Hnext. specialize (Hnext Hb). cbn in Hnext.
  unfold Grammar.prefix_expression, Grammar.postfix_expression,
    Grammar.primary_expression, bind.
  cbn [Grammar.prefix_expression_loop]. unfold bind. rewrite Hc, Hi. cbn [is_prefix_operator].
  cbn [ret]. rewrite Hc, Hi, Hnext. cbn [ret Grammar.postfix_expression_loop].
  unfold bind. rewrite (@curr_adv toks st 1 nx Ht Hn).
  unfold continues_postfix in Hx. rewrite Hx. reflexivity.
Qed.

(** A binary operator of the ladder is accepted by the layer of its level
    and ends an operand of every higher level; a token that continues no
    expression ends an operand of any level and is accepted by none. *)
Ltac by_lexeme t :=
  unfold continues_postfix, eq_type in *;
  destruct (type t); cbn in *; try discriminate; try reflexivity;
  repeat split; try reflexivity; try assumption.

Ltac readers := repeat apply binary_expression_reader; apply prefix_expression_reader.

Ltac ladder :=
  unfold Grammar.expression, Grammar.assignment_expression,
    Grammar.logical_or_expression, Grammar.logical_and_expression,
    Grammar.equality_expression, Grammar.relational_expression,
    Grammar.compare_expression, Grammar.shift_expression,
    Grammar.additive_expression, Grammar.multiplicative_expression,
    Grammar.is_as_expression.

(** Below the layer of the chain the operands are read, at it the chain
    is collected, above it the node is passed on. *)
Ltac level n :=
  lazymatch n with
  | O => eapply binary_expression_chain; [readers | ..]
  | S ?m => eapply binary_expression_solo; [level m | | ]
  end.

Lemma expression_of f self st e st' :
  Grammar.assignment_expression f self st = Ok (Some e) st' ->
  Grammar.expression f self st = Ok (Some (mk_expression_node (Some e))) st'.
Proof. intros H. unfold Grammar.expression, bind. now rewrite H. Qed.

(** The chain at the layer [n] levels below assignment. *)
Ltac flat_at n Hcurr Hf Hs1 Hs2 Hs3 stop :=
  eexists; split;
  [ apply expression_of; ladder; level n;
    try exact Hcurr; try eassumption; cbv beta;
    first
      [ eapply Forall_impl; [|exact Hf];
        let q := fresh "q" in
        let Hq := fresh "Hq" in
        intros q [Hq ?]; cbv beta;
        unfold continues_postfix, eq_type;
        destruct (type (fst q)); cbn in Hq; try discriminate Hq;
        repeat split; solve [reflexivity | assumption]
      | rewrite ?Hs1, ?Hs2; unfold eq_type in *;
        destruct (type stop); cbn in Hs3 |- *; try discriminate Hs3;
        reflexivity ]
  | unfold outline_assignment; cbn; rewrite map_map; reflexivity ].

Lemma ends_expression_inv stop :
  ends_expression stop = true ->
  continues_postfix stop = false
  /\ eq_type stop Keyword && (token_is stop "is" || token_is stop "as") = false
  /\ level_of (type stop) = None.
Proof.
  unfold ends_expression. intros H.
  apply andb_prop in H. destruct H as [H H3].
  apply andb_prop in H. destruct H as [H1 H2].
  apply negb_true_iff in H1, H2. repeat split; try assumption.
  destruct (level_of (type stop)); [discriminate | reflexivity].
Qed.

Lemma outline_terms {Name Term} (outline_term : Term -> outline) (wrap : token -> Term)
  (head : Term) p (l : list (token * token)) :
  (forall b, outline_term (wrap b) = leaf b) ->
  outline_binary (Name:=Name) outline_term
    (mk_binary_expression_node (Some head)
       (map (fun p => mk_binary_term (fst p) (Some (wrap (snd p)))) (p :: l)))
  = group Name (outline_term head) (map (fun p => (fst p, leaf (snd p))) (p :: l)).
Proof.
  intros Hw. unfold outline_binary. cbn [binary_expr binary_terms map].
  f_equal. cbn [term_op term_expr fst snd]. rewrite Hw. f_equal.
  rewrite map_map. apply map_ext. intros q. cbn. now rewrite Hw.
Qed.



(* ===================================================================== *)
(** * Where the traversal of a parsed tree fails *)
(* ===================================================================== *)

Lemma passes_then a b : passes (a >> b) = passes a && passes b.
Proof. destruct a, b; reflexivity. Qed.

(** Split the traversal of a node into those of its parts. *)
Ltac passing :=
  repeat (progress (cbn [passes call visit_token andb visit_ptr visit_alternative
                         visit_each filled_ptr];
                    rewrite ?passes_then, ?andb_true_r)).

Lemma returns_some {A} `{Visited A} (n : A) :
  returns_traversable (Some n) -> traversable n.
Proof. intros Hn. exact (Hn n eq_refl). Qed.

Lemma returns_none {A} `{Visited A} : returns_traversable (@None A).
Proof. intros n E. discriminate E. Qed.

Lemma some_returns {A} `{Visited A} (n : A) :
  traversable n -> returns_traversable (Some n).
Proof. intros Hn n' [= <-]. exact Hn. Qed.

(** Write [traversable] out for the node types at hand. *)
Ltac plain :=
  unfold traversable, returns_traversable in *;
  cbn [visit_of filled_of binary_expression_visited primary_expression_visited
       postfix_expression_visited prefix_expression_visited expression_visited
       expression_list_visited expression_statement_visited unqualified_id_visited
       qualified_id_visited id_expression_visited compound_statement_visited
       selection_statement_visited statement_visited declaration_visited
       parameter_declaration_visited parameter_declaration_list_visited
       translation_unit_visited] in *.

(** ** The nodes built from traversable parts *)

Section binary_nodes.
Context {Name : string} {Term : Type} `{Visited Term}.

Lemma traversable_binary (n : binary_expression_node Name Term) :
  binary_ok n -> traversable n.
Proof.
  destruct n as [expr terms]. intros [(e & Ee & He) Ht] d.
  cbn [binary_expr binary_terms] in Ee, Ht. subst expr.
  cbn [visit_of filled_of binary_expression_visited visit_binary_expression
       filled_binary_expression].
  passing. rewrite He. f_equal.
  induction Ht as [|x terms (y & Ey & Hy) Ht IH]; [reflexivity|].
  rewrite Ey. passing. rewrite Hy, IH. reflexivity.
Qed.
End binary_nodes.

Lemma traversable_primary_identifier t : traversable (primary_identifier t).
Proof. intros d. reflexivity. Qed.

Lemma traversable_primary_expression_list l :
  traversable l -> traversable (primary_expression_list (Some l)).
Proof.
  intros Hl d.
  plain. cbn [visit_primary_expression
       filled_primary_expression].
  passing. apply Hl.
Qed.

Lemma traversable_postfix n : postfix_ok n -> traversable n.
Proof.
  destruct n as [expr ops]. intros [(p & Ee & Hp) Ho] d.
  cbn [postfix_expr postfix_ops] in Ee, Ho. subst expr.
  plain. cbn [visit_postfix_expression
       filled_postfix_expression].
  passing. rewrite (Hp (d + 1)). f_equal.
  induction Ho as [|x ops Hx Ho IH]; [reflexivity|].
  passing. rewrite IH. f_equal.
  destruct (expr_list x) as [l|]; [exact (Hx l eq_refl _) | reflexivity].
Qed.

Lemma traversable_prefix ops e :
  traversable e -> traversable (mk_prefix_expression_node ops (Some e)).
Proof.
  intros He d.
  plain. cbn [visit_prefix_expression
       filled_prefix_expression].
  passing. apply He.
Qed.

Lemma traversable_expression (e : assignment_expression_node) :
  traversable e -> traversable (mk_expression_node (Some e)).
Proof.
  intros He d.
  plain. cbn [visit_expression filled_expression].
  passing. exact (He (d + 1)).
Qed.

Lemma traversable_expression_list xs :
  Forall (fun x => returns_traversable (list_expr x)) xs ->
  traversable (mk_expression_list_node xs).
Proof.
  intros Hx d.
  plain. cbn [visit_expression_list
       filled_expression_list].
  passing.
  induction Hx as [|x xs Hx Hxs IH]; [reflexivity|].
  passing. rewrite IH. f_equal.
  destruct (list_expr x) as [e|]; [exact (Hx e eq_refl _) | reflexivity].
Qed.

Lemma traversable_expression_statement e :
  traversable e -> traversable (mk_expression_statement_node (Some e)).
Proof.
  intros He d.
  plain. unfold visit_expression_statement, filled_expression_statement.
  cbn [statement_expr]. passing. apply He.
Qed.

Lemma traversable_unqualified_id (n : unqualified_id_node) : traversable n.
Proof. intros d. reflexivity. Qed.

Lemma traversable_qualified_id xs :
  Forall present xs -> traversable (mk_qualified_id_node xs).
Proof.
  intros Hi d.
  plain. unfold visit_qualified_id.
  cbn [ids]. passing.
  induction Hi as [|x xs Hx _ IH]; [reflexivity|].
  destruct x as [y|]; [|now elim Hx].
  passing. rewrite IH. reflexivity.
Qed.

Lemma traversable_id_qualified (n : qualified_id_node) :
  traversable n -> traversable (id_qualified (Some n)).
Proof.
  intros Hn d.
  plain. unfold visit_id_expression.
  passing. apply Hn.
Qed.

Lemma traversable_id_unqualified (n : unqualified_id_node) :
  traversable (id_unqualified (Some n)).
Proof. intros d. reflexivity. Qed.

Lemma traversable_id_empty : traversable id_empty.
Proof. intros d. reflexivity. Qed.

Lemma traversable_compound p xs :
  Forall entry_ok xs -> traversable (mk_compound_statement_node p xs).
Proof.
  intros Hx d.
  plain. cbn [visit_compound_statement
       filled_compound_statement].
  passing.
  induction Hx as [|x xs (y & -> & Hy) _ IH]; [reflexivity|].
  passing. rewrite IH. f_equal. apply Hy.
Qed.

Lemma traversable_selection c i e t f :
  traversable e -> traversable t -> returns_traversable f ->
  traversable (mk_selection_statement_node c i (Some e) (Some t) f).
Proof.
  intros He Ht Hb d.
  plain. cbn [visit_selection_statement
       filled_selection_statement].
  passing. rewrite (He (d + 1)), (Ht (d + 1)). f_equal.
  destruct f as [b|]; [exact (Hb b eq_refl _) | reflexivity].
Qed.

Lemma traversable_statement_expression (s : expression_statement_node) :
  traversable s -> traversable (statement_expression (Some s)).
Proof.
  intros Hs d.
  plain. cbn [visit_statement filled_statement].
  passing. apply Hs.
Qed.

Lemma traversable_statement_compound (s : compound_statement_node) :
  traversable s -> traversable (statement_compound (Some s)).
Proof.
  intros Hs d.
  plain. cbn [visit_statement filled_statement].
  passing. apply Hs.
Qed.

Lemma traversable_statement_selection (s : selection_statement_node) :
  traversable s -> traversable (statement_selection (Some s)).
Proof.
  intros Hs d.
  plain. cbn [visit_statement filled_statement].
  passing. apply Hs.
Qed.

Lemma traversable_statement_declaration (s : declaration_node) :
  traversable s -> traversable (statement_declaration (Some s)).
Proof.
  intros Hs d.
  plain. cbn [visit_statement filled_statement].
  passing. apply Hs.
Qed.

Lemma traversable_declaration_function i (l : parameter_declaration_list_node) s :
  traversable l -> returns_traversable s ->
  traversable (mk_declaration_node (Some i) (type_function (Some l)) s).
Proof.
  intros Hl Hs d.
  plain. cbn [visit_declaration filled_declaration].
  passing. unfold visit_unqualified_id. passing. rewrite (Hl (d + 1 + 1)).
  cbn [andb]. f_equal.
  destruct s as [y|]; [exact (Hs y eq_refl _) | reflexivity].
Qed.

Lemma traversable_declaration_object i (t : id_expression_node) s :
  traversable t -> returns_traversable s ->
  traversable (mk_declaration_node (Some i) (type_object (Some t)) s).
Proof.
  intros Ht Hs d.
  plain. cbn [visit_declaration filled_declaration].
  passing. unfold visit_unqualified_id. passing. rewrite (Ht (d + 1 + 1)).
  cbn [andb].
  destruct s as [y|]; [exact (Hs y eq_refl _) | reflexivity].
Qed.

Lemma traversable_parameter_declaration p s m (x : declaration_node) :
  traversable x -> traversable (mk_parameter_declaration_node p s m (Some x)).
Proof.
  intros Hx d.
  plain. cbn [visit_parameter_declaration
       filled_parameter_declaration].
  passing. apply Hx.
Qed.

Lemma traversable_parameter_declaration_list o c xs :
  Forall entry_ok xs -> traversable (mk_parameter_declaration_list_node o c xs).
Proof.
  intros Hx d.
  plain. cbn [visit_parameter_declaration_list filled_parameter_declaration_list].
  passing.
  induction Hx as [|x xs (y & -> & Hy) _ IH]; [reflexivity|].
  passing. rewrite IH. f_equal. apply Hy.
Qed.

Lemma traversable_translation_unit xs :
  Forall entry_ok xs -> traversable (mk_translation_unit_node xs).
Proof.
  intros Hx d.
  plain. unfold visit_translation_unit,
    filled_translation_unit.
  cbn [declarations]. passing.
  induction Hx as [|x xs (y & -> & Hy) _ IH]; [reflexivity|].
  cbn [forallb]. passing. rewrite IH. f_equal. apply Hy.
Qed.
(** ** The productions return traversable nodes *)

Create HintDb traversal.
#[local] Hint Resolve returns_none some_returns returns_some
  traversable_primary_identifier traversable_primary_expression_list
  traversable_postfix traversable_prefix traversable_expression
  traversable_expression_list traversable_expression_statement
  traversable_unqualified_id traversable_qualified_id
  traversable_id_qualified traversable_id_unqualified traversable_id_empty
  traversable_compound traversable_selection
  traversable_statement_expression traversable_statement_compound
  traversable_statement_selection traversable_statement_declaration
  traversable_declaration_function traversable_declaration_object
  traversable_parameter_declaration traversable_parameter_declaration_list
  traversable_translation_unit : traversal.

(** Run a production whose calls [call] knows, and build the node. *)
Ltac built call := yields_run ltac:(call); eauto 6 with traversal.

Section traversable_results.
Variable fuel : nat.
Variable self : recursion.
Hypothesis list_ok : yields (rec_expression_list self) returns_traversable.
Hypothesis statement_ok : forall b, yields (rec_statement self b) returns_traversable.
Hypothesis declaration_ok :
  forall b, yields (rec_declaration self b) returns_traversable.

Lemma primary_expression_traversable :
  yields (Grammar.primary_expression self) returns_traversable.
Proof. unfold Grammar.primary_expression. built ltac:(apply list_ok). Qed.

Lemma postfix_expression_loop_traversable : forall iter n,
  postfix_ok n ->
  yields (Grammar.postfix_expression_loop self iter n) returns_traversable.
Proof.
  yields_loop IH. cbn [Grammar.postfix_expression_loop].
  apply yields_skip; intros c.
  destruct (_ || _); [|apply yields_ret; auto with traversal].
  apply yields_skip; intros _.
  apply yields_bind with (P := fun t => returns_traversable (expr_list t)).
  - destruct (type c); built ltac:(apply list_ok).
  - intros t Ht. apply IH. destruct H as [Hp Ho]. split; [exact Hp|].
    cbn [postfix_ops]. apply Forall_app. split; [exact Ho | now constructor].
Qed.

Lemma postfix_expression_traversable :
  yields (Grammar.postfix_expression fuel self) returns_traversable.
Proof.
  unfold Grammar.postfix_expression.
  yields_run ltac:(apply primary_expression_traversable); [|auto with traversal].
  apply postfix_expression_loop_traversable. split; [|constructor].
  eexists. split; [reflexivity | auto with traversal].
Qed.

Lemma prefix_expression_traversable :
  yields (Grammar.prefix_expression fuel self) returns_traversable.
Proof.
  unfold Grammar.prefix_expression.
  apply yields_skip; intros ops.
  built ltac:(apply postfix_expression_traversable).
Qed.

Section binary.
Context {Name : string} {Term : Type} `{Visited Term}.
Variable is_valid_op : token -> bool.
Variable term : M (option Term).
Hypothesis term_traversable : yields term returns_traversable.

Lemma binary_expression_loop_traversable :
  forall iter (n : binary_expression_node Name Term),
  binary_ok n ->
  yields (Grammar.binary_expression_loop is_valid_op term iter n) returns_traversable.
Proof.
  yields_loop IH. cbn [Grammar.binary_expression_loop].
  yields_run ltac:(apply term_traversable).
  - apply IH. destruct H0 as [He Ht]. split; [exact He|].
    cbn [binary_terms]. apply Forall_app. split; [exact Ht|].
    constructor; [|constructor]. eexists. split; [reflexivity | auto with traversal].
  - apply some_returns, traversable_binary. assumption.
  - apply some_returns, traversable_binary. assumption.
Qed.

Lemma binary_expression_traversable :
  yields (Grammar.binary_expression (Name:=Name) fuel is_valid_op term)
    returns_traversable.
Proof.
  unfold Grammar.binary_expression.
  yields_run ltac:(apply term_traversable); [|auto with traversal].
  apply binary_expression_loop_traversable. split; [|constructor].
  eexists. split; [reflexivity | auto with traversal].
Qed.
End binary.

Lemma assignment_expression_traversable :
  yields (Grammar.assignment_expression fuel self) returns_traversable.
Proof.
  repeat apply binary_expression_traversable.
  apply prefix_expression_traversable.
Qed.

Lemma expression_traversable :
  yields (Grammar.expression fuel self) returns_traversable.
Proof.
  unfold Grammar.expression.
  built ltac:(apply assignment_expression_traversable).
Qed.

Lemma expression_list_loop_traversable : forall iter n,
  Forall (fun x => returns_traversable (list_expr x)) (expressions n) ->
  yields (Grammar.expression_list_loop fuel self iter n) returns_traversable.
Proof.
  yields_loop IH. cbn [Grammar.expression_list_loop].
  apply yields_skip; intros c. destruct (eq_type c Comma).
  - apply yields_skip; intros _. apply yields_skip; intros pass.
    eapply yields_bind; [apply expression_traversable|]. intros x Hx.
    apply IH. cbn [expressions]. apply Forall_app. split; [assumption|].
    now constructor.
  - apply yields_ret. destruct n. auto with traversal.
Qed.

Lemma expression_list_traversable :
  yields (Grammar.expression_list fuel self) returns_traversable.
Proof.
  unfold Grammar.expression_list.
  apply yields_skip; intros p. apply yields_skip; intros pass.
  eapply yields_bind; [apply expression_traversable|]. intros x Hx.
  destruct x as [e|].
  - apply expression_list_loop_traversable. now constructor.
  - built ltac:(fail).
Qed.

Lemma unqualified_id_traversable :
  yields Grammar.unqualified_id returns_traversable.
Proof. unfold Grammar.unqualified_id. built ltac:(fail). Qed.

Lemma qualified_id_traversable :
  yields (Grammar.qualified_id fuel) returns_traversable.
Proof.
  unfold Grammar.qualified_id.
  yields_run ltac:(fail); auto with traversal.
  eapply yields_mono; [apply qualified_id_loop_shape|]. cbv beta.
  intros r Hr n ->. destruct n as [xs]. apply traversable_qualified_id.
  eapply grown_Forall; [|exact (Hr _ eq_refl)].
  constructor; [discriminate | constructor].
Qed.
Lemma id_expression_traversable :
  yields (Grammar.id_expression fuel) returns_traversable.
Proof.
  unfold Grammar.id_expression.
  built ltac:(first [apply qualified_id_traversable | apply unqualified_id_traversable]).
Qed.

Lemma expression_statement_traversable b :
  yields (Grammar.expression_statement fuel self b) returns_traversable.
Proof.
  unfold Grammar.expression_statement.
  built ltac:(apply expression_traversable).
Qed.

Lemma compound_statement_loop_traversable : forall iter n,
  Forall entry_ok (statements n) ->
  yields (Grammar.compound_statement_loop self iter n) returns_traversable.
Proof.
  yields_loop IH. cbn [Grammar.compound_statement_loop].
  yields_run ltac:(apply statement_ok); auto with traversal.
  - apply IH. cbn [statements]. apply Forall_app. split; [assumption|].
    constructor; [|constructor]. eexists. split; [reflexivity | auto with traversal].
  - destruct n. auto with traversal.
Qed.

Lemma compound_statement_traversable :
  yields (Grammar.compound_statement fuel self) returns_traversable.
Proof.
  unfold Grammar.compound_statement.
  yields_run ltac:(fail); auto with traversal.
  apply compound_statement_loop_traversable. constructor.
Qed.

Lemma selection_statement_traversable :
  yields (Grammar.selection_statement fuel self) returns_traversable.
Proof.
  unfold Grammar.selection_statement.
  apply yields_skip; intros c. destruct (_ || _); [auto using yields_ret with traversal|].
  apply yields_skip; intros _. apply yields_skip; intros c'.
  apply yields_skip; intros constexpr_.
  built ltac:(first [apply expression_traversable | apply compound_statement_traversable]).
Qed.

Lemma parameter_declaration_traversable :
  yields (Grammar.parameter_declaration self) returns_traversable.
Proof.
  unfold Grammar.parameter_declaration.
  apply yields_skip; intros c. cbv zeta.
  apply yields_skip; intros pass. apply yields_skip; intros c'.
  apply yields_skip; intros mod_.
  built ltac:(apply declaration_ok).
Qed.

Lemma parameter_declaration_list_loop_traversable : forall iter params,
  Forall entry_ok params ->
  yields (Grammar.parameter_declaration_list_loop self iter params)
    (fun r => forall params', r = Some params' -> Forall entry_ok params').
Proof.
  yields_loop IH. cbn [Grammar.parameter_declaration_list_loop].
  assert (Hgrow : forall p, returns_traversable (Some p) ->
                            Forall entry_ok (params ++ [Some p])).
  { intros p Hp. apply Forall_app. split; [assumption|].
    constructor; [|constructor]. eexists. split; [reflexivity | auto with traversal]. }
  yields_run ltac:(apply parameter_declaration_traversable).
  - intros params' [= <-]. auto.
  - discriminate.
  - apply IH. auto.
  - intros params' [= <-]. assumption.
Qed.

Lemma parameter_declaration_list_traversable :
  yields (Grammar.parameter_declaration_list fuel self) returns_traversable.
Proof.
  unfold Grammar.parameter_declaration_list.
  yields_run ltac:(apply parameter_declaration_list_loop_traversable; constructor);
    auto with traversal.
Qed.

Lemma declaration_traversable b :
  yields (Grammar.declaration fuel self b) returns_traversable.
Proof.
  unfold Grammar.declaration.
  apply yields_skip; intros d. destruct d; [auto using yields_ret with traversal|].
  apply yields_skip; intros start_pos. apply yields_skip; intros id.
  destruct id as [i|]; [|auto using yields_ret with traversal].
  apply yields_skip; intros c.
  destruct (negb _); [built ltac:(fail)|].
  apply yields_skip; intros _.
  eapply yields_bind; [apply parameter_declaration_list_traversable|].
  intros t Ht.
  apply yields_bind
    with (P := fun ty => forall s, returns_traversable s ->
                 traversable (mk_declaration_node (Some i) ty s)).
  - destruct t as [l|].
    + apply yields_ret. auto with traversal.
    + built ltac:(apply id_expression_traversable).
  - intros ty Hty.
    yields_run ltac:(apply statement_ok); auto with traversal.
Qed.

Lemma statement_traversable b :
  yields (Grammar.statement fuel self b) returns_traversable.
Proof.
  unfold Grammar.statement.
  built ltac:(first [ apply selection_statement_traversable
                    | apply compound_statement_traversable
                    | apply declaration_traversable
                    | apply expression_statement_traversable ]).
Qed.

Lemma translation_unit_loop_traversable : forall iter n,
  Forall entry_ok (declarations n) ->
  yields (Grammar.translation_unit_loop fuel self iter n)
    (fun r => exists n', r = Some n' /\ Forall entry_ok (declarations n')).
Proof.
  yields_loop IH. cbn [Grammar.translation_unit_loop].
  yields_run ltac:(apply declaration_traversable).
  - apply IH. cbn [declarations]. apply Forall_app. split; [assumption|].
    constructor; [|constructor]. eexists. split; [reflexivity | auto with traversal].
  - eauto.
Qed.

End traversable_results.

(** The recursive entry points return traversable nodes, whatever the fuel. *)
Lemma knot_traversable fuel :
  yields (rec_expression_list (knot fuel)) returns_traversable
  /\ (forall b, yields (rec_statement (knot fuel) b) returns_traversable)
  /\ (forall b, yields (rec_declaration (knot fuel) b) returns_traversable).
Proof.
  induction fuel as [|f (Hl & Hs & Hd)]; cbn [knot rec_expression_list rec_statement
                                             rec_declaration].
  - repeat split; intros; apply yields_out_of_fuel.
  - repeat split; intros.
    + apply expression_list_traversable; assumption.
    + apply statement_traversable; assumption.
    + apply declaration_traversable; assumption.
Qed.
Lemma translation_unit_traversable fuel :
  yields (translation_unit fuel)
    (fun r => exists n, r = Some n /\ Forall entry_ok (declarations n)).
Proof.
  destruct (knot_traversable fuel) as (Hl & Hs & Hd).
  unfold translation_unit, Grammar.translation_unit.
  apply translation_unit_loop_traversable; [assumption | assumption | constructor].
Qed.

Lemma done_state st b st' : done st = Ok b st' -> st' = st.
Proof.
  unfold done. destruct (tokens_ st); [|discriminate].
  destruct (pos st <=? ssize l); [|discriminate]. now intros [= _ <-].
Qed.

Lemma curr_state st c st' : curr st = Ok c st' -> st' = st.
Proof.
  unfold curr. destruct (done st) as [[|] s| |]; try discriminate.
  destruct (tokens_ st); [|discriminate].
  destruct (subscript _ _); [|discriminate]. now intros [= _ <-].
Qed.

Lemma error_keeps_tree m st u st' :
  error_ m st = Ok u st' -> parse_tree st' = parse_tree st.
Proof.
  unfold error_, bind. destruct (done st) as [[|] s| |] eqn:Ed; try discriminate.
  apply done_state in Ed. subst s.
  destruct (curr st) as [c s| |] eqn:Ec; try discriminate.
  apply curr_state in Ec. subst s. intros E. injection E as _ <-.
  destruct st; reflexivity.
Qed.

(** X14.  [parse] keeps the stored tree traversable: if every declaration
    stored before the call is, every declaration stored after it is.  The
    traversal of the stored tree then trips an [assert] exactly when some
    expression list in the tree has a null entry. *)
Theorem parse_keeps_tree_traversable fuel toks st b st' :
  traversable_tree st ->
  parse fuel toks st = Ok b st' ->
  traversable_tree st'
  /\ exists t, parse_tree st' = Some t
               /\ passes (visit st') = filled_translation_unit t.
Proof.
  intros (t0 & Ht0 & F0) E.
  assert (Hk : traversable_tree st').
  { unfold parse, bind in E.
    set (st1 := set_pos 0 (set_tokens toks st)) in *.
    destruct (translation_unit fuel st1) as [tu s1| |] eqn:Etu; try discriminate.
    destruct (@translation_unit_traversable fuel _ _ _ Etu) as (n & -> & Fn).
    pose proof (@translation_unit_clean toks fuel st1) as Hc.
    unfold clean in Hc. rewrite Etu in Hc.
    destruct Hc as [(_ & _ & Hp & _) _];
      [split; [reflexivity | cbn; unfold ssize; lia]|].
    change (parse_tree st1) with (parse_tree st) in Hp.
    cbn [deref] in E. unfold ret at 1 in E. rewrite Hp, Ht0 in E.
    set (st2 := set_parse_tree _ s1) in *.
    assert (H2 : traversable_tree st2).
    { eexists. split; [reflexivity|]. cbn [declarations].
      apply Forall_app. split; assumption. }
    unfold bind in E.
    destruct (done st2) as [d s3| |] eqn:Ed; try discriminate.
    apply done_state in Ed. subst s3.
    destruct (negb d).
    - destruct (error_ _ st2) as [u s4| |] eqn:Ee; try discriminate.
      apply error_keeps_tree in Ee. injection E as _ <-.
      destruct H2 as (t & Ht & Ft). exists t. split; [congruence | exact Ft].
    - injection E as _ <-. exact H2. }
  split; [exact Hk|].
  destruct Hk as (t & Ht & Ft). exists t. split; [exact Ht|].
  unfold visit. rewrite Ht. destruct t as [xs].
  exact (@traversable_translation_unit xs Ft 0).
Qed.

(** The theorem at [x : int = ( a , ) ;], whose list has a null
    entry. *)
Lemma parse_keeps_tree_traversable_witness :
  exists st',
    parse 12 trailing_comma (new_parser []) = Ok true st'
    /\ traversable_tree st'
    /\ exists t, parse_tree st' = Some t
                 /\ passes (visit st') = filled_translation_unit t
                 /\ filled_translation_unit t = false.
Proof.
  destruct (parse 12 trailing_comma (new_parser [])) as [b st'| |] eqn:E;
    [| discriminate E | discriminate E].
  assert (Hn : traversable_tree (new_parser []))
    by (eexists; split; [reflexivity | constructor]).
  destruct (@parse_keeps_tree_traversable 12 trailing_comma (new_parser []) b st' Hn E)
    as (Hk & t & Ht & Hv).
  exists st'. 
  assert (Eb : b = true) by (vm_compute in E; congruence).
  subst b. split; [reflexivity|]. split; [exact Hk|].
  exists t. split; [exact Ht|]. split; [exact Hv|].
  vm_compute in E. injection E as <-. vm_compute in Ht. injection Ht as <-.
  reflexivity.
Defined.

(* ===================================================================== *)
(** * What [parse] adds to the stored tree *)
(* ===================================================================== *)

(** X15.  [parse] only ever appends to the stored tree: the declarations
    held before the call stay, in order, in front of the ones this
    section adds, none of which is null.  This holds whether [parse]
    returns [true] or [false]. *)
Theorem parse_appends_declarations fuel toks st b st' t :
  parse_tree st = Some t ->
  parse fuel toks st = Ok b st' ->
  exists ds,
    parse_tree st' = Some (mk_translation_unit_node (declarations t ++ ds))
    /\ Forall present ds.
Proof.
  intros Ht E. unfold parse, bind in E.
  set (st1 := set_pos 0 (set_tokens toks st)) in *.
  destruct (translation_unit fuel st1) as [tu s1| |] eqn:Etu; try discriminate.
  destruct (@translation_unit_loop_shape fuel (knot fuel) fuel
              (mk_translation_unit_node []) _ _ _ Etu) as (n & -> & ds & En & Fd).
  cbn [declarations app] in En.
  pose proof (@translation_unit_clean toks fuel st1) as Hc.
  unfold clean in Hc. rewrite Etu in Hc.
  destruct Hc as [(_ & _ & Hp & _) _];
    [split; [reflexivity | cbn; unfold ssize; lia]|].
  change (parse_tree st1) with (parse_tree st) in Hp.
  cbn [deref] in E. unfold ret at 1 in E. rewrite Hp, Ht in E.
  set (st2 := set_parse_tree _ s1) in *.
  assert (H2 : parse_tree st2
               = Some (mk_translation_unit_node (declarations t ++ ds)))
    by (subst st2; rewrite En; destruct s1; reflexivity).
  exists ds. split; [|exact Fd].
  unfold bind in E.
  destruct (done st2) as [d s3| |] eqn:Ed; try discriminate.
  apply done_state in Ed. subst s3.
  destruct (negb d).
  - destruct (error_ _ st2) as [u s4| |] eqn:Ee; try discriminate.
    apply error_keeps_tree in Ee. injection E as _ <-. congruence.
  - injection E as _ <-. exact H2.
Qed.

(** The theorem at [x : int = a + ;], parsed after [x : int ;] was
    stored. *)
Lemma parse_appends_declarations_witness :
  exists t st' ds,
    parse_tree object_declaration_final = Some t
    /\ List.length (declarations t) = 1%nat
    /\ parse 8 dangling_operator object_declaration_final = Ok true st'
    /\ parse_tree st' = Some (mk_translation_unit_node (declarations t ++ ds))
    /\ Forall present ds.
Proof.
  destruct (parse_tree object_declaration_final) as [t|] eqn:T; [|discriminate T].
  destruct (parse 8 dangling_operator object_declaration_final) as [b st'| |] eqn:E;
    [| discriminate E | discriminate E].
  destruct (@parse_appends_declarations 8 dangling_operator object_declaration_final
              b st' t T E) as (ds & T' & F).
  exists t, st', ds. split; [reflexivity|]. split.
  - injection T as <-. reflexivity.
  - split; [|split; assumption].
    vm_compute in E. injection E as <- _. reflexivity.
Defined.

(* ===================================================================== *)
(** * A visitor is shown the tokens in the order of the source *)
(* ===================================================================== *)

Lemma tokens_seen_app x y : tokens_seen (x ++ y) = tokens_seen x ++ tokens_seen y.
Proof.
  induction x as [|c x IH]; [reflexivity|].
  destruct c; cbn [tokens_seen app]; rewrite IH; reflexivity.
Qed.

Lemma ascending_le : forall ix a b, ascending a b ix -> a <= b.
Proof.
  induction ix as [|i ix IH]; cbn [ascending]; intros a b H; [exact H|].
  destruct H as [Hi H]. apply IH in H. lia.
Qed.

Lemma ascending_from : forall ix a a' b, a' <= a -> ascending a b ix -> ascending a' b ix.
Proof.
  destruct ix as [|i ix]; cbn [ascending]; intros a a' b Ha H; [lia|].
  destruct H as [Hi H]. split; [lia | exact H].
Qed.

Lemma ascending_app : forall ix js a b c,
  ascending a b ix -> ascending b c js -> ascending a c (ix ++ js).
Proof.
  induction ix as [|i ix IH]; cbn [ascending app]; intros js a b c H1 H2.
  - eapply ascending_from; [exact H1 | exact H2].
  - destruct H1 as [Hi H1]. split; [exact Hi | exact (IH _ _ _ _ H1 H2)].
Qed.

Lemma ascending_upto : forall ix a b b', b <= b' -> ascending a b ix -> ascending a b' ix.
Proof.
  intros ix a b b' Hb H. rewrite <- (app_nil_r ix).
  eapply ascending_app; [exact H | exact Hb].
Qed.

Lemma drawn_nil toks a b : a <= b -> drawn toks a b [].
Proof. intros H. exists []. split; [exact H | reflexivity]. Qed.

Lemma drawn_one toks a b i t :
  subscript toks i = Some t -> a <= i < b -> drawn toks a b [t].
Proof.
  intros Hs Hi. exists [i]. split; [cbn; lia|]. cbn [map]. now rewrite Hs.
Qed.

Lemma drawn_app toks a b b' c x y :
  drawn toks a b x -> drawn toks b' c y -> b <= b' -> drawn toks a c (x ++ y).
Proof.
  intros (ix & Hi & Ei) (js & Hj & Ej) Hb. exists (ix ++ js). split.
  - eapply ascending_app; [exact Hi|]. eapply ascending_from; [exact Hb | exact Hj].
  - rewrite !map_app. now rewrite Ei, Ej.
Qed.

Lemma drawn_le toks a b l : drawn toks a b l -> a <= b.
Proof. intros (ix & Hi & _). exact (ascending_le _ _ _ Hi). Qed.

Lemma drawn_within toks a a' b b' l :
  drawn toks a b l -> a' <= a -> b <= b' -> drawn toks a' b' l.
Proof.
  intros (ix & Hi & Ei) Ha Hb. exists ix. split; [|exact Ei].
  eapply ascending_from; [exact Ha|]. eapply ascending_upto; [exact Hb | exact Hi].
Qed.

Lemma then_Some x y l :
  x >> y = Some l -> exists lx ly, x = Some lx /\ y = Some ly /\ l = lx ++ ly.
Proof.
  destruct x as [lx|], y as [ly|]; cbn; try discriminate.
  intros [= <-]. eauto.
Qed.

Lemma then_nil_l x : Some [] >> x = x.
Proof. destruct x; reflexivity. Qed.

Lemma then_nil_r x : x >> Some [] = x.
Proof. destruct x; cbn; [now rewrite app_nil_r | reflexivity]. Qed.

Lemma shows_None toks a b : shows toks a b None.
Proof. intros l E. discriminate E. Qed.

Lemma shows_nil toks a : shows toks a a (Some []).
Proof. intros l [= <-]. apply drawn_nil. lia. Qed.

Lemma shows_start toks a k d : shows toks a a (call (start_ k d)).
Proof. intros l [= <-]. apply drawn_nil. lia. Qed.

Lemma shows_end toks a k d : shows toks a a (call (end_ k d)).
Proof. intros l [= <-]. apply drawn_nil. lia. Qed.

Lemma shows_token toks i t d :
  subscript toks i = Some t -> shows toks i (i + 1) (call (start_token t d)).
Proof. intros Hs l [= <-]. eapply drawn_one; [exact Hs | lia]. Qed.

Lemma shows_then toks a b c x y :
  shows toks a b x -> shows toks b c y -> shows toks a c (x >> y).
Proof.
  intros Hx Hy l E. destruct (then_Some _ _ E) as (lx & ly & -> & -> & ->).
  rewrite tokens_seen_app.
  eapply drawn_app; [exact (Hx _ eq_refl) | exact (Hy _ eq_refl) | lia].
Qed.

Lemma shows_within toks a a' b b' x :
  shows toks a b x -> a' <= a -> b <= b' -> shows toks a' b' x.
Proof. intros Hx Ha Hb l E. eapply drawn_within; [exact (Hx l E) | exact Ha | exact Hb]. Qed.

Lemma shows_le toks a b x l : shows toks a b x -> x = Some l -> a <= b.
Proof. intros Hx E. exact (drawn_le (Hx l E)). Qed.

(** A part inserted before the closing [end] of a node. *)
Lemma shows_insert toks a b b' c x y k d :
  shows toks a b (x >> call (end_ k d)) -> shows toks b' c y -> b <= b' ->
  shows toks a c (x >> y >> call (end_ k d)).
Proof.
  intros Hx Hy Hb l E.
  destruct (then_Some _ _ E) as (lxy & le & Exy & Ee & ->).
  destruct (then_Some _ _ Exy) as (lx & ly & -> & -> & ->).
  injection Ee as <-.
  assert (Hd : drawn toks a b (tokens_seen (lx ++ [end_ k d]))) by (apply Hx; reflexivity).
  rewrite !tokens_seen_app in *. cbn [tokens_seen] in *. rewrite app_nil_r in *.
  eapply drawn_app; [exact Hd | exact (Hy _ eq_refl) | exact Hb].
Qed.
Lemma shows_call_within toks a b c : a <= b -> shows toks a b (call c) -> shows toks a b (call c).
Proof. auto. Qed.

Lemma shows_node_within toks a b k d : a <= b -> shows toks a b (call (start_ k d)).
Proof. intros H. eapply shows_within; [apply (shows_start toks a) | lia | exact H]. Qed.

Lemma shows_close_within toks a b k d : a <= b -> shows toks a b (call (end_ k d)).
Proof. intros H. eapply shows_within; [apply (shows_end toks a) | lia | exact H]. Qed.

Lemma shows_nil_within toks a b : a <= b -> shows toks a b (Some []).
Proof. intros H. eapply shows_within; [apply (shows_nil toks a) | lia | exact H]. Qed.

Lemma shows_from toks a p q x : shows toks p q x -> a <= p -> shows toks a q x.
Proof. intros H Ha. eapply shows_within; [exact H | exact Ha | lia]. Qed.

Lemma shows_token_from toks a i t d :
  subscript toks i = Some t -> a <= i -> shows toks a (i + 1) (call (start_token t d)).
Proof. intros Hs Ha. eapply shows_from; [exact (shows_token _ _ Hs) | exact Ha]. Qed.

Lemma shows_token_within toks a b i t d :
  subscript toks i = Some t -> a <= i -> i < b -> shows toks a b (call (start_token t d)).
Proof.
  intros Hs Ha Hb. eapply shows_within; [exact (shows_token _ _ Hs) | exact Ha | lia].
Qed.

(** What is known of the nodes returned so far. *)
Ltac known :=
  repeat match goal with
    | H : _ /\ (forall n, _ = Some n -> _) |- _ => destruct H
    | H : forall n, Some ?x = Some n -> _ |- _ => specialize (H x eq_refl)
    | H : forall n, None = Some n -> _ |- _ => clear H
    end.

(** The traversal of a node shows what its parts show, one after the
    other; [tac] proves that the parts follow each other in the source. *)
Ltac show_part tac :=
  lazymatch goal with
  | |- shows _ _ _ (_ >> _) => eapply shows_then; [show_part tac | show_part tac]
  | |- shows _ _ _ None => apply shows_None
  | |- shows _ _ _ (call (start_ _ _)) =>
      first [apply shows_start | apply shows_node_within; tac]
  | |- shows _ _ _ (call (end_ _ _)) =>
      first [apply shows_end | apply shows_close_within; tac]
  | |- shows _ _ _ (Some []) =>
      first [apply shows_nil | apply shows_nil_within; tac]
  | |- shows _ _ _ (call (start_token _ _)) =>
      first [ eapply shows_token_from; [eassumption | tac]
            | eapply shows_token_within; [eassumption | tac | tac] ]
  | |- shows _ _ _ (match ?x with _ => _ end) =>
      destruct x; known; show_part tac
  | |- shows _ _ _ (visit_id_expression id_empty _) =>
      unfold visit_id_expression; show_part tac
  | |- shows _ _ _ (visit_each _ ?xs _) =>
      match goal with
      | H : forall d, shows _ _ _ (visit_each _ xs d) |- _ =>
          first [ eapply shows_from; [exact (H _) | tac]
                | eapply shows_within; [exact (H _) | tac | tac] ]
      end
  | |- shows _ _ _ (_ ?n _) =>
      match goal with
      | H : in_source_order _ _ _ n |- _ =>
          first [ eapply shows_from; [exact (H _) | tac]
                | eapply shows_within; [exact (H _) | tac | tac] ]
      end
  end.

(** Write the traversal of a node out. *)
Ltac visit_out :=
  cbn [visit_of binary_expression_visited primary_expression_visited
       postfix_expression_visited prefix_expression_visited expression_visited
       expression_list_visited expression_statement_visited unqualified_id_visited
       qualified_id_visited id_expression_visited compound_statement_visited
       selection_statement_visited statement_visited declaration_visited
       parameter_declaration_visited parameter_declaration_list_visited
       translation_unit_visited];
  unfold visit_expression_statement, visit_unqualified_id, visit_qualified_id,
    visit_id_expression, visit_translation_unit;
  cbn [visit_binary_expression visit_primary_expression visit_postfix_expression
       visit_prefix_expression visit_expression visit_expression_list
       visit_compound_statement visit_selection_statement visit_statement
       visit_declaration visit_parameter_declaration visit_parameter_declaration_list
       statement_expr ids identifier declarations];
  unfold visit_token, visit_alternative;
  cbn [visit_ptr visit_each list_expr term_op term_expr postfix_op expr_list].

Ltac show_node tac := intros ?d; visit_out; show_part tac.

(** The node returned is made of parts in source order. *)
Ltac produced :=
  unfold ordered in *;
  (split; [solve [side] |]);
  let E := fresh "E" in
  intros ? E;
  first [ discriminate E
        | injection E as <-; known; show_node ltac:(solve [side]) ].

(** The node built so far is returned, the cursor further on. *)
Ltac carried :=
  (split; [solve [side] |]);
  let E := fresh "E" in
  intros ? E; injection E as <-; intros ?d;
  match goal with
  | H : in_source_order _ _ _ ?n |- shows _ _ _ (visit_of ?n _) =>
      eapply shows_within; [exact (H _) | solve [side] | solve [side]]
  end.

Ltac ouse lem :=
  eapply wp_mono; [eapply lem; side | cbv beta; intros; unfold ordered in * ].

(** ** Nodes that grow in a loop *)

Lemma chain_snoc {A} (g : A -> traversal) xs t :
  chain g (xs ++ [t]) = chain g xs >> g t.
Proof.
  induction xs as [|x xs IH]; cbn [chain app].
  - now rewrite then_nil_r, then_nil_l.
  - now rewrite IH, <- then_assoc.
Qed.

(** An entry appended to the list of a node is traversed last, before the
    closing [end]. *)
Lemma shows_snoc {A} toks a b b' c pre (g : A -> traversal) xs t k d :
  shows toks a b (pre >> chain g xs >> call (end_ k d)) ->
  shows toks b' c (g t) -> b <= b' ->
  shows toks a c (pre >> chain g (xs ++ [t]) >> call (end_ k d)).
Proof.
  intros Hx Ht Hb. rewrite chain_snoc, <- then_assoc.
  eapply shows_insert; [exact Hx | exact Ht | exact Hb].
Qed.

Lemma visit_each_chain {A} (visit_ : A -> Z -> traversal) xs d :
  visit_each visit_ xs d = chain (fun x => visit_ptr visit_ x d) xs.
Proof. induction xs as [|x xs IH]; cbn [visit_each chain]; [reflexivity | now rewrite IH]. Qed.

Lemma visit_postfix_chain e ops d :
  visit_postfix_expression (mk_postfix_expression_node e ops) d
  = call (start_ postfix_expression_kind d)
    >> visit_ptr visit_primary_expression e (d + 1)
    >> chain (fun x => call (start_token (postfix_op x) (d + 1))
                       >> match expr_list x with
                          | Some l => visit_expression_list l (d + 1)
                          | None => Some []
                          end) ops
    >> call (end_ postfix_expression_kind d).
Proof.
  cbn [visit_postfix_expression]. do 2 f_equal.
  induction ops as [|o ops IH]; cbn [chain]; [reflexivity | now rewrite IH].
Qed.

Lemma visit_binary_chain {Name Term} (visit_term : Term -> Z -> traversal) e terms d :
  visit_binary_expression visit_term (mk_binary_expression_node (Name:=Name) e terms) d
  = call (start_ (binary_expression_kind Name) d)
    >> match e with
       | Some x => visit_term x (d + 1)
       | None => None
       end
    >> chain (fun x => call (start_token (term_op x) (d + 1))
                       >> match term_expr x with
                          | Some y => visit_term y (d + 1)
                          | None => None
                          end) terms
    >> call (end_ (binary_expression_kind Name) d).
Proof.
  cbn [visit_binary_expression]. do 2 f_equal.
  induction terms as [|o terms IH]; cbn [chain]; [reflexivity | now rewrite IH].
Qed.

Lemma visit_expression_list_chain xs d :
  visit_expression_list (mk_expression_list_node xs) d
  = call (start_ expression_list_kind d)
    >> chain (fun x => visit_ptr visit_expression (list_expr x) (d + 1)) xs
    >> call (end_ expression_list_kind d).
Proof.
  cbn [visit_expression_list]. do 2 f_equal.
  induction xs as [|o xs IH]; cbn [chain]; [reflexivity | now rewrite IH].
Qed.

Lemma ordered_postfix_snoc toks a b b' c n t :
  in_source_order toks a b n -> b <= b' ->
  (forall d, shows toks b' c
     (call (start_token (postfix_op t) (d + 1))
      >> match expr_list t with
         | Some l => visit_expression_list l (d + 1)
         | None => Some []
         end)) ->
  in_source_order toks a c
    (mk_postfix_expression_node (postfix_expr n) (postfix_ops n ++ [t])).
Proof.
  intros Hn Hb Ht d. specialize (Hn d). destruct n as [e ops].
  cbn [visit_of postfix_expression_visited postfix_expr postfix_ops] in *.
  rewrite visit_postfix_chain in *.
  eapply shows_snoc; [exact Hn | exact (Ht d) | exact Hb].
Qed.

Lemma ordered_binary_snoc {Name Term} `{Visited Term} toks a b b' c
  (n : binary_expression_node Name Term) t :
  in_source_order toks a b n -> b <= b' ->
  (forall d, shows toks b' c
     (call (start_token (term_op t) (d + 1))
      >> match term_expr t with
         | Some y => visit_of y (d + 1)
         | None => None
         end)) ->
  in_source_order toks a c
    (mk_binary_expression_node (Name:=Name) (binary_expr n) (binary_terms n ++ [t])).
Proof.
  intros Hn Hb Ht d. specialize (Hn d). destruct n as [e terms].
  cbn [visit_of binary_expression_visited binary_expr binary_terms] in *.
  rewrite visit_binary_chain in *.
  eapply shows_snoc; [exact Hn | exact (Ht d) | exact Hb].
Qed.

Lemma ordered_expression_list_snoc toks a b b' c n t :
  in_source_order toks a b n -> b <= b' ->
  (forall d, shows toks b' c (visit_ptr visit_expression (list_expr t) (d + 1))) ->
  in_source_order toks a c (mk_expression_list_node (expressions n ++ [t])).
Proof.
  intros Hn Hb Ht d. specialize (Hn d). destruct n as [xs].
  cbn [visit_of expression_list_visited expressions] in *.
  rewrite visit_expression_list_chain in *.
  eapply shows_snoc; [exact Hn | exact (Ht d) | exact Hb].
Qed.

Lemma ordered_qualified_id_snoc toks a b b' c n t :
  in_source_order toks a b n -> b <= b' ->
  (forall d, shows toks b' c (visit_ptr visit_unqualified_id t (d + 1))) ->
  in_source_order toks a c (mk_qualified_id_node (ids n ++ [t])).
Proof.
  intros Hn Hb Ht d. specialize (Hn d). destruct n as [xs].
  cbn [visit_of qualified_id_visited ids] in *. unfold visit_qualified_id in *.
  cbn [ids] in *. rewrite visit_each_chain in *.
  eapply shows_snoc; [exact Hn | exact (Ht d) | exact Hb].
Qed.

Lemma ordered_compound_snoc toks a b b' c n t :
  in_source_order toks a b n -> b <= b' ->
  (forall d, shows toks b' c (visit_ptr visit_statement t (d + 1))) ->
  in_source_order toks a c
    (mk_compound_statement_node (compound_pos n) (statements n ++ [t])).
Proof.
  intros Hn Hb Ht d. specialize (Hn d). destruct n as [p xs].
  cbn [visit_of compound_statement_visited compound_pos statements
       visit_compound_statement] in *.
  rewrite visit_each_chain in *.
  eapply shows_snoc; [exact Hn | exact (Ht d) | exact Hb].
Qed.

Lemma ordered_translation_unit_snoc toks a b b' c n t :
  in_source_order toks a b n -> b <= b' ->
  (forall d, shows toks b' c (visit_ptr visit_declaration t (d + 1))) ->
  in_source_order toks a c (mk_translation_unit_node (declarations n ++ [t])).
Proof.
  intros Hn Hb Ht d. specialize (Hn d). destruct n as [xs].
  cbn [visit_of translation_unit_visited declarations] in *.
  unfold visit_translation_unit in *. cbn [declarations] in *.
  rewrite visit_each_chain in *.
  eapply shows_snoc; [exact Hn | exact (Ht d) | exact Hb].
Qed.
Lemma shows_each_snoc {A} toks a b b' c (visit_ : A -> Z -> traversal) xs t d :
  shows toks a b (visit_each visit_ xs d) ->
  shows toks b' c (visit_ptr visit_ t d) -> b <= b' ->
  shows toks a c (visit_each visit_ (xs ++ [t]) d).
Proof.
  intros Hx Ht Hb. rewrite visit_each_chain in *. rewrite chain_snoc.
  eapply shows_then; [exact Hx|]. eapply shows_within; [exact Ht | exact Hb | lia].
Qed.

(** The prefix operators are shown as they were collected. *)
Lemma shows_operators toks a b ops d :
  drawn toks a b ops ->
  shows toks a b (Some (map (fun x => start_token x d) ops)).
Proof.
  intros Hd l [= <-]. replace (tokens_seen _) with ops; [exact Hd|].
  clear Hd. induction ops as [|o ops IH]; cbn [map tokens_seen]; [reflexivity|].
  now rewrite <- IH.
Qed.

(** ** The productions return nodes in source order *)

Section source_order.
Variable toks : list token.
Variable fuel : nat.
Variable self : recursion.

Hypothesis self_expression_list : forall st,
  valid toks st -> wp True (rec_expression_list self) st (ordered toks st).
Hypothesis self_statement : forall b st,
  valid toks st -> wp True (rec_statement self b) st (ordered toks st).
Hypothesis self_declaration : forall b st,
  valid toks st -> wp True (rec_declaration self b) st (ordered toks st).

Ltac o0 :=
  idtac;
  first [ ouse self_expression_list | ouse self_statement | ouse self_declaration ].

Ltac oloop IH :=
  let iter := fresh "iter" in
  intros iter; induction iter as [|iter IH]; intros;
  [ apply wp_out_of_fuel; exact I | ].

Lemma primary_expression_ordered st :
  valid toks st ->
  wp True (Grammar.primary_expression self) st (ordered toks st).
Proof.
  intros Hv. unfold Grammar.primary_expression. run toks o0.
  all: produced.
Qed.
Lemma postfix_expression_loop_ordered : forall iter n st a,
  valid toks st -> a <= pos st -> in_source_order toks a (pos st) n ->
  wp True (Grammar.postfix_expression_loop self iter n) st
     (fun r st' =>
        steady toks st st'
        /\ forall n', r = Some n' -> in_source_order toks a (pos st') n').
Proof.
  oloop IH. cbn [Grammar.postfix_expression_loop].
  run toks ltac:(idtac; first [o0 | fail]).
  all: try carried.
  all: eapply wp_mono;
    [ eapply (IH _ _ a); [solve [side] | solve [side] |]
    | cbv beta; intros ? ? [? ?]; split; [solve [side] | assumption] ].
  all: eapply ordered_postfix_snoc; [eassumption | apply Z.le_refl |].
  all: intros d; cbn [postfix_op expr_list]; known; show_part ltac:(solve [side]).
Qed.
Lemma postfix_expression_ordered st :
  valid toks st ->
  wp True (Grammar.postfix_expression fuel self) st (ordered toks st).
Proof.
  intros Hv. unfold Grammar.postfix_expression.
  run toks ltac:(idtac; first [ouse primary_expression_ordered | fail]).
  all: try produced.
  destruct H as [Hp Hn]. known.
  eapply wp_mono;
    [ eapply (@postfix_expression_loop_ordered _ _ _ (pos st)); [side | side |]
    | cbv beta; intros r st2 [Hs Hr]; split; [side | exact Hr] ].
  show_node ltac:(solve [side]).
Qed.

(** The prefix operators collected are tokens in source order. *)
Lemma prefix_expression_loop_ordered : forall iter ops st a,
  valid toks st -> drawn toks a (pos st) ops ->
  wp True (Grammar.prefix_expression_loop iter ops) st
     (fun ops' st' => steady toks st st' /\ drawn toks a (pos st') ops').
Proof.
  oloop IH. cbn [Grammar.prefix_expression_loop].
  run toks ltac:(idtac; fail).
  - eapply wp_mono;
      [ eapply (IH _ _ a); [solve [side] |]
      | cbv beta; intros ? ? [? ?]; split; [solve [side] | assumption] ].
    eapply drawn_app; [eassumption | | apply Z.le_refl].
    eapply drawn_one; [eassumption | side].
Qed.

Lemma prefix_expression_ordered st :
  valid toks st ->
  wp True (Grammar.prefix_expression fuel self) st (ordered toks st).
Proof.
  intros Hv. unfold Grammar.prefix_expression.
  apply wp_bind. eapply wp_mono;
    [ eapply (@prefix_expression_loop_ordered _ _ _ (pos st));
        [exact Hv | apply drawn_nil, Z.le_refl] |].
  cbv beta. intros ops st1 [Hs Hd].
  run toks ltac:(idtac; first [ouse postfix_expression_ordered | fail]).
  all: try produced.
  unfold ordered in *. split; [side|]. intros n [= <-]. known.
  intros d. visit_out.
  eapply shows_then; [eapply shows_then; [eapply shows_then|]|].
  - apply shows_start.
  - apply shows_operators. exact Hd.
  - eapply shows_from; [exact (H0 _) | apply Z.le_refl].
  - apply shows_close_within. apply Z.le_refl.
Qed.

Section binary.
Context {Name : string} {Term : Type} `{Visited Term}.
Variable is_valid_op : token -> bool.
Variable term : M (option Term).
Hypothesis term_ordered : forall st,
  valid toks st -> wp True term st (ordered toks st).

Lemma binary_expression_loop_ordered :
  forall iter (n : binary_expression_node Name Term) st a,
  valid toks st -> a <= pos st -> in_source_order toks a (pos st) n ->
  wp True (Grammar.binary_expression_loop is_valid_op term iter n) st
     (fun r st' =>
        steady toks st st'
        /\ forall n', r = Some n' -> in_source_order toks a (pos st') n').
Proof.
  oloop IH. cbn [Grammar.binary_expression_loop].
  run toks ltac:(idtac; first [ouse term_ordered | fail]).
  all: try carried.
  - eapply wp_mono;
      [ eapply (IH _ _ a); [solve [side] | solve [side] |]
      | cbv beta; intros ? ? [? ?]; split; [solve [side] | assumption] ].
    eapply ordered_binary_snoc; [eassumption | apply Z.le_refl |].
    intros d; cbn [term_op term_expr]; known; show_part ltac:(solve [side]).
Qed.

Lemma binary_expression_ordered st :
  valid toks st ->
  wp True (Grammar.binary_expression (Name:=Name) fuel is_valid_op term) st
     (ordered toks st).
Proof.
  intros Hv. unfold Grammar.binary_expression.
  run toks ltac:(idtac; first [ouse term_ordered | fail]).
  all: try produced.
  destruct H0 as [Hp Hn]. known.
  eapply wp_mono;
    [ eapply (@binary_expression_loop_ordered _ _ _ (pos st)); [side | side |]
    | cbv beta; intros r st2 [Hs Hr]; split; [side | exact Hr] ].
  show_node ltac:(solve [side]).
Qed.
End binary.

Lemma assignment_expression_ordered st :
  valid toks st ->
  wp True (Grammar.assignment_expression fuel self) st (ordered toks st).
Proof.
  revert st.
  repeat (intros; apply binary_expression_ordered; [|assumption]).
  apply prefix_expression_ordered.
Qed.

Lemma expression_ordered st :
  valid toks st ->
  wp True (Grammar.expression fuel self) st (ordered toks st).
Proof.
  intros Hv. unfold Grammar.expression.
  run toks ltac:(idtac; ouse assignment_expression_ordered).
  all: produced.
Qed.

Lemma out_marker_steady st :
  valid toks st ->
  wp True Grammar.out_marker st (fun _ st' => steady toks st st').
Proof. intros Hv. unfold Grammar.out_marker. run toks o0. Qed.

Lemma expression_list_loop_ordered : forall iter n st a,
  valid toks st -> a <= pos st -> in_source_order toks a (pos st) n ->
  wp True (Grammar.expression_list_loop fuel self iter n) st
     (fun r st' =>
        steady toks st st'
        /\ forall n', r = Some n' -> in_source_order toks a (pos st') n').
Proof.
  oloop IH. cbn [Grammar.expression_list_loop].
  run toks ltac:(idtac; first [ouse expression_ordered | use out_marker_steady | fail]).
  all: try carried.
  all: eapply wp_mono;
    [ eapply (IH _ _ a); [solve [side] | solve [side] |]
    | cbv beta; intros ? ? [? ?]; split; [solve [side] | assumption] ].
  all: eapply ordered_expression_list_snoc; [eassumption | apply Z.le_refl |].
  all: intros d; cbn [list_expr]; unfold visit_ptr; known;
    show_part ltac:(solve [side]).
Qed.

Lemma expression_list_ordered st :
  valid toks st ->
  wp True (Grammar.expression_list fuel self) st (ordered toks st).
Proof.
  intros Hv. unfold Grammar.expression_list.
  run toks ltac:(idtac; first [ouse expression_ordered | use out_marker_steady | fail]).
  all: try produced.
  destruct H0 as [Hp Hn]. known.
  eapply wp_mono;
    [ eapply (@expression_list_loop_ordered _ _ _ (pos st)); [side | side |]
    | cbv beta; intros r st2 [Hs Hr]; split; [side | exact Hr] ].
  show_node ltac:(solve [side]).
Qed.
Lemma unqualified_id_ordered st :
  valid toks st ->
  wp True Grammar.unqualified_id st (ordered toks st).
Proof. intros Hv. unfold Grammar.unqualified_id. run toks o0. all: produced. Qed.

Lemma qualified_id_loop_ordered : forall iter n st a,
  valid toks st -> a <= pos st -> in_source_order toks a (pos st) n ->
  wp True (Grammar.qualified_id_loop iter n) st
     (fun r st' =>
        steady toks st st'
        /\ forall n', r = Some n' -> in_source_order toks a (pos st') n').
Proof.
  oloop IH. cbn [Grammar.qualified_id_loop].
  run toks ltac:(idtac; first [ouse unqualified_id_ordered | fail]).
  all: try carried.
  all: try (split; [solve [side] | discriminate]).
  all: eapply wp_mono;
    [ eapply (IH _ _ a); [solve [side] | solve [side] |]
    | cbv beta; intros ? ? [? ?]; split; [solve [side] | assumption] ].
  all: eapply ordered_qualified_id_snoc; [eassumption | apply Z.le_refl |].
  all: intros d; unfold visit_ptr; known; show_part ltac:(solve [side]).
Qed.

Lemma qualified_id_ordered st :
  valid toks st ->
  wp True (Grammar.qualified_id fuel) st (ordered toks st).
Proof.
  intros Hv. unfold Grammar.qualified_id.
  run toks ltac:(idtac; first [ouse unqualified_id_ordered | fail]).
  all: try produced.
  destruct H as [Hp Hn]. known.
  eapply wp_mono;
    [ eapply (@qualified_id_loop_ordered _ _ _ (pos st)); [side | side |]
    | cbv beta; intros r st2 [Hs Hr]; split; [side | exact Hr] ].
  show_node ltac:(solve [side]).
Qed.

Lemma id_expression_ordered st :
  valid toks st ->
  wp True (Grammar.id_expression fuel) st (ordered toks st).
Proof.
  intros Hv. unfold Grammar.id_expression.
  run toks ltac:(idtac; first [ ouse qualified_id_ordered
                              | ouse unqualified_id_ordered ]).
  all: produced.
Qed.

Lemma expression_statement_ordered b st :
  valid toks st ->
  wp True (Grammar.expression_statement fuel self b) st (ordered toks st).
Proof.
  intros Hv. unfold Grammar.expression_statement.
  run toks ltac:(idtac; ouse expression_ordered).
  all: produced.
Qed.

Lemma compound_statement_loop_ordered : forall iter n st a,
  valid toks st -> a <= pos st -> in_source_order toks a (pos st) n ->
  wp True (Grammar.compound_statement_loop self iter n) st
     (fun r st' =>
        steady toks st st'
        /\ forall n', r = Some n' -> in_source_order toks a (pos st') n').
Proof.
  oloop IH. cbn [Grammar.compound_statement_loop].
  run toks ltac:(idtac; first [o0 | fail]).
  all: try carried.
  all: try (split; [solve [side] | discriminate]).
  all: eapply wp_mono;
    [ eapply (IH _ _ a); [solve [side] | solve [side] |]
    | cbv beta; intros ? ? [? ?]; split; [solve [side] | assumption] ].
  all: eapply ordered_compound_snoc; [eassumption | apply Z.le_refl |].
  all: intros d; unfold visit_ptr; known; show_part ltac:(solve [side]).
Qed.

Lemma compound_statement_ordered st :
  valid toks st ->
  wp True (Grammar.compound_statement fuel self) st (ordered toks st).
Proof.
  intros Hv. unfold Grammar.compound_statement.
  run toks ltac:(idtac; fail).
  all: try produced.
  eapply wp_mono;
    [ eapply (@compound_statement_loop_ordered _ _ _ (pos st)); [side | side |]
    | cbv beta; intros r st2 [Hs Hr]; split; [side | exact Hr] ].
  show_node ltac:(solve [side]).
Qed.

Lemma selection_statement_ordered st :
  valid toks st ->
  wp True (Grammar.selection_statement fuel self) st (ordered toks st).
Proof.
  intros Hv. unfold Grammar.selection_statement.
  run toks ltac:(idtac; first [ ouse compound_statement_ordered
                              | ouse expression_ordered ]).
  all: produced.
Qed.

Lemma parameter_declaration_ordered st :
  valid toks st ->
  wp True (Grammar.parameter_declaration self) st (ordered toks st).
Proof.
  intros Hv. unfold Grammar.parameter_declaration. run toks o0.
  all: produced.
Qed.

Lemma parameter_declaration_list_loop_ordered : forall iter params st a,
  valid toks st -> a <= pos st ->
  (forall d, shows toks a (pos st)
               (visit_each visit_parameter_declaration params d)) ->
  wp True (Grammar.parameter_declaration_list_loop self iter params) st
     (fun r st' =>
        steady toks st st'
        /\ forall params', r = Some params' ->
             forall d, shows toks a (pos st')
                         (visit_each visit_parameter_declaration params' d)).
Proof.
  oloop IH. cbn [Grammar.parameter_declaration_list_loop].
  assert (Hsnoc : forall p s1 s2,
            in_source_order toks (pos s1) (pos s2) p ->
            pos st <= pos s1 -> pos s1 <= pos s2 ->
            forall d, shows toks a (pos s2)
                        (visit_each visit_parameter_declaration (params ++ [Some p]) d)).
  { intros p s1 s2 Hp H12 Hle d.
    eapply shows_each_snoc; [apply H1 | exact (Hp d) | exact H12]. }
  run toks ltac:(idtac; first [ouse parameter_declaration_ordered | fail]).
  - split; [side|]. intros ? [= <-]. known.
    intros d. eapply shows_within; [eapply Hsnoc; [eassumption | side | side] | lia | side].
  - eapply wp_mono;
      [ eapply (IH _ _ a); [solve [side] | solve [side] |]
      | cbv beta; intros ? ? [? ?]; split; [solve [side] | assumption] ].
    known. intros d.
    eapply shows_within; [eapply Hsnoc; [eassumption | side | side] | lia | side].
  - split; [side|]. intros ? [= <-] d.
    eapply shows_within; [apply H1 | lia | side].
Qed.
Lemma parameter_declaration_list_ordered st :
  valid toks st ->
  wp True (Grammar.parameter_declaration_list fuel self) st (ordered toks st).
Proof.
  intros Hv. unfold Grammar.parameter_declaration_list.
  run toks ltac:(idtac; fail).
  all: try produced.
  eapply wp_mono;
    [ eapply (@parameter_declaration_list_loop_ordered _ _ _ (pos st + 1));
        [side | side | intros d; apply shows_nil_within; side] |].
  cbv beta. intros r st2 [Hs Hr].
  run toks ltac:(idtac; fail).
  all: produced.
Qed.

Lemma declaration_ordered b st :
  valid toks st ->
  wp True (Grammar.declaration fuel self b) st (ordered toks st).
Proof.
  intros Hv. unfold Grammar.declaration.
  run toks ltac:(idtac; first [ ouse unqualified_id_ordered
                              | ouse parameter_declaration_list_ordered
                              | ouse id_expression_ordered | o0 ]).
  all: produced.
Qed.

Lemma statement_ordered b st :
  valid toks st ->
  wp True (Grammar.statement fuel self b) st (ordered toks st).
Proof.
  intros Hv. unfold Grammar.statement.
  run toks ltac:(idtac; first [ ouse selection_statement_ordered
                              | ouse compound_statement_ordered
                              | ouse declaration_ordered
                              | ouse expression_statement_ordered ]).
  all: produced.
Qed.

Lemma translation_unit_loop_ordered : forall iter n st a,
  valid toks st -> a <= pos st -> in_source_order toks a (pos st) n ->
  wp True (Grammar.translation_unit_loop fuel self iter n) st
     (fun r st' =>
        steady toks st st'
        /\ exists n', r = Some n' /\ in_source_order toks a (pos st') n').
Proof.
  oloop IH. cbn [Grammar.translation_unit_loop].
  run toks ltac:(idtac; first [ouse declaration_ordered | fail]).
  - eapply wp_mono;
      [ eapply (IH _ _ a); [solve [side] | solve [side] |]
      | cbv beta; intros ? ? [? ?]; split; [solve [side] | assumption] ].
    eapply ordered_translation_unit_snoc; [eassumption | apply Z.le_refl |].
    intros depth; unfold visit_ptr; known; show_part ltac:(solve [side]).
  - split; [side|]. exists n. split; [reflexivity|]. intros depth.
    eapply shows_within; [exact (H1 depth) | lia | side].
Qed.

End source_order.

Lemma knot_ordered toks (fuel : nat) :
  (forall st, valid toks st ->
     wp True (rec_expression_list (knot fuel)) st (ordered toks st))
  /\ (forall b st, valid toks st ->
     wp True (rec_statement (knot fuel) b) st (ordered toks st))
  /\ (forall b st, valid toks st ->
     wp True (rec_declaration (knot fuel) b) st (ordered toks st)).
Proof.
  induction fuel as [|f (IHe & IHs & IHd)].
  - repeat split; intros; apply wp_out_of_fuel; exact I.
  - repeat split; intros; cbn [knot rec_expression_list rec_statement rec_declaration].
    + apply expression_list_ordered; assumption.
    + apply statement_ordered; assumption.
    + apply declaration_ordered; assumption.
Qed.
Lemma translation_unit_ordered toks fuel st :
  valid toks st ->
  wp True (translation_unit fuel) st
     (fun r st' =>
        steady toks st st'
        /\ exists n, r = Some n /\ in_source_order toks (pos st) (pos st') n).
Proof.
  intros Hv. destruct (knot_ordered toks fuel) as (He & Hs & Hd).
  unfold translation_unit, Grammar.translation_unit.
  apply translation_unit_loop_ordered; try assumption; [apply Z.le_refl|].
  intros d. visit_out. show_part ltac:(lia).
Qed.

Lemma error_state m st u st' :
  error_ m st = Ok u st' -> exists e, st' = emplace_back_error e st.
Proof.
  unfold error_, bind. destruct (done st) as [[|] s| |] eqn:Ed; try discriminate.
  apply done_state in Ed. subst s.
  destruct (curr st) as [c s| |] eqn:Ec; try discriminate.
  apply curr_state in Ec. subst s. intros E. injection E as _ <-. eauto.
Qed.


(* ===================================================================== *)
(** * C1: what [parse] returns and reports *)
(* ===================================================================== *)

(** C1, amended.  [parse] returns [false] exactly when the cursor has not
    reached the end of the tokens, and then the last diagnostic it has
    appended is "unexpected text at end of Cpp2 code section", located at
    the token under the cursor and ending with its text; the diagnostics
    held before the call and those of the productions stay in front of
    it.  The tokens it leaves in the parser are the ones it was given. *)
Theorem parse_false_iff_not_at_end fuel toks st b st' :
  parse fuel toks st = Ok b st' ->
  tokens_ st' = Some toks
  /\ (b = false <-> pos st' <> ssize toks)
  /\ (b = false ->
      exists l c,
        subscript toks (pos st') = Some c
        /\ errors st'
           = errors st ++ l
             ++ [mk_error (position c)
                   ("unexpected text at end of Cpp2 code section at " ++ to_string c)]).
Proof.
  intros E. unfold parse, bind in E.
  set (st1 := set_pos 0 (set_tokens toks st)) in *.
  assert (Hv : valid toks st1) by (split; [reflexivity | cbn; unfold ssize; lia]).
  destruct (translation_unit fuel st1) as [tu s1| |] eqn:Etu; try discriminate.
  pose proof (@translation_unit_clean toks fuel st1 Hv) as Hc.
  unfold clean in Hc. rewrite Etu in Hc.
  destruct Hc as [((Ht1 & Hp1) & _ & _ & (l & El & _)) _].
  change (errors st1) with (errors st) in El.
  destruct (deref tu s1) as [tu' s1'| |] eqn:Ed; try discriminate.
  assert (s1' = s1) as -> by (destruct tu; cbn in Ed; [now injection Ed | discriminate]).
  destruct (parse_tree s1) as [t|]; [|discriminate].
  set (st2 := set_parse_tree _ s1) in *.
  assert (Ht2 : tokens_ st2 = Some toks) by exact Ht1.
  assert (Hp2 : pos st2 = pos s1) by reflexivity.
  assert (He2 : errors st2 = errors st ++ l) by exact El.
  rewrite (@done_run toks st2 Ht2) in E by lia.
  destruct (Z.eqb_spec (pos st2) (ssize toks)) as [Heq|Hne]; cbn [negb] in E.
  - injection E as <- <-. repeat split; try assumption; try congruence.
  - assert (Hr : 0 <= pos st2 < ssize toks) by lia.
    destruct (subscript_Some toks Hr) as (c & Hc).
    rewrite (@error_run toks st2 c _ Ht2 Hc) in E. injection E as <- <-.
    repeat split; try assumption.
    + intros _. exact Hne.
    + intros _. exists l, c. split; [exact Hc|].
      cbn [errors emplace_back_error]. rewrite He2, <- app_assoc. reflexivity.
Qed.

(** The theorem at [) ; ;]. *)
Lemma parse_false_iff_not_at_end_witness :
  parse 4 stray_paren (new_parser []) = Ok false stray_paren_final
  /\ tokens_ stray_paren_final = Some stray_paren
  /\ pos stray_paren_final <> ssize stray_paren
  /\ exists l c,
       subscript stray_paren (pos stray_paren_final) = Some c
       /\ errors stray_paren_final
          = errors (new_parser []) ++ l
            ++ [mk_error (position c)
                  ("unexpected text at end of Cpp2 code section at " ++ to_string c)].
Proof.
  assert (E : parse 4 stray_paren (new_parser []) = Ok false stray_paren_final)
    by (vm_compute; reflexivity).
  destruct (parse_false_iff_not_at_end 4 stray_paren (new_parser []) E) as (Ht & Hb & He).
  split; [exact E|]. split; [exact Ht|].
  split; [exact (proj1 Hb eq_refl) | exact (He eq_refl)].
Defined.
